(** * Cursor tracker: real-time synchronisation protocol

    A shallow embedding of the cursor-tracker server
    ([cursor-tracker/server/server.js]) and of the client-side throttle and
    interpolation code ([frontend/utils/math.ts],
    [frontend/components/CursorLayer.tsx]) and object layer
    ([frontend/components/ObjectLayer.tsx]), followed by the properties of
    the synchronisation protocol.

    Conventions of the embedding.
    - A JavaScript [number] is an IEEE-754 binary64 value: Rocq's primitive
      [float].  Where the code only compares, subtracts and increments
      integral clock readings and counters (the server's [lastUpdate], the
      throttle, the sequence number) they are kept in [Z]; where a clock
      reading is mixed with payload numbers (the cursor layer) it is a [float].
    - Untyped payload fields are [Js.value]s; a missing field reads as
      [Js.Undefined].
    - A JavaScript [Map] is an insertion-ordered association list ([JsMap]).
    - An event handler is a function from the server state to the new state
      and the list of emissions it performs, in program order.
    - The arithmetic of numbers is that of the primitive operations, as the
      Standard Library specifies them ([FloatAxioms]); [Binary64] and
      [RoundingFacts] read this specification as rounding to nearest. *)

From Stdlib Require Import String List ZArith QArith Qround Bool Lia.
From Stdlib Require Import Floats.PrimFloat.
From Stdlib Require Import Floats.SpecFloat Floats.FloatOps Floats.FloatAxioms.
Import ListNotations.

Local Open Scope string_scope.
Local Open Scope list_scope.

(** ** JavaScript values *)

Module Js.

Inductive value : Type :=
  | Undefined
  | Null
  | Boolean (b : bool)
  | Number (n : float)
  | Str (s : string)
  | Object.

Definition typeof (v : value) : string :=
    match v with
    | Undefined => "undefined"
    | Null => "object"
    | Boolean _ => "boolean"
    | Number _ => "number"
    | Str _ => "string"
    | Object => "object"
    end.

  (** ToBoolean on a number: [NaN], [+0] and [-0] are falsy. *)
Definition number_truthy (n : float) : bool :=
    negb (is_nan n || is_zero n).

  (** ToBoolean. *)
Definition truthy (v : value) : bool :=
    match v with
    | Undefined | Null => false
    | Boolean b => b
    | Number n => number_truthy n
    | Str s => negb (s =? "")
    | Object => true
    end.

  (** [v >= n] and [v <= n] for a value already known to be a number (the
      validator only reaches them behind its [typeof] guards). *)
Definition geb (v : value) (n : float) : bool :=
    match v with Number x => (n <=? x)%float | _ => false end.

Definition leb (v : value) (n : float) : bool :=
    match v with Number x => (x <=? n)%float | _ => false end.

  (** [Math.min] and [Math.max] on two arguments: [NaN] is contagious and
      [-0] is smaller than [+0]. *)
Definition Math_min (a b : float) : float :=
    if is_nan a then nan
    else if is_nan b then nan
    else if (a <? b)%float then a
    else if (b <? a)%float then b
    else if get_sign a then a else b.

Definition Math_max (a b : float) : float :=
    if is_nan a then nan
    else if is_nan b then nan
    else if (a <? b)%float then b
    else if (b <? a)%float then a
    else if get_sign a then b else a.

  (** [Math.round] on a finite number, read as the rational it denotes:
      the nearest integer, ties towards positive infinity. *)
Definition Math_round (q : Q) : Z := Qfloor (q + (1 # 2))%Q.

End Js.

(** ** Binary64 numbers as scaled integers

    The vocabulary in which the rounding of the operations [+], [-] and [*]
    on JavaScript numbers is stated: the value of a finite number counted in
    units of [2 ^ -2148], and the nearest number to an exact result. *)

Module Binary64.

(** Round to nearest, ties to even, of [x / g] for [0 <= x] and [0 < g]. *)
Definition nearest_even (x g : Z) : Z :=
  let q := (x / g)%Z in
  let r := (x mod g)%Z in
  if (2 * r <? g)%Z then q
  else if (g <? 2 * r)%Z then (q + 1)%Z
  else if Z.even q then q else (q + 1)%Z.

(** A finite binary64 number [m * 2 ^ e] has [-1074 <= e], and the exact
    product of two has [-2148 <= e]: counted in units of [2 ^ -2148] each is
    an integer. *)
Definition bias : Z := 2148.

Definition scaled (m e : Z) : Z := m * 2 ^ (e + bias).

(** The spacing of binary64 numbers around [x], in the same units: 53
    significant bits, and never finer than the subnormal spacing. *)
Definition spacing (x : Z) : Z := 2 ^ Z.max (Z.log2 x + 1 - 53) 1074.

(** The binary64 number nearest to [0 <= x], ties to even. *)
Definition rounded (x : Z) : Z := nearest_even x (spacing x) * spacing x.

(** The same for any [x]: rounding is symmetric about zero. *)
Definition nearest (x : Z) : Z :=
  if (x <? 0)%Z then (- rounded (- x))%Z else rounded x.

(** The value of a finite binary64 number, in units of [2 ^ -2148]. *)
Definition value_of (x : spec_float) : Z :=
  match x with
  | S754_finite s m e => cond_Zopp s (scaled (Zpos m) e)
  | _ => 0%Z
  end.

(** Neither [NaN] nor an infinity. *)
Definition finite (x : spec_float) : bool :=
  match x with
  | S754_zero _ | S754_finite _ _ _ => true
  | _ => false
  end.

(** A rounded result of this size or more is returned as an infinity. *)
Definition overflow : Z := 2 ^ (1024 + bias).

(** [r] is what an operation whose exact result is [x] returns. *)
Definition rounds_to (x : Z) (r : spec_float) : Prop :=
  match r with
  | S754_zero _ => nearest x = 0%Z
  | S754_finite _ m e => bounded prec emax m e = true /\ value_of r = nearest x
  | S754_infinity s => s = (x <? 0)%Z /\ (overflow <= Z.abs (nearest x))%Z
  | S754_nan => False
  end.

(** What [k] right shifts leave of [m0]: the quotient, the last bit shifted
    out and whether any bit before it was set. *)
Definition shifted (m0 k : Z) (rec : shr_record) : Prop :=
  shr_m rec = (m0 / 2 ^ k)%Z
  /\ shr_r rec = (2 ^ k <=? 2 * (m0 mod 2 ^ k))%Z
  /\ shr_s rec = negb ((2 * (m0 mod 2 ^ k)) mod 2 ^ k =? 0)%Z.

(** The number that is the integer [z]; exact for [|z| < 2 ^ 53]. *)
Definition of_int (z : Z) : float :=
  SF2Prim (binary_normalize prec emax z 0 false).

End Binary64.

(** ** JavaScript [Map] with string keys: insertion-ordered association list *)

Module JsMap.

Definition t (V : Type) : Type := list (string * V).

Section Ops.
Context {V : Type}.

Fixpoint get (k : string) (m : t V) : option V :=
      match m with
      | [] => None
      | (k', v) :: rest => if k' =? k then Some v else get k rest
      end.

Definition has (k : string) (m : t V) : bool :=
      match get k m with Some _ => true | None => false end.

    (** [m.set(k, v)]: an existing key keeps its place, a new key goes last. *)
Fixpoint set (k : string) (v : V) (m : t V) : t V :=
      match m with
      | [] => [(k, v)]
      | (k', v') :: rest =>
          if k' =? k then (k, v) :: rest else (k', v') :: set k v rest
      end.

Fixpoint delete (k : string) (m : t V) : t V :=
      match m with
      | [] => []
      | (k', v') :: rest =>
          if k' =? k then rest else (k', v') :: delete k rest
      end.

Definition keys (m : t V) : list string := map fst m.
Definition values (m : t V) : list V := map snd m.

    (** Number of entries stored under [k]. *)
Definition count (k : string) (m : t V) : nat :=
      length (filter (fun p => fst p =? k) m).

End Ops.

End JsMap.

(** ** The server: [server/server.js] *)

Module Server.

(** Entries of the [users] map. *)
Record User : Type := mkUser {
  u_id : string;
  u_name : Js.value;
  u_x : Js.value;
  u_y : Js.value;
  u_color : string;
  u_lastUpdate : Z
}.

(** Entries of the [objects] map; [o_ownerId = None] is [ownerId: null]. *)
Record SharedObject : Type := mkObject {
  o_id : string;
  o_x : Js.value;
  o_y : Js.value;
  o_width : Z;
  o_height : Z;
  o_ownerId : option string;
  o_color : string
}.

Record State : Type := mkState {
  users : JsMap.t User;
  objects : JsMap.t SharedObject
}.

(** Field assignments on the stored records. *)
Definition set_position (o : SharedObject) (x y : Js.value) : SharedObject :=
  mkObject (o_id o) x y (o_width o) (o_height o) (o_ownerId o) (o_color o).

Definition set_ownerId (o : SharedObject) (owner : option string) : SharedObject :=
  mkObject (o_id o) (o_x o) (o_y o) (o_width o) (o_height o) owner (o_color o).

Definition set_name (u : User) (name : Js.value) : User :=
  mkUser (u_id u) name (u_x u) (u_y u) (u_color u) (u_lastUpdate u).

Definition set_cursor (u : User) (x y : Js.value) (now : Z) : User :=
  mkUser (u_id u) (u_name u) x y (u_color u) now.

(** [initializeObjects()] *)
Definition initializeObjects : JsMap.t SharedObject :=
  JsMap.set "obj-3"
    (mkObject "obj-3" (Js.Number 800) (Js.Number 150) 40 40 None "#45B7D1")
    (JsMap.set "obj-2"
       (mkObject "obj-2" (Js.Number 500) (Js.Number 300) 40 40 None "#4ECDC4")
       (JsMap.set "obj-1"
          (mkObject "obj-1" (Js.Number 200) (Js.Number 200) 40 40 None "#FF6B6B")
          [])).

Definition initial_state : State := mkState [] initializeObjects.

(** [generateRandomColor()]; [idx] is [Math.floor(Math.random() * colors.length)]. *)
Definition colors : list string :=
  ["#FF6B6B"; "#4ECDC4"; "#45B7D1"; "#FFA07A"; "#98D8C8";
   "#F7DC6F"; "#BB8FCE"; "#85C1E2"; "#F8B88B"; "#A9DFBF"].

Definition generateRandomColor (idx : nat) : string := nth idx colors "".

(** Payload of [cursor_move]. *)
Record CursorMoveData : Type := mkCursorMove {
  cm_x : Js.value;
  cm_y : Js.value;
  cm_ts : Js.value;
  cm_seq : Js.value
}.

(** [isValidCursorUpdate(data)] *)
Definition isValidCursorUpdate (data : CursorMoveData) : bool :=
  (Js.typeof (cm_x data) =? "number") &&
  (Js.typeof (cm_y data) =? "number") &&
  (Js.typeof (cm_ts data) =? "number") &&
  (Js.typeof (cm_seq data) =? "number") &&
  Js.geb (cm_x data) 0 &&
  Js.leb (cm_x data) 10000 &&
  Js.geb (cm_y data) 0 &&
  Js.leb (cm_y data) 10000.

(** [getObjectState()]: a copy of every object, in map order. *)
Definition getObjectState (objs : JsMap.t SharedObject) : list SharedObject :=
  map (fun obj =>
         mkObject (o_id obj) (o_x obj) (o_y obj) (o_width obj) (o_height obj)
                  (o_ownerId obj) (o_color obj))
      (JsMap.values objs).

(** Messages sent to clients. *)
Inductive Msg : Type :=
| init (userId : string) (us : list User) (objs : list SharedObject) (color : string)
| init_objects (objs : list SharedObject)
| user_joined (id : string) (name x y : Js.value) (color : string)
| cursor_update (id : string) (x y ts seq name : Js.value) (color : string)
| object_update (id : string) (x y : Js.value) (ownerId : option string)
| object_reject (objectId : string) (reason : string)
| user_left (id : string).

(** The three fan-out primitives of socket.io used by the handlers. *)
Inductive Target : Type :=
| socket_emit (sid : string)            (* socket.emit: the socket itself *)
| socket_broadcast_emit (sid : string)  (* socket.broadcast.emit: all but the socket *)
| io_emit.                              (* io.emit: every connected socket *)

Definition Emission : Type := (Target * Msg)%type.

(** Whether connection [c] receives an emission sent to [t] while [conns]
    are the connected sockets. *)
Definition receives (conns : list string) (t : Target) (c : string) : bool :=
  existsb (String.eqb c) conns &&
  match t with
  | socket_emit sid => c =? sid
  | socket_broadcast_emit sid => negb (c =? sid)
  | io_emit => true
  end.

(** One entry per live socket: set on connection, deleted on disconnect. *)
Definition connected (st : State) : list string := JsMap.keys (users st).

(** [obj.ownerId && obj.ownerId !== socket.id] *)
Definition owned_by_other (owner : option string) (sid : string) : bool :=
  match owner with
  | Some c => negb (c =? "") && negb (c =? sid)
  | None => false
  end.

(** [obj.ownerId === socket.id] *)
Definition owner_is (owner : option string) (sid : string) : bool :=
  match owner with
  | Some c => c =? sid
  | None => false
  end.

Definition reason_not_found : string := "Object not found".
Definition reason_owned : string := "Object is owned by another user".
Definition reason_not_owner : string := "You do not own this object".

(** [io.on("connection", ...)]: the body run when a socket connects. *)
Definition on_connection (sid : string) (idx : nat) (now : Z) (st : State)
  : State * list Emission :=
  let userColor := generateRandomColor idx in
  (mkState
     (JsMap.set sid
        (mkUser sid (Js.Str ("User " ++ substring 0 5 sid))
                (Js.Number 0) (Js.Number 0) userColor now)
        (users st))
     (objects st),
   []).

(** [socket.on("join", ...)].  [userColor] of the closure is the colour stored
    in the record at connection.  A socket without a record would throw at
    [user.name]; nothing is emitted then. *)
Definition on_join (sid : string) (name : Js.value) (st : State)
  : State * list Emission :=
  match JsMap.get sid (users st) with
  | None => (st, [])
  | Some user =>
      let user' := if Js.truthy name then set_name user name else user in
      let us' := JsMap.set sid user' (users st) in
      (mkState us' (objects st),
       [ (socket_emit sid,
          init sid
               (filter (fun u => negb (u_id u =? sid)) (JsMap.values us'))
               (getObjectState (objects st))
               (u_color user'));
         (socket_broadcast_emit sid,
          user_joined sid (u_name user') (u_x user') (u_y user') (u_color user')) ])
  end.

(** [socket.on("cursor_move", ...)] *)
Definition on_cursor_move (sid : string) (data : CursorMoveData) (now : Z)
  (st : State) : State * list Emission :=
  if negb (isValidCursorUpdate data) then (st, [])
  else
    match JsMap.get sid (users st) with
    | None => (st, [])
    | Some user =>
        let user' := set_cursor user (cm_x data) (cm_y data) now in
        (mkState (JsMap.set sid user' (users st)) (objects st),
         [ (socket_broadcast_emit sid,
            cursor_update sid (cm_x data) (cm_y data) (cm_ts data) (cm_seq data)
                          (u_name user') (u_color user')) ])
    end.

(** [socket.on("pickup", ...)] *)
Definition on_pickup (sid : string) (objectId : string) (st : State)
  : State * list Emission :=
  match JsMap.get objectId (objects st) with
  | None => (st, [ (socket_emit sid, object_reject objectId reason_not_found) ])
  | Some obj =>
      if owned_by_other (o_ownerId obj) sid
      then (st, [ (socket_emit sid, object_reject objectId reason_owned) ])
      else
        let obj' := set_ownerId obj (Some sid) in
        (mkState (users st) (JsMap.set objectId obj' (objects st)),
         [ (io_emit, object_update objectId (o_x obj') (o_y obj') (o_ownerId obj')) ])
  end.

(** [socket.on("object_move", ...)] *)
Definition on_object_move (sid : string) (objectId : string) (x y : Js.value)
  (st : State) : State * list Emission :=
  match JsMap.get objectId (objects st) with
  | None => (st, [])
  | Some obj =>
      if negb (owner_is (o_ownerId obj) sid)
      then (st, [ (socket_emit sid, object_reject objectId reason_not_owner) ])
      else
        let obj' := set_position obj x y in
        (mkState (users st) (JsMap.set objectId obj' (objects st)),
         [ (io_emit, object_update objectId (o_x obj') (o_y obj') (o_ownerId obj')) ])
  end.

(** [socket.on("drop", ...)] *)
Definition on_drop (sid : string) (objectId : string) (x y : Js.value)
  (st : State) : State * list Emission :=
  match JsMap.get objectId (objects st) with
  | None => (st, [])
  | Some obj =>
      if negb (owner_is (o_ownerId obj) sid) then (st, [])
      else
        let obj' := set_ownerId (set_position obj x y) None in
        (mkState (users st) (JsMap.set objectId obj' (objects st)),
         [ (io_emit, object_update objectId (o_x obj') (o_y obj') (o_ownerId obj')) ])
  end.

(** The [objects.forEach] of the disconnect handler: every object is visited
    in map order; one owned by [sid] is released in place and announced. *)
Fixpoint release_owned (sid : string) (objs : JsMap.t SharedObject)
  : JsMap.t SharedObject * list Emission :=
  match objs with
  | [] => ([], [])
  | (k, obj) :: rest =>
      let (rest', out) := release_owned sid rest in
      if owner_is (o_ownerId obj) sid
      then ((k, set_ownerId obj None) :: rest',
            (io_emit, object_update (o_id obj) (o_x obj) (o_y obj) None) :: out)
      else ((k, obj) :: rest', out)
  end.

(** [socket.on("disconnect", ...)] *)
Definition on_disconnect (sid : string) (st : State) : State * list Emission :=
  let us' := JsMap.delete sid (users st) in
  let (objs', out) := release_owned sid (objects st) in
  (mkState us' objs', out ++ [ (socket_broadcast_emit sid, user_left sid) ]).

(** [app.post("/reset", ...)] *)
Definition post_reset (st : State) : State * list Emission :=
  let objs' := map (fun p => (fst p, set_ownerId (snd p) None)) (objects st) in
  (mkState (users st) objs', [ (io_emit, init_objects (getObjectState objs')) ]).

(** What the server reacts to. *)
Inductive Event : Type :=
| connection (sid : string) (idx : nat) (now : Z)
| join (sid : string) (name : Js.value)
| cursor_move (sid : string) (data : CursorMoveData) (now : Z)
| pickup (sid : string) (objectId : string)
| object_move (sid : string) (objectId : string) (x y : Js.value)
| drop (sid : string) (objectId : string) (x y : Js.value)
| disconnect (sid : string)
| reset.

Definition step (st : State) (e : Event) : State * list Emission :=
  match e with
  | connection sid idx now => on_connection sid idx now st
  | join sid name => on_join sid name st
  | cursor_move sid data now => on_cursor_move sid data now st
  | pickup sid objectId => on_pickup sid objectId st
  | object_move sid objectId x y => on_object_move sid objectId x y st
  | drop sid objectId x y => on_drop sid objectId x y st
  | disconnect sid => on_disconnect sid st
  | reset => post_reset st
  end.

(** What socket.io can deliver in a state: a connection brings a fresh,
    non-empty socket id; the handlers of a socket run only between its
    connection and its disconnect. *)
Definition admissible (st : State) (e : Event) : bool :=
  match e with
  | connection sid _ _ => negb (sid =? "") && negb (JsMap.has sid (users st))
  | join sid _ | cursor_move sid _ _ | pickup sid _
  | object_move sid _ _ _ | drop sid _ _ _ | disconnect sid =>
      JsMap.has sid (users st)
  | reset => true
  end.

(** Run a trace from [st]; [None] when socket.io could not have delivered it. *)
Fixpoint run (st : State) (tr : list Event) : option (State * list Emission) :=
  match tr with
  | [] => Some (st, [])
  | e :: tr' =>
      if admissible st e then
        let (st1, out1) := step st e in
        match run st1 tr' with
        | Some (st2, out2) => Some (st2, out1 ++ out2)
        | None => None
        end
      else None
  end.

Definition exec (tr : list Event) : option State :=
  match run initial_state tr with
  | Some (st, _) => Some st
  | None => None
  end.

(** *** Vocabulary of the statements below *)

(** What every state reached through socket.io satisfies: live socket ids are
    pairwise distinct and non-empty, and an owner is a live socket. *)
Record Inv (st : State) : Prop := mkInv {
  inv_nodup : NoDup (connected st);
  inv_nonempty : forall c, In c (connected st) -> c <> "";
  inv_owner : forall k o c,
      In (k, o) (objects st) -> o_ownerId o = Some c -> In c (connected st)
}.

(** The effect of the disconnect handler's loop body on one object. *)
Definition released (sid : string) (o : SharedObject) : SharedObject :=
  if owner_is (o_ownerId o) sid then set_ownerId o None else o.

(** Connection [c] owns the object stored under [k]. *)
Definition owns (st : State) (c k : string) : Prop :=
  exists o, JsMap.get k (objects st) = Some o /\ o_ownerId o = Some c.

(** A field holds a number ([typeof v === "number"]). *)
Definition is_number (v : Js.value) : Prop := exists n, v = Js.Number n.

(** A field holds a number outside the rectangle side [0 .. 10000]. *)
Definition out_of_bounds (v : Js.value) : Prop :=
  exists n, v = Js.Number n /\ ((0 <=? n) && (n <=? 10000))%float = false.

(** [needle] occurs in [s]. *)
Definition contains (needle s : string) : bool :=
  match index 0 needle s with Some _ => true | None => false end.

(** *** The introspection endpoint *)

(** Body of the [GET /stats] response. *)
Record Stats : Type := mkStats {
  connectedUsers : nat;
  totalObjects : nat;
  usersList : list (string * Js.value * (Js.value * Js.value));
  objectsList : list (string * (Js.value * Js.value) * option string)
}.

(** [app.get("/stats", ...)]: reads both maps, changes nothing. *)
Definition get_stats (st : State) : Stats :=
  mkStats (length (users st)) (length (objects st))
    (map (fun u => (u_id u, u_name u, (u_x u, u_y u))) (JsMap.values (users st)))
    (map (fun obj => (o_id obj, (o_x obj, o_y obj), o_ownerId obj))
         (JsMap.values (objects st))).

(** *** Further vocabulary *)

(** A field holds a number inside [0 .. 10000]. *)
Definition in_bounds (v : Js.value) : Prop :=
  exists n, v = Js.Number n /\ ((0 <=? n) && (n <=? 10000))%float = true.

(** What no handler assigns: the id, size and colour of an object. *)
Definition fixed_part (o : SharedObject) : string * Z * Z * string :=
  (o_id o, o_width o, o_height o, o_color o).

(** The socket an event comes from; [reset] is an HTTP request. *)
Definition sender (e : Event) : option string :=
  match e with
  | connection sid _ _ | join sid _ | cursor_move sid _ _ | pickup sid _
  | object_move sid _ _ _ | drop sid _ _ _ | disconnect sid => Some sid
  | reset => None
  end.

(** What every reachable state keeps besides [Inv]: the objects are those of
    [initializeObjects], in their order, each with its id, size and colour;
    each user is stored under its socket id, at a position that is a number
    inside the rectangle. *)
Record Shape (st : State) : Prop := mkShape {
  shape_objects :
    map (fun p => (fst p, fixed_part (snd p))) (objects st) =
    map (fun p => (fst p, fixed_part (snd p))) initializeObjects;
  shape_users : forall k u,
      In (k, u) (users st) ->
      u_id u = k /\ in_bounds (u_x u) /\ in_bounds (u_y u)
}.

End Server.

(** ** Client utilities: [frontend/utils/math.ts] *)

Module MathUtils.

(** [throttle(func, limit)] returns a closure over [let lastCall = 0].  The
    closure's state is [lastCall]; [func] acts on the surrounding world [W].
    [now] is the closure's reading of [Date.now()]. *)
Section Throttle.
Context {Args W : Type}.
Variable func : Args -> W -> W.
Variable limit : Z.

Definition throttle_init : Z := 0%Z.

Definition throttled (now : Z) (args : Args) (s : Z * W) : Z * W :=
  let (lastCall, w) := s in
  if (limit <=? now - lastCall)%Z then (now, func args w) else (lastCall, w).

(** Successive calls of the closure, each with its clock reading. *)
Fixpoint throttled_calls (calls : list (Z * Args)) (s : Z * W) : Z * W :=
  match calls with
  | [] => s
  | (now, args) :: rest => throttled_calls rest (throttled now args s)
  end.

End Throttle.

(** [lerp(start, end, t)] on numbers as the code runs them. *)
Definition lerp (start end_ t : float) : float :=
  let clampedT := Js.Math_max 0 (Js.Math_min 1 t) in
  (start + (end_ - start) * clampedT)%float.

(** [clamp(value, min, max)] *)
Definition clamp (value min max : float) : float :=
  Js.Math_max min (Js.Math_min max value).

End MathUtils.

(** ** Client cursor layer: [frontend/components/CursorLayer.tsx] *)

Module CursorLayer.

Record RemoteCursor : Type := mkCursor {
  id : string;
  name : Js.value;
  color : string;
  x : float;
  y : float;
  targetX : float;
  targetY : float;
  prevX : float;
  prevY : float;
  lastUpdateTime : float
}.

Definition INTERPOLATION_DURATION : float := 50.

(** *** Throttled sending of the local cursor *)

(** The [cursor_move] payload built by the client. *)
Record CursorMoveOut : Type := mkMoveOut {
  out_x : Z;
  out_y : Z;
  out_ts : Z;
  out_seq : Z
}.

(** What the send function touches: the socket prop ([false] is [null]),
    [sequenceRef.current] and the messages emitted so far. *)
Record Sender : Type := mkSender {
  socket : bool;
  sequence : Z;
  emitted : list CursorMoveOut
}.

(** Arguments of one call: the mouse position, and the reading of
    [Date.now()] taken inside the function for [ts]. *)
Record SendArgs : Type := mkSendArgs {
  arg_x : Q;
  arg_y : Q;
  arg_ts : Z
}.

(** The function wrapped by [throttle]: emits [cursor_move] unless the socket
    is [null]; [sequenceRef.current++] yields the old value. *)
Definition sendCursor (a : SendArgs) (w : Sender) : Sender :=
  if negb (socket w) then w
  else
    mkSender (socket w) (sequence w + 1)
      (emitted w ++
         [ mkMoveOut (Js.Math_round (arg_x a)) (Js.Math_round (arg_y a))
                     (arg_ts a) (sequence w) ]).

(** [throttledSendCursor = throttle(sendCursor, 50)] *)
Definition throttledSendCursor : Z -> SendArgs -> Z * Sender -> Z * Sender :=
  MathUtils.throttled sendCursor 50.

Definition throttledSendCursor_calls
  : list (Z * SendArgs) -> Z * Sender -> Z * Sender :=
  MathUtils.throttled_calls sendCursor 50.

(** *** Receiving remote positions *)

(** A user as [init] lists it and as [user_joined] announces it. *)
Record UserData : Type := mkUserData {
  ud_id : string;
  ud_name : Js.value;
  ud_x : float;
  ud_y : float;
  ud_color : string
}.

(** The cursor both handlers store for an announced user: displayed, prior
    and target positions are the announced one, the start time is the
    reading of [Date.now()]. *)
Definition cursor_of_user (now : float) (user : UserData) : RemoteCursor :=
  mkCursor (ud_id user) (ud_name user) (ud_color user)
           (ud_x user) (ud_y user)
           (ud_x user) (ud_y user)
           (ud_x user) (ud_y user)
           now.

(** [socket.on("init", ...)]: [cursors.clear()], then one [set] per user. *)
Definition on_init (now : float) (us : list UserData) : JsMap.t RemoteCursor :=
  fold_left (fun cursors user => JsMap.set (ud_id user) (cursor_of_user now user) cursors)
            us [].

(** [socket.on("user_joined", ...)] *)
Definition on_user_joined (now : float) (data : UserData)
  (cursors : JsMap.t RemoteCursor) : JsMap.t RemoteCursor :=
  JsMap.set (ud_id data) (cursor_of_user now data) cursors.

(** [socket.on("user_left", ...)] *)
Definition on_user_left (left : string) (cursors : JsMap.t RemoteCursor)
  : JsMap.t RemoteCursor :=
  JsMap.delete left cursors.

(** Payload of [cursor_update] as the handler destructures it. *)
Record CursorUpdateData : Type := mkUpdate {
  d_id : string;
  d_x : float;
  d_y : float;
  d_name : Js.value;
  d_color : string;
  d_ts : float
}.

(** [ts || Date.now()] *)
Definition ts_or_now (ts now : float) : float :=
  if Js.number_truthy ts then ts else now.

(** [socket.on("cursor_update", ...)] on [remoteCursorsRef.current]; [now]
    is the reading of [Date.now()]. *)
Definition on_cursor_update (now : float) (data : CursorUpdateData)
  (cursors : JsMap.t RemoteCursor) : JsMap.t RemoteCursor :=
  match JsMap.get (d_id data) cursors with
  | Some existing =>
      JsMap.set (d_id data)
        (mkCursor (id existing) (name existing) (color existing)
                  (x existing) (y existing)
                  (d_x data) (d_y data)
                  (x existing) (y existing)
                  (ts_or_now (d_ts data) now))
        cursors
  | None =>
      JsMap.set (d_id data)
        (mkCursor (d_id data) (d_name data) (d_color data)
                  (d_x data) (d_y data)
                  (d_x data) (d_y data)
                  (d_x data) (d_y data)
                  (ts_or_now (d_ts data) now))
        cursors
  end.

(** *** Animation *)

(** The body of [cursors.forEach] in [animate], without the drawing. *)
Definition animate_cursor (now : float) (cursor : RemoteCursor) : RemoteCursor :=
  let elapsed := (now - lastUpdateTime cursor)%float in
  let progress := Js.Math_min (elapsed / INTERPOLATION_DURATION)%float 1 in
  mkCursor (id cursor) (name cursor) (color cursor)
           (MathUtils.lerp (prevX cursor) (targetX cursor) progress)
           (MathUtils.lerp (prevY cursor) (targetY cursor) progress)
           (targetX cursor) (targetY cursor)
           (prevX cursor) (prevY cursor)
           (lastUpdateTime cursor).

Definition animate (now : float) (cursors : JsMap.t RemoteCursor)
  : JsMap.t RemoteCursor :=
  map (fun p => (fst p, animate_cursor now (snd p))) cursors.

(** *** Vocabulary of the statements below *)

(** Consecutive entries of [l] are at least [d] apart. *)
Fixpoint spaced (d : Z) (l : list Z) : Prop :=
  match l with
  | a :: rest =>
      match rest with
      | b :: _ => (d <= b - a)%Z /\ spaced d rest
      | [] => True
      end
  | [] => True
  end.

End CursorLayer.

(** ** Client object layer: [frontend/components/ObjectLayer.tsx] *)

Module ObjectLayer.

(** An object as the client holds it.  Positions arrive from the server as
    they are and are overwritten with numbers while dragging. *)
Record DraggableObject : Type := mkDraggable {
  id : string;
  x : Js.value;
  y : Js.value;
  width : float;
  height : float;
  ownerId : option string;
  color : string
}.

(** [dragStateRef.current] *)
Record DragState : Type := mkDrag {
  draggingId : option string;
  dragOffset : float * float
}.

(** What the handlers read and write: the [objects] state, the drag ref, the
    [draggingId] state kept for the UI, and [lastEmitRef.current].  The refs
    that mirror the state are taken to be in step with it. *)
Record Layer : Type := mkLayer {
  objects : JsMap.t DraggableObject;
  dragState : DragState;
  uiDraggingId : option string;
  lastEmit : Z
}.

(** What a handler reads from its surroundings: the [userId] and [socket]
    props ([false] is [null]) and the window size. *)
Record Env : Type := mkEnv {
  userId : string;
  socket : bool;
  innerWidth : float;
  innerHeight : float
}.

(** What the layer sends to the server. *)
Inductive Emit : Type :=
| emit_pickup (objectId : string)
| emit_object_move (objectId : string) (x y : float)
| emit_drop (objectId : string) (x y : Js.value).

Definition EMIT_THROTTLE : Z := 30.

(** [!draggingId] is false: the id is neither [null] nor empty. *)
Definition dragging (d : DragState) : option string :=
  match draggingId d with
  | Some i => if i =? "" then None else Some i
  | None => None
  end.

(** [obj.ownerId && obj.ownerId !== userId] *)
Definition owned_by_other (owner : option string) (user : string) : bool :=
  match owner with
  | Some c => negb (c =? "") && negb (c =? user)
  | None => false
  end.

(** [obj.ownerId !== userId] *)
Definition not_owner (owner : option string) (user : string) : bool :=
  match owner with
  | Some c => negb (c =? user)
  | None => true
  end.

(** [socket.on("init", ...)]: a new map with one [set] per listed object. *)
Definition on_init (objs : list DraggableObject) (l : Layer) : Layer :=
  mkLayer (fold_left (fun m obj => JsMap.set (id obj) obj m) objs [])
          (dragState l) (uiDraggingId l) (lastEmit l).

(** [socket.on("object_update", ...)] *)
Definition on_object_update (did : string) (dx dy : Js.value)
  (downer : option string) (l : Layer) : Layer :=
  match JsMap.get did (objects l) with
  | Some obj =>
      mkLayer
        (JsMap.set did
           (mkDraggable (id obj) dx dy (width obj) (height obj) downer (color obj))
           (objects l))
        (dragState l) (uiDraggingId l) (lastEmit l)
  | None => l
  end.

(** [socket.on("object_reject", ...)]: only the UI state is cleared. *)
Definition on_object_reject (l : Layer) : Layer :=
  mkLayer (objects l) (dragState l) None (lastEmit l).

(** [handleMouseDown(e, objectId)]; [clientX], [clientY] are the mouse
    position and [left], [top] the corner of the target's bounding rectangle. *)
Definition handleMouseDown (env : Env) (clientX clientY left top : float)
  (objectId : string) (l : Layer) : Layer * list Emit :=
  match JsMap.get objectId (objects l) with
  | None => (l, [])
  | Some obj =>
      if owned_by_other (ownerId obj) (userId env) then (l, [])
      else
        (mkLayer (objects l)
                 (mkDrag (Some objectId)
                         ((clientX - left)%float, (clientY - top)%float))
                 (Some objectId) (lastEmit l),
         if socket env then [ emit_pickup objectId ] else [])
  end.

(** [handleMoveWithRef(e)]; [now] is the reading of [Date.now()]. *)
Definition handleMoveWithRef (env : Env) (now : Z) (clientX clientY : float)
  (l : Layer) : Layer * list Emit :=
  match dragging (dragState l) with
  | None => (l, [])
  | Some did =>
      if negb (socket env) then (l, [])
      else
        match JsMap.get did (objects l) with
        | None => (l, [])
        | Some obj =>
            if not_owner (ownerId obj) (userId env) then (l, [])
            else
              let x := (clientX - fst (dragOffset (dragState l)))%float in
              let y := (clientY - snd (dragOffset (dragState l)))%float in
              let clampedX :=
                Js.Math_max 0 (Js.Math_min x (innerWidth env - width obj)%float) in
              let clampedY :=
                Js.Math_max 0 (Js.Math_min y (innerHeight env - height obj)%float) in
              let moved :=
                JsMap.set did
                  (mkDraggable (id obj) (Js.Number clampedX) (Js.Number clampedY)
                               (width obj) (height obj) (ownerId obj) (color obj))
                  (objects l) in
              if (EMIT_THROTTLE <=? now - lastEmit l)%Z
              then (mkLayer moved (dragState l) (uiDraggingId l) now,
                    [ emit_object_move did clampedX clampedY ])
              else (mkLayer moved (dragState l) (uiDraggingId l) (lastEmit l), [])
        end
  end.

(** [handleUpWithRef()] *)
Definition handleUpWithRef (env : Env) (l : Layer) : Layer * list Emit :=
  match dragging (dragState l) with
  | None => (l, [])
  | Some did =>
      if negb (socket env) then (l, [])
      else
        match JsMap.get did (objects l) with
        | None => (l, [])
        | Some obj =>
            (mkLayer (objects l) (mkDrag None (dragOffset (dragState l)))
                     None (lastEmit l),
             [ emit_drop did (x obj) (y obj) ])
        end
  end.

(** A payload value after the JSON encoding that socket.io applies to what
    is emitted: [NaN] and the infinities arrive as [null] and [-0] as [0];
    every other value arrives as it was sent. *)
Definition wire (v : Js.value) : Js.value :=
  match v with
  | Js.Number n =>
      match Prim2SF n with
      | S754_nan | S754_infinity _ => Js.Null
      | S754_zero _ => Js.Number 0
      | S754_finite _ _ _ => Js.Number n
      end
  | _ => v
  end.

(** The request a client emission is on the server, coming from [sid]. *)
Definition as_event (sid : string) (m : Emit) : Server.Event :=
  match m with
  | emit_pickup objectId => Server.pickup sid objectId
  | emit_object_move objectId mx my =>
      Server.object_move sid objectId (wire (Js.Number mx)) (wire (Js.Number my))
  | emit_drop objectId dx dy => Server.drop sid objectId (wire dx) (wire dy)
  end.


(** The number an integer of the server model arrives as. *)
Definition number_of_Z (z : Z) : float :=
  SF2Prim (binary_normalize prec emax z 0 false).

(** An entry of the [objects] list of [init] as the client stores it. *)
Definition of_server (o : Server.SharedObject) : DraggableObject :=
  mkDraggable (Server.o_id o) (Server.o_x o) (Server.o_y o)
              (number_of_Z (Server.o_width o)) (number_of_Z (Server.o_height o))
              (Server.o_ownerId o) (Server.o_color o).

(** The layer's listener for one server message.  The layer has no listener
    for the cursor and presence events.  The [init] of a reset carries no
    users list: the cursor layer's [init] listener, registered before this
    one on the same socket, throws on it, and this listener is not reached. *)
Definition handle (m : Server.Msg) (l : Layer) : Layer :=
  match m with
  | Server.object_update did ux uy uowner => on_object_update did ux uy uowner l
  | Server.object_reject _ _ => on_object_reject l
  | Server.init _ _ objs _ => on_init (map of_server objs) l
  | Server.init_objects _
  | Server.user_joined _ _ _ _ _ | Server.cursor_update _ _ _ _ _ _ _
  | Server.user_left _ => l
  end.

(** A server message as it arrives: the numbers it carries are JSON-encoded
    like those of a request. *)
Definition delivered (m : Server.Msg) : Server.Msg :=
  match m with
  | Server.init uid us objs c =>
      Server.init uid
        (map (fun u => Server.mkUser (Server.u_id u) (wire (Server.u_name u))
                         (wire (Server.u_x u)) (wire (Server.u_y u))
                         (Server.u_color u) (Server.u_lastUpdate u)) us)
        (map (fun o => Server.set_position o (wire (Server.o_x o))
                                           (wire (Server.o_y o))) objs)
        c
  | Server.init_objects objs =>
      Server.init_objects
        (map (fun o => Server.set_position o (wire (Server.o_x o))
                                           (wire (Server.o_y o))) objs)
  | Server.user_joined uid name ux uy c =>
      Server.user_joined uid (wire name) (wire ux) (wire uy) c
  | Server.cursor_update uid ux uy ts seq name c =>
      Server.cursor_update uid (wire ux) (wire uy) (wire ts) (wire seq)
                           (wire name) c
  | Server.object_update did ux uy uowner =>
      Server.object_update did (wire ux) (wire uy) uowner
  | Server.object_reject _ _ | Server.user_left _ => m
  end.

(** One client and the server, with the messages in flight between them:
    [up] are the client's emissions the server has not handled yet, [down]
    the server's messages the client has not handled yet, both oldest first;
    [sent] is everything the client has emitted.  The requests of other
    clients are not part of it. *)
Record Net : Type := mkNet {
  server : Server.State;
  layer : Layer;
  up : list Emit;
  down : list Server.Msg;
  sent : list Emit
}.

(** What can happen next: a mouse event on the client, the server handling
    the oldest request in flight, or the client handling the oldest message
    in flight.  A handler runs to completion; nothing orders a mouse event
    and the arrival of a message. *)
Inductive Action : Type :=
| mouse_down (clientX clientY left top : float) (objectId : string)
| mouse_move (now : Z) (clientX clientY : float)
| mouse_up
| serve
| deliver.

(** A mouse handler runs: what it emits is in flight to the server. *)
Definition client (handler : Layer -> Layer * list Emit) (n : Net) : Net :=
  let (l', outs) := handler (layer n) in
  mkNet (server n) l' (up n ++ outs) (down n) (sent n ++ outs).

Definition act (env : Env) (a : Action) (n : Net) : Net :=
  match a with
  | mouse_down cx cy rx ry objectId =>
      client (handleMouseDown env cx cy rx ry objectId) n
  | mouse_move now cx cy => client (handleMoveWithRef env now cx cy) n
  | mouse_up => client (handleUpWithRef env) n
  | serve =>
      match up n with
      | [] => n
      | m :: rest =>
          let (st', ems) := Server.step (server n) (as_event (userId env) m) in
          mkNet st' (layer n) rest
                (down n ++
                 map (fun em => delivered (snd em))
                   (filter (fun em =>
                              Server.receives (Server.connected st') (fst em)
                                              (userId env))
                           ems))
                (sent n)
      end
  | deliver =>
      match down n with
      | [] => n
      | m :: rest =>
          mkNet (server n) (handle m (layer n)) (up n) rest (sent n)
      end
  end.

(** A schedule: the actions in the order they happen. *)
Definition play (env : Env) (schedule : list Action) (n : Net) : Net :=
  fold_left (fun n a => act env a n) schedule n.

(** The mouse events of a schedule, in order. *)
Definition mouse_events (schedule : list Action) : list Action :=
  filter (fun a => match a with serve | deliver => false | _ => true end)
         schedule.

(** Nothing in flight. *)
Definition idle (st : Server.State) (l : Layer) : Net := mkNet st l [] [] [].

End ObjectLayer.

(** ** Sample inputs used to exercise the statements *)

Module Samples.
Import Server.

Definition sockA : string := "A1b2C3d4E5f6G7h8I9j0".
Definition sockB : string := "B1b2C3d4E5f6G7h8I9j0".

(** A and B connect; A picks up obj-1. *)
Definition trace_A_owns_obj1 : list Event :=
  [ connection sockA 0 1000; connection sockB 1 1001; pickup sockA "obj-1" ].

Definition state_A_owns_obj1 : State :=
  mkState
    [ (sockA, mkUser sockA (Js.Str "User A1b2C") (Js.Number 0) (Js.Number 0) "#FF6B6B" 1000);
      (sockB, mkUser sockB (Js.Str "User B1b2C") (Js.Number 0) (Js.Number 0) "#4ECDC4" 1001) ]
    [ ("obj-1", mkObject "obj-1" (Js.Number 200) (Js.Number 200) 40 40 (Some sockA) "#FF6B6B");
      ("obj-2", mkObject "obj-2" (Js.Number 500) (Js.Number 300) 40 40 None "#4ECDC4");
      ("obj-3", mkObject "obj-3" (Js.Number 800) (Js.Number 150) 40 40 None "#45B7D1") ].

Definition valid_move : CursorMoveData :=
  mkCursorMove (Js.Number 100) (Js.Number 200) (Js.Number 1692518400) (Js.Number 1).

Definition sender0 : CursorLayer.Sender := CursorLayer.mkSender true 0 [].

Definition mouse (px py : Q) (ts : Z) : CursorLayer.SendArgs :=
  CursorLayer.mkSendArgs px py ts.

(** A remote cursor displayed at (120, 80) on its way from (100, 80) to
    (150, 80). *)
Definition cursor_B : CursorLayer.RemoteCursor :=
  CursorLayer.mkCursor sockB (Js.Str "User B1b2C") "#4ECDC4"
    120 80 150 80 100 80 1692518400000.

(** B as announced by [user_joined], before any position delta. *)
Definition joined_B : CursorLayer.UserData :=
  CursorLayer.mkUserData sockB (Js.Str "User B1b2C") 0 0 "#4ECDC4".

(** A position delta for B stamped by B's clock. *)
Definition update_B : CursorLayer.CursorUpdateData :=
  CursorLayer.mkUpdate sockB 300 90 (Js.Str "User B1b2C") "#4ECDC4" 1692518400050.

(** The client view matching [state_A_owns_obj1], for user B, idle. *)
Definition layer_B : ObjectLayer.Layer :=
  ObjectLayer.mkLayer
    [ ("obj-1", ObjectLayer.mkDraggable "obj-1" (Js.Number 200) (Js.Number 200)
                  40 40 (Some sockA) "#FF6B6B");
      ("obj-2", ObjectLayer.mkDraggable "obj-2" (Js.Number 500) (Js.Number 300)
                  40 40 None "#4ECDC4");
      ("obj-3", ObjectLayer.mkDraggable "obj-3" (Js.Number 800) (Js.Number 150)
                  40 40 None "#45B7D1") ]
    (ObjectLayer.mkDrag None (0%float, 0%float)) None 0.

(** The same view for user A while it drags obj-1, grabbed at (5, 5). *)
Definition layer_A_dragging : ObjectLayer.Layer :=
  ObjectLayer.mkLayer (ObjectLayer.objects layer_B)
    (ObjectLayer.mkDrag (Some "obj-1") (5%float, 5%float)) (Some "obj-1") 1000.

Definition env_A : ObjectLayer.Env := ObjectLayer.mkEnv sockA true 1280 720.
Definition env_B : ObjectLayer.Env := ObjectLayer.mkEnv sockB true 1280 720.

End Samples.

(** * Properties *)

(** ** Facts about [JsMap] *)

Module JsMapFacts.
Import JsMap.

Section Facts.
Context {V : Type}.
Implicit Types (k : string) (v : V) (m : JsMap.t V).

Lemma get_set_same k v m : get k (set k v m) = Some v.
Proof.
  induction m as [|[k' v'] m IH]; simpl.
  - now rewrite String.eqb_refl.
  - destruct (String.eqb_spec k' k) as [->|Hne]; simpl.
    + now rewrite String.eqb_refl.
    + apply String.eqb_neq in Hne. now rewrite Hne.
Qed.

Lemma get_set_other k k0 v m : k <> k0 -> get k0 (set k v m) = get k0 m.
Proof.
  intros Hne. induction m as [|[k' v'] m IH]; simpl.
  - apply String.eqb_neq in Hne. now rewrite Hne.
  - destruct (String.eqb_spec k' k) as [->|Hk]; simpl.
    + apply String.eqb_neq in Hne. now rewrite Hne.
    + now rewrite IH.
Qed.

Lemma get_In k v m : get k m = Some v -> In (k, v) m.
Proof.
  induction m as [|[k' v'] m IH]; simpl; [discriminate|].
  destruct (String.eqb_spec k' k) as [->|Hk]; intros H.
  - injection H as ->. now left.
  - right. auto.
Qed.

Lemma in_keys_has k m : In k (keys m) <-> has k m = true.
Proof.
  unfold has, keys. induction m as [|[k' v'] m IH]; simpl.
  - split; [tauto | discriminate].
  - destruct (String.eqb_spec k' k) as [->|Hk].
    + split; auto.
    + rewrite <- IH. split; [intros [?|?]; [contradiction | assumption] | auto].
Qed.

Lemma has_get k m : has k m = true -> exists v, get k m = Some v.
Proof. unfold has. destruct (get k m) as [v|]; [eauto | discriminate]. Qed.

Lemma get_has k v m : get k m = Some v -> has k m = true.
Proof. unfold has. now intros ->. Qed.

Lemma keys_set_present k v m : has k m = true -> keys (set k v m) = keys m.
Proof.
  unfold has, keys. induction m as [|[k' v'] m IH]; simpl; [discriminate|].
  destruct (String.eqb_spec k' k) as [->|Hk]; simpl; intros H.
  - reflexivity.
  - f_equal. auto.
Qed.

Lemma keys_set_absent k v m : has k m = false -> keys (set k v m) = keys m ++ [k].
Proof.
  unfold has, keys. induction m as [|[k' v'] m IH]; simpl; [reflexivity|].
  destruct (String.eqb_spec k' k) as [->|Hk]; simpl; intros H.
  - discriminate.
  - f_equal. auto.
Qed.

Lemma In_set k v k0 v0 m :
  In (k0, v0) (set k v m) -> (k0 = k /\ v0 = v) \/ In (k0, v0) m.
Proof.
  induction m as [|[k' v'] m IH]; simpl.
  - intros [H|[]]. injection H as <- <-. now left.
  - destruct (String.eqb_spec k' k) as [->|Hk]; simpl.
    + intros [H|H]; [injection H as <- <-; now left | right; now right].
    + intros [H|H]; [right; now left |].
      destruct (IH H) as [?|?]; [now left | right; now right].
Qed.

Lemma set_same k v m : get k m = Some v -> set k v m = m.
Proof.
  induction m as [|[k' v'] m IH]; simpl; [discriminate|].
  destruct (String.eqb_spec k' k) as [->|Hk]; intros H.
  - now injection H as ->.
  - f_equal. auto.
Qed.

Lemma get_delete_same k m : NoDup (keys m) -> get k (delete k m) = None.
Proof.
  unfold keys. induction m as [|[k' v'] m IH]; simpl; [reflexivity|].
  intros Hnd. inversion Hnd as [|? ? Hnotin Hnd']; subst.
  destruct (String.eqb_spec k' k) as [->|Hk]; simpl.
  - destruct (get k m) as [v|] eqn:E; [|reflexivity].
    exfalso. apply Hnotin.
    apply get_In in E. now apply (in_map fst) in E.
  - apply String.eqb_neq in Hk. rewrite Hk. auto.
Qed.

Lemma get_delete_other k k0 m : k <> k0 -> get k0 (delete k m) = get k0 m.
Proof.
  intros Hne. induction m as [|[k' v'] m IH]; simpl; [reflexivity|].
  destruct (String.eqb_spec k' k) as [->|Hk]; simpl.
  - apply String.eqb_neq in Hne. now rewrite Hne.
  - now rewrite IH.
Qed.

Lemma In_delete k p m : In p (delete k m) -> In p m.
Proof.
  induction m as [|[k' v'] m IH]; simpl; [tauto|].
  destruct (k' =? k); simpl; [now right|].
  intros [H|H]; [now left | right; auto].
Qed.

Lemma NoDup_keys_delete k m : NoDup (keys m) -> NoDup (keys (delete k m)).
Proof.
  unfold keys. induction m as [|[k' v'] m IH]; simpl; [auto|].
  intros Hnd. inversion Hnd as [|? ? Hnotin Hnd']; subst.
  destruct (k' =? k); simpl; [assumption|].
  constructor; [|auto].
  intros Hin. apply Hnotin.
  apply in_map_iff in Hin as [p [Hp Hin]].
  apply In_delete in Hin. rewrite <- Hp. now apply in_map.
Qed.

Lemma count_NoDup k m : NoDup (keys m) -> In k (keys m) -> count k m = 1%nat.
Proof.
  unfold keys, count. induction m as [|[k' v'] m IH]; simpl; [tauto|].
  intros Hnd Hin. inversion Hnd as [|? ? Hnotin Hnd']; subst.
  destruct (String.eqb_spec k' k) as [->|Hk]; simpl.
  - f_equal. apply length_zero_iff_nil.
    destruct (filter _ m) as [|p l] eqn:E; [reflexivity|].
    exfalso. apply Hnotin.
    assert (Hp : In p (filter (fun p => fst p =? k) m)) by (rewrite E; now left).
    apply filter_In in Hp as [Hp Hk]. apply String.eqb_eq in Hk.
    rewrite <- Hk. now apply in_map.
  - destruct Hin as [?|Hin]; [contradiction | auto].
Qed.

(** Updating every stored value in place. *)
Lemma get_map_values (f : V -> V) k m :
  get k (map (fun p => (fst p, f (snd p))) m) = option_map f (get k m).
Proof.
  induction m as [|[k' v'] m IH]; simpl; [reflexivity|].
  destruct (k' =? k); simpl; auto.
Qed.

End Facts.

End JsMapFacts.

(** ** The server *)

Module ServerFacts.
Import Server JsMap JsMapFacts.

Ltac str_eq :=
  repeat match goal with
  | H : (_ =? _) = true |- _ => apply String.eqb_eq in H
  | H : (_ =? _) = false |- _ => apply String.eqb_neq in H
  | H : negb _ = true |- _ => apply negb_true_iff in H
  | H : negb _ = false |- _ => apply negb_false_iff in H
  | H : _ && _ = true |- _ => apply andb_true_iff in H as [? ?]
  end.

Lemma release_owned_objects sid objs :
  fst (release_owned sid objs) = map (fun p => (fst p, released sid (snd p))) objs.
Proof.
  induction objs as [|[k o] objs IH]; simpl; [reflexivity|].
  destruct (release_owned sid objs) as [rest' out]. simpl in IH. subst rest'.
  unfold released. now destruct (owner_is (o_ownerId o) sid).
Qed.

Lemma release_owned_emissions sid objs :
  snd (release_owned sid objs) =
  map (fun o => (io_emit, object_update (o_id o) (o_x o) (o_y o) None))
      (filter (fun o => owner_is (o_ownerId o) sid) (values objs)).
Proof.
  unfold values. induction objs as [|[k o] objs IH]; simpl; [reflexivity|].
  destruct (release_owned sid objs) as [rest' out]. simpl in IH. subst out.
  now destruct (owner_is (o_ownerId o) sid).
Qed.

Lemma on_disconnect_eq sid st :
  on_disconnect sid st =
  (mkState (delete sid (users st))
           (map (fun p => (fst p, released sid (snd p))) (objects st)),
   map (fun o => (io_emit, object_update (o_id o) (o_x o) (o_y o) None))
       (filter (fun o => owner_is (o_ownerId o) sid) (values (objects st)))
   ++ [ (socket_broadcast_emit sid, user_left sid) ]).
Proof.
  unfold on_disconnect.
  rewrite <- release_owned_objects, <- release_owned_emissions.
  now destruct (release_owned sid (objects st)).
Qed.

Lemma released_owner sid o c :
  o_ownerId (released sid o) = Some c -> o_ownerId o = Some c /\ c <> sid.
Proof.
  unfold released. destruct (owner_is (o_ownerId o) sid) eqn:E; simpl.
  - discriminate.
  - intros H. split; [assumption|]. rewrite H in E. simpl in E. now str_eq.
Qed.

Lemma in_keys_delete_other {V} (m : JsMap.t V) k c :
  In c (keys m) -> c <> k -> In c (keys (delete k m)).
Proof.
  intros Hin Hne. apply in_keys_has. apply in_keys_has in Hin.
  unfold has in *. rewrite get_delete_other; auto.
Qed.

Lemma in_keys_delete {V} (m : JsMap.t V) k c :
  In c (keys (delete k m)) -> In c (keys m).
Proof.
  unfold keys. intros Hin. apply in_map_iff in Hin as [p [<- Hin]].
  apply in_map. eapply In_delete; eauto.
Qed.

Lemma Inv_initial : Inv initial_state.
Proof.
  constructor; simpl.
  - constructor.
  - tauto.
  - intros k o c Hin Ho.
    repeat (destruct Hin as [Hin|Hin]; [injection Hin as <- <-; discriminate|]).
    destruct Hin.
Qed.

(** Replacing the record of a live socket keeps the set of live sockets. *)
Lemma Inv_set_user st sid u :
  Inv st -> has sid (users st) = true ->
  Inv (mkState (set sid u (users st)) (objects st)).
Proof.
  intros [Hnd Hne Hown] Hhas. unfold connected in *.
  constructor; unfold connected; simpl; rewrite keys_set_present; auto.
Qed.

(** Updating one object keeps the invariant when its new owner is live. *)
Lemma Inv_set_object st k o :
  Inv st ->
  (forall c, o_ownerId o = Some c -> In c (connected st)) ->
  Inv (mkState (users st) (set k o (objects st))).
Proof.
  intros [Hnd Hne Hown] Ho. constructor; simpl; auto.
  intros k' o' c Hin Hc.
  apply In_set in Hin as [[-> ->]|Hin]; eauto.
Qed.

Lemma Inv_step st e :
  Inv st -> admissible st e = true -> Inv (fst (step st e)).
Proof.
  intros HI Hadm. pose proof HI as [Hnd Hne Hown].
  destruct e as [sid idx now|sid name|sid data now|sid oid|sid oid x y
                |sid oid x y|sid|]; simpl in *.
  - (* connection *)
    str_eq. unfold connected in *.
    constructor; unfold connected; simpl; rewrite keys_set_absent by assumption.
    + apply NoDup_app; [assumption | repeat constructor; simpl; tauto |].
      intros a Hin [<-|[]]. apply in_keys_has in Hin. congruence.
    + intros c Hin. apply in_app_or in Hin as [Hin|[<-|[]]]; auto.
    + intros k o c Hin Ho. apply in_or_app. left. eauto.
  - (* join *)
    unfold on_join. destruct (has_get _ _ Hadm) as [u Hu]. rewrite Hu. simpl.
    now apply Inv_set_user.
  - (* cursor_move *)
    unfold on_cursor_move. destruct (negb (isValidCursorUpdate data)); [assumption|].
    destruct (has_get _ _ Hadm) as [u Hu]. rewrite Hu. simpl.
    now apply Inv_set_user.
  - (* pickup *)
    unfold on_pickup. destruct (get oid (objects st)) as [o|]; [|assumption].
    destruct (owned_by_other (o_ownerId o) sid); [assumption|]. simpl.
    apply Inv_set_object; [assumption|]. simpl. intros c Hc.
    injection Hc as <-. now apply in_keys_has.
  - (* object_move *)
    unfold on_object_move. destruct (get oid (objects st)) as [o|] eqn:Ho; [|assumption].
    destruct (negb (owner_is (o_ownerId o) sid)); [assumption|]. simpl.
    apply Inv_set_object; [assumption|]. simpl. intros c Hc.
    apply get_In in Ho. eauto.
  - (* drop *)
    unfold on_drop. destruct (get oid (objects st)) as [o|] eqn:Ho; [|assumption].
    destruct (negb (owner_is (o_ownerId o) sid)); [assumption|]. simpl.
    apply Inv_set_object; [assumption|]. simpl. discriminate.
  - (* disconnect *)
    rewrite on_disconnect_eq. simpl. unfold connected in *.
    constructor; unfold connected; simpl.
    + now apply NoDup_keys_delete.
    + intros c Hin. apply Hne. eapply in_keys_delete; eauto.
    + intros k o c Hin Ho.
      apply in_map_iff in Hin as [[k0 o0] [Heq Hin]]. simpl in Heq.
      injection Heq as <- <-.
      apply released_owner in Ho as [Ho Hc].
      apply in_keys_delete_other; eauto.
  - (* reset *)
    constructor; simpl; auto.
    intros k o c Hin Ho.
    apply in_map_iff in Hin as [[k0 o0] [Heq Hin]]. simpl in Heq.
    injection Heq as <- <-. discriminate.
Qed.

Lemma Inv_run tr : forall st st' out,
  Inv st -> run st tr = Some (st', out) -> Inv st'.
Proof.
  induction tr as [|e tr IH]; simpl; intros st st' out HI Hrun.
  - now injection Hrun as <- _.
  - destruct (admissible st e) eqn:Hadm; [|discriminate].
    pose proof (Inv_step st e HI Hadm) as HI1.
    destruct (step st e) as [st1 out1]. simpl in HI1.
    destruct (run st1 tr) as [[st2 out2]|] eqn:Hr; [|discriminate].
    injection Hrun as <- _. eauto.
Qed.

Lemma Inv_exec tr st : exec tr = Some st -> Inv st.
Proof.
  unfold exec. destruct (run initial_state tr) as [[st' out]|] eqn:Hr; [|discriminate].
  intros H. injection H as <-. eapply Inv_run; eauto using Inv_initial.
Qed.

(** *** Delivery *)

Lemma existsb_eqb_In c conns : existsb (String.eqb c) conns = true <-> In c conns.
Proof.
  rewrite existsb_exists. split.
  - intros [c' [Hin Heq]]. apply String.eqb_eq in Heq. now subst.
  - intros Hin. exists c. split; [assumption | apply String.eqb_refl].
Qed.

Lemma receives_io_emit conns c : In c conns -> receives conns io_emit c = true.
Proof.
  intros Hin. unfold receives. apply andb_true_iff. split; [|reflexivity].
  now apply existsb_eqb_In.
Qed.

Lemma receives_socket_emit conns sid c :
  In sid conns -> (receives conns (socket_emit sid) c = true <-> c = sid).
Proof.
  intros Hsid. unfold receives. rewrite andb_true_iff, existsb_eqb_In, String.eqb_eq.
  split; [tauto | intros ->; tauto].
Qed.

Lemma receives_broadcast_self conns sid :
  receives conns (socket_broadcast_emit sid) sid = false.
Proof.
  unfold receives. rewrite String.eqb_refl. apply andb_false_r.
Qed.

Lemma receives_broadcast_other conns sid c :
  In c conns -> c <> sid -> receives conns (socket_broadcast_emit sid) c = true.
Proof.
  intros Hin Hne. unfold receives. apply andb_true_iff. split.
  - now apply existsb_eqb_In.
  - apply negb_true_iff. now apply String.eqb_neq.
Qed.

(** *** Ownership *)

Lemma set_ownerId_same o c : o_ownerId o = Some c -> set_ownerId o (Some c) = o.
Proof. destruct o; simpl. now intros ->. Qed.

(** How one admissible event can change the owner of one object. *)
Lemma step_owner st e k o o' :
  Inv st -> admissible st e = true ->
  get k (objects st) = Some o ->
  get k (objects (fst (step st e))) = Some o' ->
  o_ownerId o' = o_ownerId o \/ o_ownerId o' = None \/
  exists sid, e = pickup sid k /\ o_ownerId o = None /\ o_ownerId o' = Some sid.
Proof.
  intros HI Hadm Ho Ho'.
  assert (Hsame : forall st1, objects st1 = objects st ->
            get k (objects st1) = Some o' -> o_ownerId o' = o_ownerId o).
  { intros st1 -> H. congruence. }
  destruct e as [sid idx now|sid name|sid data now|sid oid|sid oid x y
                |sid oid x y|sid|]; cbn [step] in Ho'.
  - left. now apply (Hsame (fst (on_connection sid idx now st))).
  - left. apply (Hsame (fst (on_join sid name st))); [|assumption].
    unfold on_join. now destruct (get sid (users st)).
  - left. apply (Hsame (fst (on_cursor_move sid data now st))); [|assumption].
    unfold on_cursor_move. destruct (negb _); [reflexivity|].
    now destruct (get sid (users st)).
  - (* pickup *)
    unfold on_pickup in Ho'.
    destruct (get oid (objects st)) as [obj|] eqn:Hobj; [|left; eauto].
    destruct (owned_by_other (o_ownerId obj) sid) eqn:Hother; [left; eauto|].
    simpl in Ho'. destruct (String.eqb_spec oid k) as [->|Hk].
    + rewrite get_set_same in Ho'. injection Ho' as <-. simpl.
      assert (obj = o) by congruence. subst obj.
      destruct (o_ownerId o) as [c|] eqn:Hc.
      * left. simpl in Hother. apply andb_false_iff in Hother as [H|H]; str_eq.
        -- exfalso. apply get_In in Ho.
           apply (inv_nonempty st HI c); [|assumption].
           now apply (inv_owner st HI k o c).
        -- now subst.
      * right. right. now exists sid.
    + rewrite get_set_other in Ho' by assumption. left. congruence.
  - (* object_move *)
    unfold on_object_move in Ho'.
    destruct (get oid (objects st)) as [obj|] eqn:Hobj; [|left; eauto].
    destruct (negb (owner_is (o_ownerId obj) sid)); [left; eauto|].
    simpl in Ho'. destruct (String.eqb_spec oid k) as [->|Hk].
    + rewrite get_set_same in Ho'. injection Ho' as <-. simpl. left. congruence.
    + rewrite get_set_other in Ho' by assumption. left. congruence.
  - (* drop *)
    unfold on_drop in Ho'.
    destruct (get oid (objects st)) as [obj|] eqn:Hobj; [|left; eauto].
    destruct (negb (owner_is (o_ownerId obj) sid)); [left; eauto|].
    simpl in Ho'. destruct (String.eqb_spec oid k) as [->|Hk].
    + rewrite get_set_same in Ho'. injection Ho' as <-. simpl. now right; left.
    + rewrite get_set_other in Ho' by assumption. left. congruence.
  - (* disconnect *)
    rewrite on_disconnect_eq in Ho'. simpl in Ho'.
    rewrite get_map_values, Ho in Ho'. simpl in Ho'. injection Ho' as <-.
    unfold released. destruct (owner_is (o_ownerId o) sid); simpl; auto.
  - (* reset *)
    unfold post_reset in Ho'. simpl in Ho'.
    rewrite (get_map_values (fun obj => set_ownerId obj None)), Ho in Ho'.
    simpl in Ho'. injection Ho' as <-.
    simpl. now right; left.
Qed.

(** C1: in every state the server can reach, the [ownerId] of each
    SharedObject is null or the id of exactly one connected user (exactly one
    entry of [users] carries it), so no two connections own the same object;
    and an event changes an [ownerId] only by clearing it, except [pickup],
    which sets it to the requester and only when it was null. *)
Theorem ownership_exclusive tr st :
  exec tr = Some st ->
  (forall k o, get k (objects st) = Some o ->
     o_ownerId o = None \/
     exists c, o_ownerId o = Some c /\ count c (users st) = 1%nat)
  /\ (forall k c1 c2, owns st c1 k -> owns st c2 k -> c1 = c2)
  /\ (forall e k o o',
        admissible st e = true ->
        get k (objects st) = Some o ->
        get k (objects (fst (step st e))) = Some o' ->
        o_ownerId o' = o_ownerId o \/ o_ownerId o' = None \/
        exists sid, e = pickup sid k /\ o_ownerId o = None /\ o_ownerId o' = Some sid).
Proof.
  intros Hexec. apply Inv_exec in Hexec as HI.
  split; [|split].
  - intros k o Ho. destruct (o_ownerId o) as [c|] eqn:Hc; [right | now left].
    exists c. split; [reflexivity|].
    apply count_NoDup; [apply (inv_nodup st HI)|].
    apply (inv_owner st HI k o c); [now apply get_In | assumption].
  - intros k c1 c2 [o1 [Hg1 Ho1]] [o2 [Hg2 Ho2]]. congruence.
  - intros e k o o'. now apply step_owner.
Qed.

Lemma ownership_exclusive_witness :
  exec Samples.trace_A_owns_obj1 = Some Samples.state_A_owns_obj1
  /\ forall k c1 c2,
       owns Samples.state_A_owns_obj1 c1 k ->
       owns Samples.state_A_owns_obj1 c2 k -> c1 = c2.
Proof.
  split; [reflexivity|].
  apply (ownership_exclusive Samples.trace_A_owns_obj1 Samples.state_A_owns_obj1).
  reflexivity.
Defined.

(** *** Arbitration of [pickup] *)

Lemma on_pickup_unknown sid oid st :
  get oid (objects st) = None ->
  on_pickup sid oid st =
  (st, [ (socket_emit sid, object_reject oid reason_not_found) ]).
Proof. unfold on_pickup. now intros ->. Qed.

Lemma on_pickup_granted sid oid st o :
  get oid (objects st) = Some o ->
  owned_by_other (o_ownerId o) sid = false ->
  on_pickup sid oid st =
  (mkState (users st) (set oid (set_ownerId o (Some sid)) (objects st)),
   [ (io_emit, object_update oid (o_x o) (o_y o) (Some sid)) ]).
Proof. unfold on_pickup. now intros -> ->. Qed.

Lemma on_pickup_refused sid oid st o :
  get oid (objects st) = Some o ->
  owned_by_other (o_ownerId o) sid = true ->
  on_pickup sid oid st =
  (st, [ (socket_emit sid, object_reject oid reason_owned) ]).
Proof. unfold on_pickup. now intros -> ->. Qed.

(** C2: a [pickup] of an unknown object answers the requester alone with an
    [object_reject] whose reason says "not found" and changes nothing; on an
    unowned object it sets [ownerId] to the requester and broadcasts the
    [object_update] to every connection, the requester included; on an object
    owned by another connection it answers the requester alone with an
    [object_reject] whose reason says "owned by another user", broadcasts
    nothing and leaves the state as it was. *)
Theorem pickup_arbitration tr st sid oid :
  exec tr = Some st ->
  has sid (users st) = true ->
  (get oid (objects st) = None ->
     on_pickup sid oid st =
     (st, [ (socket_emit sid, object_reject oid reason_not_found) ]))
  /\ (forall o, get oid (objects st) = Some o -> o_ownerId o = None ->
        on_pickup sid oid st =
        (mkState (users st) (set oid (set_ownerId o (Some sid)) (objects st)),
         [ (io_emit, object_update oid (o_x o) (o_y o) (Some sid)) ]))
  /\ (forall o c, get oid (objects st) = Some o -> o_ownerId o = Some c ->
        c <> sid ->
        on_pickup sid oid st =
        (st, [ (socket_emit sid, object_reject oid reason_owned) ]))
  /\ (forall c, receives (connected st) (socket_emit sid) c = true <-> c = sid)
  /\ (forall c, In c (connected st) -> receives (connected st) io_emit c = true)
  /\ contains "not found" reason_not_found = true
  /\ contains "owned by another user" reason_owned = true.
Proof.
  intros Hexec Hsid. apply Inv_exec in Hexec as HI.
  assert (Hlive : In sid (connected st)) by now apply in_keys_has.
  repeat split.
  - apply on_pickup_unknown.
  - intros o Ho Hnull. apply on_pickup_granted; [assumption|].
    now rewrite Hnull.
  - intros o c Ho Hc Hne. apply (on_pickup_refused sid oid st o); [assumption|].
    rewrite Hc. simpl. apply andb_true_iff. split; apply negb_true_iff.
    + apply String.eqb_neq. apply (inv_nonempty st HI).
      apply (inv_owner st HI oid o c); [now apply get_In | assumption].
    + now apply String.eqb_neq.
  - now apply receives_socket_emit.
  - now apply receives_socket_emit.
  - apply receives_io_emit.
Qed.

Lemma pickup_arbitration_witness :
  exec Samples.trace_A_owns_obj1 = Some Samples.state_A_owns_obj1
  /\ has Samples.sockB (users Samples.state_A_owns_obj1) = true
  /\ on_pickup Samples.sockB "obj-1" Samples.state_A_owns_obj1 =
     (Samples.state_A_owns_obj1,
      [ (socket_emit Samples.sockB, object_reject "obj-1" reason_owned) ]).
Proof.
  split; [reflexivity | split; [reflexivity|]].
  destruct (pickup_arbitration Samples.trace_A_owns_obj1
              Samples.state_A_owns_obj1 Samples.sockB "obj-1"
              eq_refl eq_refl) as (_ & _ & Hother & _).
  apply (Hother (mkObject "obj-1" (Js.Number 200) (Js.Number 200) 40 40
                          (Some Samples.sockA) "#FF6B6B") Samples.sockA).
  - reflexivity.
  - reflexivity.
  - discriminate.
Defined.

(** C10 as the code has it: a [pickup] by the connection that already owns
    the object is granted, leaves the state as it was, and broadcasts an
    [object_update] with the unchanged object to every connection. *)
Theorem repickup_rebroadcasts st sid oid o :
  get oid (objects st) = Some o ->
  o_ownerId o = Some sid ->
  on_pickup sid oid st =
  (st, [ (io_emit, object_update oid (o_x o) (o_y o) (Some sid)) ])
  /\ (forall c, In c (connected st) -> receives (connected st) io_emit c = true).
Proof.
  intros Ho Hown. split; [|apply receives_io_emit].
  rewrite (on_pickup_granted sid oid st o Ho).
  - rewrite set_ownerId_same by assumption.
    rewrite set_same by assumption. now destruct st.
  - rewrite Hown. simpl. rewrite String.eqb_refl. apply andb_false_r.
Qed.

Lemma repickup_rebroadcasts_witness :
  on_pickup Samples.sockA "obj-1" Samples.state_A_owns_obj1 =
  (Samples.state_A_owns_obj1,
   [ (io_emit,
      object_update "obj-1" (Js.Number 200) (Js.Number 200) (Some Samples.sockA)) ]).
Proof.
  apply (repickup_rebroadcasts Samples.state_A_owns_obj1 Samples.sockA "obj-1"
           (mkObject "obj-1" (Js.Number 200) (Js.Number 200) 40 40
                     (Some Samples.sockA) "#FF6B6B"));
    reflexivity.
Defined.

(** C10 as stated fails: after A and B connect and A picks up obj-1, a second
    [pickup] of obj-1 by A emits a broadcast, which B receives. *)
Lemma repickup_is_broadcast :
  exec Samples.trace_A_owns_obj1 = Some Samples.state_A_owns_obj1
  /\ snd (on_pickup Samples.sockA "obj-1" Samples.state_A_owns_obj1) =
     [ (io_emit,
        object_update "obj-1" (Js.Number 200) (Js.Number 200) (Some Samples.sockA)) ]
  /\ receives (connected Samples.state_A_owns_obj1) io_emit Samples.sockB = true.
Proof. repeat split. Qed.

(** *** [object_move] and [drop] from a connection that is not the owner *)

Lemma owner_is_false owner sid : owner <> Some sid -> owner_is owner sid = false.
Proof.
  destruct owner as [c|]; simpl; [|reflexivity].
  intros Hne. apply String.eqb_neq. congruence.
Qed.

(** C9 as the code has it: a [drop] from a connection that does not own the
    named object changes nothing and emits nothing; an [object_move] from
    such a connection changes nothing and broadcasts nothing either, but the
    requester alone is sent an [object_reject] ("You do not own this object")
    when the object exists. *)
Theorem non_owner_move_drop st sid oid x y :
  (forall o, get oid (objects st) = Some o -> o_ownerId o <> Some sid) ->
  on_drop sid oid x y st = (st, [])
  /\ fst (on_object_move sid oid x y st) = st
  /\ (get oid (objects st) = None -> snd (on_object_move sid oid x y st) = [])
  /\ (forall o, get oid (objects st) = Some o ->
        snd (on_object_move sid oid x y st) =
        [ (socket_emit sid, object_reject oid reason_not_owner) ])
  /\ (forall c, c <> sid -> receives (connected st) (socket_emit sid) c = false).
Proof.
  intros Hnot.
  assert (Hrecv : forall c, c <> sid ->
            receives (connected st) (socket_emit sid) c = false).
  { intros c Hne. unfold receives. apply String.eqb_neq in Hne.
    rewrite Hne. apply andb_false_r. }
  unfold on_drop, on_object_move.
  destruct (get oid (objects st)) as [o|] eqn:Ho.
  - rewrite (owner_is_false (o_ownerId o) sid) by now apply Hnot. simpl.
    split; [reflexivity|]. split; [reflexivity|].
    split; [discriminate|]. split; [reflexivity | exact Hrecv].
  - simpl. split; [reflexivity|]. split; [reflexivity|].
    split; [reflexivity|]. split; [discriminate | exact Hrecv].
Qed.

Lemma non_owner_move_drop_witness :
  on_drop Samples.sockB "obj-1" (Js.Number 1) (Js.Number 2)
          Samples.state_A_owns_obj1 = (Samples.state_A_owns_obj1, [])
  /\ fst (on_object_move Samples.sockB "obj-1" (Js.Number 1) (Js.Number 2)
            Samples.state_A_owns_obj1) = Samples.state_A_owns_obj1.
Proof.
  destruct (non_owner_move_drop Samples.state_A_owns_obj1 Samples.sockB "obj-1"
              (Js.Number 1) (Js.Number 2)) as (Hdrop & Hmove & _).
  - intros o Ho. vm_compute in Ho. injection Ho as <-. simpl.
    discriminate.
  - split; assumption.
Defined.

(** C9 as stated fails for [object_move]: with obj-1 owned by A, an
    [object_move] of obj-1 from B sends an event back to B. *)
Lemma move_by_non_owner_is_answered :
  exec Samples.trace_A_owns_obj1 = Some Samples.state_A_owns_obj1
  /\ owns Samples.state_A_owns_obj1 Samples.sockA "obj-1"
  /\ snd (on_object_move Samples.sockB "obj-1" (Js.Number 1) (Js.Number 2)
            Samples.state_A_owns_obj1) =
     [ (socket_emit Samples.sockB,
        object_reject "obj-1" "You do not own this object") ]
  /\ receives (connected Samples.state_A_owns_obj1)
       (socket_emit Samples.sockB) Samples.sockB = true.
Proof.
  repeat split. eexists. split; reflexivity.
Qed.

(** *** Disconnect *)

Lemma released_owned sid o :
  o_ownerId o = Some sid -> released sid o = set_ownerId o None.
Proof.
  intros H. unfold released. rewrite H. simpl. now rewrite String.eqb_refl.
Qed.

Lemma released_not_owned sid o :
  o_ownerId o <> Some sid -> released sid o = o.
Proof.
  intros H. unfold released. now rewrite owner_is_false.
Qed.

Lemma option_eq_sid (owner : option string) sid :
  owner = Some sid \/ owner <> Some sid.
Proof.
  destruct owner as [c|]; [|right; discriminate].
  destruct (string_dec c sid) as [->|Hne]; [now left | right; congruence].
Qed.

(** C3: on disconnect the User record of the connection is removed and the
    other records stay; every object owned by the connection is stored with
    [ownerId] null and its other fields as they were, and an [object_update]
    carrying the null owner is broadcast; every other object is left as it
    was, so that afterwards no object has the connection as its owner and
    the objects without an owner are those that had none or were owned by
    it; the emissions are these updates followed by [user_left] last; and all
    of them reach every remaining connection, the disconnected one not being
    among them. *)
Theorem disconnect_release tr st sid st' out :
  exec tr = Some st ->
  on_disconnect sid st = (st', out) ->
  get sid (users st') = None
  /\ (forall c, c <> sid -> get c (users st') = get c (users st))
  /\ (forall k o, get k (objects st) = Some o -> o_ownerId o = Some sid ->
        get k (objects st') =
        Some (mkObject (o_id o) (o_x o) (o_y o) (o_width o) (o_height o)
                       None (o_color o))
        /\ In (io_emit, object_update (o_id o) (o_x o) (o_y o) None) out)
  /\ (forall k o, get k (objects st) = Some o -> o_ownerId o <> Some sid ->
        get k (objects st') = Some o)
  /\ (forall k o', get k (objects st') = Some o' -> o_ownerId o' <> Some sid)
  /\ (forall k o', get k (objects st') = Some o' ->
        (o_ownerId o' = None <->
         exists o, get k (objects st) = Some o
                   /\ (o_ownerId o = None \/ o_ownerId o = Some sid)))
  /\ out =
     map (fun o => (io_emit, object_update (o_id o) (o_x o) (o_y o) None))
         (filter (fun o => owner_is (o_ownerId o) sid) (values (objects st)))
     ++ [ (socket_broadcast_emit sid, user_left sid) ]
  /\ ~ In sid (connected st')
  /\ (forall c, In c (connected st') ->
        receives (connected st') io_emit c = true
        /\ receives (connected st') (socket_broadcast_emit sid) c = true).
Proof.
  intros Hexec Hdis. apply Inv_exec in Hexec as HI.
  rewrite on_disconnect_eq in Hdis. injection Hdis as <- <-. simpl.
  assert (Hgone : get sid (delete sid (users st)) = None)
    by apply get_delete_same, (inv_nodup st HI).
  split; [exact Hgone|].
  split; [intros c Hne; now apply get_delete_other|].
  split; [|split; [|split; [|split; [|split; [reflexivity|split]]]]].
  - intros k o Ho Hown. split.
    + rewrite get_map_values, Ho. simpl. now rewrite released_owned.
    + apply in_or_app. left.
      apply (in_map (fun o => (io_emit, object_update (o_id o) (o_x o) (o_y o) None))).
      apply filter_In. split.
      * apply get_In in Ho. now apply (in_map snd) in Ho.
      * rewrite Hown. simpl. apply String.eqb_refl.
  - intros k o Ho Hown.
    rewrite get_map_values, Ho. simpl. now rewrite released_not_owned.
  - intros k o'. rewrite get_map_values.
    destruct (get k (objects st)) as [o|]; [|discriminate].
    simpl. intros Ho'. injection Ho' as <-.
    destruct (option_eq_sid (o_ownerId o) sid) as [Hown|Hown].
    + rewrite released_owned by assumption. discriminate.
    + now rewrite released_not_owned.
  - intros k o'. rewrite get_map_values.
    destruct (get k (objects st)) as [o|]; [|discriminate].
    simpl. intros Ho'. injection Ho' as <-.
    destruct (option_eq_sid (o_ownerId o) sid) as [Hown|Hown].
    + rewrite released_owned by assumption. simpl. split; [|reflexivity].
      intros _. exists o. auto.
    + rewrite released_not_owned by assumption. split.
      * intros Hnone. exists o. auto.
      * intros (o0 & Ho0 & [Hnone|Hsid]); injection Ho0 as <-;
          [assumption | contradiction].
  - unfold connected. simpl. intros Hin.
    apply in_keys_has in Hin. unfold has in Hin. now rewrite Hgone in Hin.
  - unfold connected. simpl. intros c Hin. split.
    + now apply receives_io_emit.
    + apply receives_broadcast_other; [assumption|].
      intros ->. apply in_keys_has in Hin. unfold has in Hin.
      now rewrite Hgone in Hin.
Qed.

Lemma disconnect_release_witness :
  exec Samples.trace_A_owns_obj1 = Some Samples.state_A_owns_obj1
  /\ get "obj-1"
       (objects (fst (on_disconnect Samples.sockA Samples.state_A_owns_obj1))) =
     Some (mkObject "obj-1" (Js.Number 200) (Js.Number 200) 40 40 None "#FF6B6B")
  /\ snd (on_disconnect Samples.sockA Samples.state_A_owns_obj1) =
     [ (io_emit, object_update "obj-1" (Js.Number 200) (Js.Number 200) None);
       (socket_broadcast_emit Samples.sockA, user_left Samples.sockA) ].
Proof.
  split; [reflexivity|].
  destruct (disconnect_release Samples.trace_A_owns_obj1
              Samples.state_A_owns_obj1 Samples.sockA
              (fst (on_disconnect Samples.sockA Samples.state_A_owns_obj1))
              (snd (on_disconnect Samples.sockA Samples.state_A_owns_obj1))
              eq_refl eq_refl) as (_ & _ & Hrel & _ & _ & _ & Hout & _).
  split.
  - apply (Hrel "obj-1"
             (mkObject "obj-1" (Js.Number 200) (Js.Number 200) 40 40
                       (Some Samples.sockA) "#FF6B6B"));
      reflexivity.
  - rewrite Hout. reflexivity.
Defined.

(** *** Cursor positions *)

(** C5: a valid [cursor_move] from a connection with a User record stores
    the new position in that record and emits one [cursor_update] carrying
    the payload's position, sequence number and timestamp and the record's
    name and colour as they are; the emission goes to every other connection
    and never to the sender. *)
Theorem cursor_move_relay st sid data now u :
  isValidCursorUpdate data = true ->
  get sid (users st) = Some u ->
  on_cursor_move sid data now st =
  (mkState (set sid (set_cursor u (cm_x data) (cm_y data) now) (users st))
           (objects st),
   [ (socket_broadcast_emit sid,
      cursor_update sid (cm_x data) (cm_y data) (cm_ts data) (cm_seq data)
                    (u_name u) (u_color u)) ])
  /\ get sid (users (fst (on_cursor_move sid data now st))) =
     Some (mkUser (u_id u) (u_name u) (cm_x data) (cm_y data) (u_color u) now)
  /\ receives (connected st) (socket_broadcast_emit sid) sid = false
  /\ (forall c, In c (connected st) -> c <> sid ->
        receives (connected st) (socket_broadcast_emit sid) c = true).
Proof.
  intros Hvalid Hu.
  assert (Heq : on_cursor_move sid data now st =
    (mkState (set sid (set_cursor u (cm_x data) (cm_y data) now) (users st))
             (objects st),
     [ (socket_broadcast_emit sid,
        cursor_update sid (cm_x data) (cm_y data) (cm_ts data) (cm_seq data)
                      (u_name u) (u_color u)) ])).
  { unfold on_cursor_move. now rewrite Hvalid, Hu. }
  split; [exact Heq|]. rewrite Heq. simpl. split; [|split].
  - apply get_set_same.
  - apply receives_broadcast_self.
  - intros c. apply receives_broadcast_other.
Qed.

Lemma cursor_move_relay_witness :
  isValidCursorUpdate Samples.valid_move = true
  /\ snd (on_cursor_move Samples.sockA Samples.valid_move 2000
            Samples.state_A_owns_obj1) =
     [ (socket_broadcast_emit Samples.sockA,
        cursor_update Samples.sockA (Js.Number 100) (Js.Number 200)
          (Js.Number 1692518400) (Js.Number 1) (Js.Str "User A1b2C") "#FF6B6B") ].
Proof.
  split; [reflexivity|].
  destruct (cursor_move_relay Samples.state_A_owns_obj1 Samples.sockA
              Samples.valid_move 2000
              (mkUser Samples.sockA (Js.Str "User A1b2C") (Js.Number 0)
                      (Js.Number 0) "#FF6B6B" 1000)
              eq_refl eq_refl) as (Heq & _).
  rewrite Heq. reflexivity.
Defined.

(** *** Validation *)

Lemma typeof_number v :
  (Js.typeof v =? "number") = true <-> is_number v.
Proof.
  unfold is_number. destruct v; simpl; split; try discriminate; eauto;
    intros [n Hn]; discriminate.
Qed.

Lemma isValidCursorUpdate_true data :
  isValidCursorUpdate data = true <->
  exists x y ts seq,
    data = mkCursorMove (Js.Number x) (Js.Number y) (Js.Number ts) (Js.Number seq)
    /\ ((0 <=? x) && (x <=? 10000))%float = true
    /\ ((0 <=? y) && (y <=? 10000))%float = true.
Proof.
  unfold isValidCursorUpdate. destruct data as [vx vy vts vseq]. simpl. split.
  - intros H. repeat (apply andb_true_iff in H as [H ?]).
    destruct vx, vy, vts, vseq; try discriminate. simpl in *.
    do 4 eexists. split; [reflexivity|].
    split; apply andb_true_iff; auto.
  - intros (x & y & ts & seq & Heq & Hx & Hy). injection Heq as -> -> -> ->.
    simpl. apply andb_true_iff in Hx as [Hx1 Hx2].
    apply andb_true_iff in Hy as [Hy1 Hy2]. now rewrite Hx1, Hx2, Hy1, Hy2.
Qed.

(** C6: [isValidCursorUpdate] is a function of the payload alone; it returns
    false exactly when a coordinate is not a number, a coordinate is outside
    0..10000, or the timestamp or the sequence number is not a number
    (a missing field reads as undefined); x = -1 and x = 10001 are rejected
    whatever the other fields, x = 0 and x = 10000 are accepted with the
    other fields valid; and a rejected [cursor_move] changes no state and
    emits nothing. *)
Theorem validation_spec :
  (forall data,
     isValidCursorUpdate data = false <->
     (~ is_number (cm_x data) \/ ~ is_number (cm_y data))
     \/ (out_of_bounds (cm_x data) \/ out_of_bounds (cm_y data))
     \/ (~ is_number (cm_ts data) \/ ~ is_number (cm_seq data)))
  /\ (forall vy vts vseq,
        isValidCursorUpdate (mkCursorMove (Js.Number (-1)) vy vts vseq) = false
        /\ isValidCursorUpdate (mkCursorMove (Js.Number 10001) vy vts vseq) = false)
  /\ (forall y ts seq,
        ((0 <=? y) && (y <=? 10000))%float = true ->
        isValidCursorUpdate
          (mkCursorMove (Js.Number 0) (Js.Number y) (Js.Number ts) (Js.Number seq)) = true
        /\ isValidCursorUpdate
          (mkCursorMove (Js.Number 10000) (Js.Number y) (Js.Number ts) (Js.Number seq)) = true)
  /\ (forall st sid data now,
        isValidCursorUpdate data = false ->
        on_cursor_move sid data now st = (st, [])).
Proof.
  split; [|split; [|split]].
  - intros data. split.
    + intros Hfalse.
      destruct data as [vx vy vts vseq]. simpl.
      destruct vx as [| |b|x|s|]; try (left; left; intros [n Hn]; discriminate).
      destruct vy as [| |b|y|s|]; try (left; right; intros [n Hn]; discriminate).
      destruct vts as [| |b|ts|s|];
        try (right; right; left; intros [n Hn]; discriminate).
      destruct vseq as [| |b|seq|s|];
        try (right; right; right; intros [n Hn]; discriminate).
      right. left. unfold isValidCursorUpdate in Hfalse. simpl in Hfalse.
      destruct (0 <=? x)%float eqn:Hx1; [|left; exists x; now rewrite Hx1].
      destruct (x <=? 10000)%float eqn:Hx2; [|left; exists x; now rewrite Hx1, Hx2].
      right. exists y. split; [reflexivity|]. exact Hfalse.
    + intros Hbad. destruct (isValidCursorUpdate data) eqn:Hv; [|reflexivity].
      exfalso. apply isValidCursorUpdate_true in Hv
        as (x & y & ts & seq & -> & Hx & Hy). simpl in Hbad.
      destruct Hbad as [[H|H]|[[H|H]|[H|H]]].
      * apply H. now exists x.
      * apply H. now exists y.
      * destruct H as [n [Hn Hb]]. injection Hn as <-. congruence.
      * destruct H as [n [Hn Hb]]. injection Hn as <-. congruence.
      * apply H. now exists ts.
      * apply H. now exists seq.
  - intros vy vts vseq. unfold isValidCursorUpdate. simpl.
    split; destruct (Js.typeof vy =? "number"), (Js.typeof vts =? "number"),
      (Js.typeof vseq =? "number"); reflexivity.
  - intros y ts seq Hy. apply andb_true_iff in Hy as [Hy1 Hy2].
    unfold isValidCursorUpdate. simpl. rewrite Hy1, Hy2. split; reflexivity.
  - intros st sid data now Hfalse. unfold on_cursor_move. now rewrite Hfalse.
Qed.

Lemma validation_spec_witness :
  isValidCursorUpdate
    (mkCursorMove (Js.Number 0) (Js.Number 200) (Js.Number 1692518400) (Js.Number 1))
  = true
  /\ on_cursor_move Samples.sockA
       (mkCursorMove (Js.Number (-1)) (Js.Number 200) (Js.Number 1692518400) (Js.Number 1))
       2000 Samples.state_A_owns_obj1 = (Samples.state_A_owns_obj1, []).
Proof.
  destruct validation_spec as (_ & Hrej & Hacc & Hsame). split.
  - apply (Hacc 200%float 1692518400%float 1%float). reflexivity.
  - apply Hsame. apply Hrej.
Defined.

End ServerFacts.

(** ** The client *)

Module ClientFacts.
Import MathUtils CursorLayer JsMap JsMapFacts.

(** *** [throttle] *)

Section ThrottleFacts.
Context {Args W : Type}.
Variable func : Args -> W -> W.
Variable limit : Z.

Lemma throttled_accepts now args lastCall w :
  (limit <= now - lastCall)%Z ->
  throttled func limit now args (lastCall, w) = (now, func args w).
Proof.
  intros H. unfold throttled. apply Z.leb_le in H. now rewrite H.
Qed.

Lemma throttled_drops now args lastCall w :
  (now - lastCall < limit)%Z ->
  throttled func limit now args (lastCall, w) = (lastCall, w).
Proof.
  intros H. unfold throttled.
  destruct (Z.leb_spec limit (now - lastCall)); [lia | reflexivity].
Qed.

(** Calls that all fall inside the window opened at [lastCall] leave the
    closure and the world untouched. *)
Lemma throttled_calls_dropped calls lastCall w :
  Forall (fun c => (fst c - lastCall < limit)%Z) calls ->
  throttled_calls func limit calls (lastCall, w) = (lastCall, w).
Proof.
  induction calls as [|[now args] calls IH]; cbn [throttled_calls]; intros Hall.
  - reflexivity.
  - inversion Hall as [|? ? Hnow Hrest]; subst. simpl in Hnow.
    rewrite throttled_drops by assumption. auto.
Qed.

Lemma throttled_burst t0 a0 rest lastCall w :
  (limit <= t0 - lastCall)%Z ->
  Forall (fun c => (fst c - t0 < limit)%Z) rest ->
  throttled_calls func limit ((t0, a0) :: rest) (lastCall, w) = (t0, func a0 w).
Proof.
  intros Hopen Hrest. cbn [throttled_calls].
  rewrite throttled_accepts by assumption.
  now apply throttled_calls_dropped.
Qed.

End ThrottleFacts.

(** C4 as the code has it: when the first call of a burst comes at least one
    throttle interval (50 ms) after the last executed call ([lastCall], 0 on a
    fresh throttle) and every later call comes less than one interval after
    the first, exactly the first call is sent; the later calls leave no
    trace: nothing is queued, the sequence number advances once and
    [lastCall] is the time of the first call. *)
Theorem burst_first_only lastCall w t0 a0 rest :
  socket w = true ->
  (50 <= t0 - lastCall)%Z ->
  Forall (fun c => (fst c - t0 < 50)%Z) rest ->
  throttledSendCursor_calls ((t0, a0) :: rest) (lastCall, w) =
  (t0,
   mkSender true (sequence w + 1)
     (emitted w ++
        [ mkMoveOut (Js.Math_round (arg_x a0)) (Js.Math_round (arg_y a0))
                    (arg_ts a0) (sequence w) ])).
Proof.
  intros Hsock Hopen Hrest. unfold throttledSendCursor_calls.
  rewrite throttled_burst by assumption.
  unfold sendCursor. now rewrite Hsock.
Qed.

Lemma burst_first_only_witness :
  throttledSendCursor_calls
    [ (1000%Z, Samples.mouse 10 20 1000);
      (1010%Z, Samples.mouse 11 21 1010);
      (1049%Z, Samples.mouse 12 22 1049) ]
    (throttle_init, Samples.sender0) =
  (1000%Z, mkSender true 1 [ mkMoveOut 10 20 1000 0 ]).
Proof.
  apply (burst_first_only throttle_init Samples.sender0 1000
           (Samples.mouse 10 20 1000)
           [ (1010%Z, Samples.mouse 11 21 1010);
             (1049%Z, Samples.mouse 12 22 1049) ]).
  - reflexivity.
  - unfold throttle_init. lia.
  - repeat constructor; simpl; lia.
Defined.

(** C4 as stated fails: on a fresh throttle called at 1000, 1040 and 1080 ms,
    the calls at 1040 and 1080 are 40 ms apart, less than the interval, yet
    the first of the two is dropped and the second is sent. *)
Lemma burst_inside_window_drops_first :
  (1080 - 1040 < 50)%Z
  /\ throttledSendCursor_calls [ (1000%Z, Samples.mouse 10 20 1000) ]
       (throttle_init, Samples.sender0) =
     (1000%Z, mkSender true 1 [ mkMoveOut 10 20 1000 0 ])
  /\ throttledSendCursor_calls
       [ (1040%Z, Samples.mouse 11 21 1040); (1080%Z, Samples.mouse 12 22 1080) ]
       (1000%Z, mkSender true 1 [ mkMoveOut 10 20 1000 0 ]) =
     (1080%Z, mkSender true 2 [ mkMoveOut 10 20 1000 0; mkMoveOut 12 22 1080 1 ]).
Proof.
  split; [lia | split; reflexivity].
Qed.

(** *** Interpolation *)

Lemma float_neq (a b : float) :
  (a =? b)%float = false -> (a =? a)%float = true -> a <> b.
Proof.
  intros Hab Haa Heq. rewrite <- Heq in Hab. congruence.
Qed.

(** Scenario values on binary64: from 100 to 150, halfway at 25 ms of 50 and
    on target from 50 ms on. *)
Example lerp_scenario :
  lerp 100 150 (25 / 50) = 125%float
  /\ lerp 100 150 1 = 150%float
  /\ x (animate_cursor 1075
          (mkCursor "B" (Js.Str "B") "#4ECDC4" 100 100 150 100 100 100 1000))
     = 150%float.
Proof. repeat split; vm_compute; reflexivity. Qed.

(** C7 as stated fails on binary64 numbers: from prior 0.7 to target 0.1 at
    progress 1, [lerp] returns 0.09999999999999998, which is not the target
    and lies below both ends; [animate] displays that value once the
    interpolation window has elapsed.  ([7 / 10] and [1 / 10] are the
    correctly rounded quotients, the doubles written 0.7 and 0.1.) *)
Lemma lerp_misses_target :
  lerp (7 / 10) (1 / 10) 1 <> (1 / 10)%float
  /\ (lerp (7 / 10) (1 / 10) 1 <? 1 / 10)%float = true
  /\ (1 / 10 <? 7 / 10)%float = true
  /\ (x (animate_cursor 1050
           (mkCursor "B" (Js.Str "B") "#4ECDC4"
                     (7 / 10) 0 (1 / 10) 0 (7 / 10) 0 1000))
      <? 1 / 10)%float = true.
Proof.
  split; [|repeat split].
  apply float_neq; reflexivity.
Qed.

(** *** Receiving a position delta *)

(** What [init] stores, user by user. *)
Lemma fold_set_get now us : forall (acc : JsMap.t RemoteCursor) k c,
  get k (fold_left
           (fun cursors user => set (ud_id user) (cursor_of_user now user) cursors)
           us acc) = Some c ->
  (exists u, In u us /\ ud_id u = k /\ c = cursor_of_user now u)
  \/ get k acc = Some c.
Proof.
  induction us as [|u us IH]; intros acc k c Hget; simpl in *; [now right|].
  destruct (IH _ _ _ Hget) as [(u' & Hin & Hk & Hc)|Hacc].
  - left. exists u'. auto.
  - destruct (String.eqb_spec (ud_id u) k) as [Heq|Hne].
    + left. exists u. rewrite <- Heq, get_set_same in Hacc.
      injection Hacc as <-. auto.
    + rewrite get_set_other in Hacc by assumption. now right.
Qed.

Lemma fold_set_has now us : forall (acc : JsMap.t RemoteCursor) u,
  In u us ->
  has (ud_id u)
      (fold_left
         (fun cursors user => set (ud_id user) (cursor_of_user now user) cursors)
         us acc) = true.
Proof.
  assert (Hkeep : forall us (acc : JsMap.t RemoteCursor) k,
            has k acc = true ->
            has k (fold_left
                     (fun cursors user =>
                        set (ud_id user) (cursor_of_user now user) cursors)
                     us acc) = true).
  { induction us0 as [|v us0 IH]; intros acc k Hk; simpl; [assumption|].
    apply IH. unfold has in *.
    destruct (String.eqb_spec (ud_id v) k) as [<-|Hne].
    - now rewrite get_set_same.
    - now rewrite get_set_other. }
  induction us as [|v us IH]; intros acc u Hin; [destruct Hin|].
  simpl. destruct Hin as [<-|Hin].
  - apply Hkeep. unfold has. now rewrite get_set_same.
  - now apply IH.
Qed.

(** C8 as the code has it, positions only: a delta for a user with no
    recorded cursor creates one whose displayed, prior and target positions
    are all the delivered one; a delta for a user with a recorded cursor sets
    prior to the currently displayed position, not to the previous target,
    sets target to the delivered position and leaves the displayed position,
    the name and the colour alone.  A user announced by [user_joined] or
    listed by [init] has a recorded cursor, so its first delta takes the
    second branch, with the announced position as prior.  Other cursors are
    untouched. *)
Theorem cursor_update_tracking now data cursors :
  (get (d_id data) cursors = None ->
     exists c,
       get (d_id data) (on_cursor_update now data cursors) = Some c
       /\ id c = d_id data /\ name c = d_name data /\ color c = d_color data
       /\ x c = d_x data /\ y c = d_y data
       /\ prevX c = d_x data /\ prevY c = d_y data
       /\ targetX c = d_x data /\ targetY c = d_y data)
  /\ (forall e, get (d_id data) cursors = Some e ->
        exists c,
          get (d_id data) (on_cursor_update now data cursors) = Some c
          /\ id c = id e /\ name c = name e /\ color c = color e
          /\ x c = x e /\ y c = y e
          /\ prevX c = x e /\ prevY c = y e
          /\ targetX c = d_x data /\ targetY c = d_y data)
  /\ (forall joined_at user,
        ud_id user = d_id data ->
        exists c,
          get (d_id data)
            (on_cursor_update now data (on_user_joined joined_at user cursors))
          = Some c
          /\ x c = ud_x user /\ y c = ud_y user
          /\ prevX c = ud_x user /\ prevY c = ud_y user
          /\ targetX c = d_x data /\ targetY c = d_y data)
  /\ (forall init_at us user,
        In user us -> ud_id user = d_id data ->
        exists c listed,
          get (d_id data) (on_cursor_update now data (on_init init_at us)) = Some c
          /\ In listed us /\ ud_id listed = d_id data
          /\ x c = ud_x listed /\ y c = ud_y listed
          /\ prevX c = ud_x listed /\ prevY c = ud_y listed
          /\ targetX c = d_x data /\ targetY c = d_y data)
  /\ (forall k, k <> d_id data ->
        get k (on_cursor_update now data cursors) = get k cursors).
Proof.
  assert (Hlater : forall cs e, get (d_id data) cs = Some e ->
            exists c,
              get (d_id data) (on_cursor_update now data cs) = Some c
              /\ id c = id e /\ name c = name e /\ color c = color e
              /\ x c = x e /\ y c = y e
              /\ prevX c = x e /\ prevY c = y e
              /\ targetX c = d_x data /\ targetY c = d_y data).
  { intros cs e He. unfold on_cursor_update. rewrite He.
    eexists. split; [apply get_set_same|]. repeat split. }
  split; [|split; [|split; [|split]]].
  - intros Hnew. unfold on_cursor_update. rewrite Hnew.
    eexists. split; [apply get_set_same|]. repeat split.
  - apply Hlater.
  - intros joined_at user Hid.
    destruct (Hlater (on_user_joined joined_at user cursors)
                     (cursor_of_user joined_at user))
      as (c & Hc & _ & _ & _ & Hx & Hy & Hpx & Hpy & Htx & Hty).
    { unfold on_user_joined. rewrite Hid. apply get_set_same. }
    exists c. repeat split; assumption.
  - intros init_at us user Hin Hid.
    pose proof (fold_set_has init_at us [] user Hin) as Hhas.
    rewrite Hid in Hhas. apply has_get in Hhas as [e He].
    destruct (fold_set_get init_at us [] _ e He)
      as [(listed & Hlisted & Hlid & ->)|Hnil]; [|discriminate].
    destruct (Hlater (on_init init_at us) (cursor_of_user init_at listed) He)
      as (c & Hc & _ & _ & _ & Hx & Hy & Hpx & Hpy & Htx & Hty).
    exists c, listed. repeat split; assumption.
  - intros k Hk. unfold on_cursor_update.
    destruct (get (d_id data) cursors); apply get_set_other; congruence.
Qed.

Lemma cursor_update_tracking_witness :
  get Samples.sockB [ (Samples.sockB, Samples.cursor_B) ] = Some Samples.cursor_B
  /\ exists c,
       get Samples.sockB
         (on_cursor_update 1692518400123 Samples.update_B
            [ (Samples.sockB, Samples.cursor_B) ]) = Some c
       /\ prevX c = 120%float /\ prevY c = 80%float
       /\ targetX c = 300%float /\ targetY c = 90%float
       /\ x c = 120%float /\ y c = 80%float.
Proof.
  split; [reflexivity|].
  destruct (cursor_update_tracking 1692518400123 Samples.update_B
              [ (Samples.sockB, Samples.cursor_B) ]) as (_ & Hlater & _).
  destruct (Hlater Samples.cursor_B eq_refl)
    as (c & Hc & _ & _ & _ & Hx & Hy & Hpx & Hpy & Htx & Hty).
  exists c. repeat split; assumption.
Defined.

(** C8 as stated fails.  B is announced by [user_joined] at local time
    1692518400000; its first position delta, stamped 1692518400050 by B and
    received when the local clock reads 1692518400123, finds B's cursor
    recorded: prior becomes the displayed position (0, 0), not the delivered
    (300, 90).  Nor is the start time recorded the local time of receipt: it
    is B's stamp. *)
Lemma first_delta_of_announced_user :
  exists e,
    get Samples.sockB
      (on_cursor_update 1692518400123 Samples.update_B
         (on_user_joined 1692518400000 Samples.joined_B [])) = Some e
    /\ prevX e = 0%float /\ prevY e = 0%float
    /\ targetX e = 300%float /\ targetY e = 90%float
    /\ prevX e <> targetX e
    /\ lastUpdateTime e = 1692518400050%float
    /\ lastUpdateTime e <> 1692518400123%float.
Proof.
  eexists. split; [reflexivity|]. repeat (split; [reflexivity|]).
  split; [apply float_neq; reflexivity|].
  split; [reflexivity | apply float_neq; reflexivity].
Qed.

(** The start time [cursor_update] records is read by [animate] against the
    local clock, like the local readings that [init] and [user_joined]
    record.  With B's stamp 73 ms behind the local clock, the render tick one
    millisecond after the receipt already shows the target: the movement
    from (0, 0) to (300, 90) is not interpolated. *)
Example stamp_of_a_slower_clock :
  exists c,
    get Samples.sockB
      (animate 1692518400124
         (on_cursor_update 1692518400123 Samples.update_B
            (on_user_joined 1692518400000 Samples.joined_B []))) = Some c
    /\ prevX c = 0%float /\ targetX c = 300%float
    /\ x c = 300%float /\ y c = 90%float.
Proof.
  eexists. split; [reflexivity|]. repeat split; vm_compute; reflexivity.
Qed.

End ClientFacts.

(** * Further properties of the code *)

(** ** More facts about [JsMap] *)

Module JsMapMore.
Import JsMap JsMapFacts.

Section More.
Context {V : Type}.
Implicit Types (k : string) (v : V) (m : JsMap.t V).

Lemma In_get k v m : NoDup (keys m) -> In (k, v) m -> get k m = Some v.
Proof.
  unfold keys. induction m as [|[k' v'] m IH]; simpl; [tauto|].
  intros Hnd Hin. inversion Hnd as [|? ? Hnotin Hnd']; subst.
  destruct Hin as [Heq|Hin].
  - injection Heq as -> ->. now rewrite String.eqb_refl.
  - destruct (String.eqb_spec k' k) as [->|Hne]; [|auto].
    exfalso. apply Hnotin. now apply (in_map fst) in Hin.
Qed.

Lemma In_keys k v m : In (k, v) m -> In k (keys m).
Proof. intros Hin. now apply (in_map fst) in Hin. Qed.

Lemma set_set k v v' m : set k v (set k v' m) = set k v m.
Proof.
  induction m as [|[k0 v0] m IH]; simpl.
  - now rewrite String.eqb_refl.
  - destruct (String.eqb_spec k0 k) as [->|Hne]; simpl.
    + now rewrite String.eqb_refl.
    + apply String.eqb_neq in Hne. rewrite Hne. now rewrite IH.
Qed.

Lemma NoDup_keys_set k v m : NoDup (keys m) -> NoDup (keys (set k v m)).
Proof.
  intros Hnd. destruct (has k m) eqn:Hk.
  - now rewrite keys_set_present.
  - rewrite keys_set_absent by assumption.
    apply NoDup_app; [assumption | repeat constructor; simpl; tauto |].
    intros a Hin [<-|[]]. apply in_keys_has in Hin. congruence.
Qed.

Lemma get_delete_set k v m :
  NoDup (keys m) -> get k (delete k (set k v m)) = None.
Proof. intros Hnd. apply get_delete_same. now apply NoDup_keys_set. Qed.

Lemma length_set_present k v m : has k m = true -> length (set k v m) = length m.
Proof.
  intros Hk. rewrite <- (length_map fst (set k v m)), <- (length_map fst m).
  fold (keys (set k v m)) (keys m). now rewrite keys_set_present.
Qed.

(** An in-place update that keeps an image [g] of the value keeps the image
    of the whole map. *)
Lemma map_image_set {A} (g : V -> A) k v v' m :
  get k m = Some v -> g v' = g v ->
  map (fun p => (fst p, g (snd p))) (set k v' m) =
  map (fun p => (fst p, g (snd p))) m.
Proof.
  intros Hget Hg. induction m as [|[k0 v0] m IH]; simpl in *; [discriminate|].
  destruct (String.eqb_spec k0 k) as [->|Hne]; simpl.
  - injection Hget as ->. now rewrite Hg.
  - f_equal. auto.
Qed.

Lemma map_image_values {A} (g : V -> A) (f : V -> V) m :
  (forall v, g (f v) = g v) ->
  map (fun p => (fst p, g (snd p))) (map (fun p => (fst p, f (snd p))) m) =
  map (fun p => (fst p, g (snd p))) m.
Proof.
  intros Hg. rewrite map_map. apply map_ext. intros [k v]. simpl. now rewrite Hg.
Qed.

Lemma keys_image {A} (g : V -> A) m :
  map fst (map (fun p => (fst p, g (snd p))) m) = keys m.
Proof. unfold keys. rewrite map_map. now apply map_ext. Qed.

(** Two maps with the same image store, under each key, values with the same
    image. *)
Lemma get_image {A} (g : V -> A) k v m m0 :
  map (fun p => (fst p, g (snd p))) m = map (fun p => (fst p, g (snd p))) m0 ->
  get k m = Some v ->
  exists v0, get k m0 = Some v0 /\ g v = g v0.
Proof.
  revert m0. induction m as [|[k1 v1] m IH]; intros [|[k2 v2] m0]; simpl;
    try discriminate.
  intros Heq Hget. injection Heq as -> Hg Hrest.
  destruct (k2 =? k).
  - injection Hget as <-. eauto.
  - eauto.
Qed.

End More.

End JsMapMore.

(** ** More about the server *)

Module ServerMore.
Import Server JsMap JsMapFacts JsMapMore ServerFacts.

Lemma in_bounds_zero : in_bounds (Js.Number 0).
Proof. exists 0%float. split; reflexivity. Qed.

Lemma valid_in_bounds data :
  isValidCursorUpdate data = true ->
  in_bounds (cm_x data) /\ in_bounds (cm_y data).
Proof.
  intros Hv. apply isValidCursorUpdate_true in Hv
    as (x & y & ts & seq & -> & Hx & Hy).
  split; [exists x | exists y]; now split.
Qed.

Lemma fixed_part_released sid o : fixed_part (released sid o) = fixed_part o.
Proof. unfold released. now destruct (owner_is (o_ownerId o) sid). Qed.

Lemma Shape_initial : Shape initial_state.
Proof. constructor; [reflexivity | intros k u []]. Qed.

Lemma Shape_set_user st sid u u' :
  Shape st -> get sid (users st) = Some u ->
  u_id u' = u_id u ->
  in_bounds (u_x u') -> in_bounds (u_y u') ->
  Shape (mkState (set sid u' (users st)) (objects st)).
Proof.
  intros [Hobj Hus] Hu Hid Hx Hy. constructor; simpl; [assumption|].
  intros k v Hin. apply In_set in Hin as [[-> ->]|Hin]; [|auto].
  apply get_In in Hu. destruct (Hus sid u Hu) as (Hk & _). now rewrite Hid.
Qed.

Lemma Shape_set_object st k o o' :
  Shape st -> get k (objects st) = Some o ->
  fixed_part o' = fixed_part o ->
  Shape (mkState (users st) (set k o' (objects st))).
Proof.
  intros [Hobj Hus] Ho Hfix. constructor; simpl; [|assumption].
  now rewrite (map_image_set fixed_part k o o').
Qed.

Lemma Shape_step st e :
  Shape st -> admissible st e = true -> Shape (fst (step st e)).
Proof.
  intros HS Hadm. pose proof HS as [Hobj Hus].
  destruct e as [sid idx now|sid name|sid data now|sid oid|sid oid x y
                |sid oid x y|sid|]; cbn [step].
  - (* connection *)
    constructor; simpl; [assumption|].
    intros k u Hin. apply In_set in Hin as [[-> ->]|Hin]; [|auto].
    simpl. repeat split; apply in_bounds_zero.
  - (* join *)
    unfold on_join. destruct (get sid (users st)) as [u|] eqn:Hu; [|assumption].
    simpl. apply get_In in Hu as Hin. destruct (Hus sid u Hin) as (_ & Hx & Hy).
    apply (Shape_set_user st sid u); try assumption;
      destruct (Js.truthy name); auto.
  - (* cursor_move *)
    unfold on_cursor_move.
    destruct (isValidCursorUpdate data) eqn:Hv; simpl; [|assumption].
    destruct (get sid (users st)) as [u|] eqn:Hu; [|assumption]. simpl.
    destruct (valid_in_bounds data Hv) as [Hx Hy].
    now apply (Shape_set_user st sid u).
  - (* pickup *)
    unfold on_pickup. destruct (get oid (objects st)) as [o|] eqn:Ho; [|assumption].
    destruct (owned_by_other (o_ownerId o) sid); [assumption|]. simpl.
    now apply (Shape_set_object st oid o).
  - (* object_move *)
    unfold on_object_move.
    destruct (get oid (objects st)) as [o|] eqn:Ho; [|assumption].
    destruct (negb (owner_is (o_ownerId o) sid)); [assumption|]. simpl.
    now apply (Shape_set_object st oid o).
  - (* drop *)
    unfold on_drop.
    destruct (get oid (objects st)) as [o|] eqn:Ho; [|assumption].
    destruct (negb (owner_is (o_ownerId o) sid)); [assumption|]. simpl.
    now apply (Shape_set_object st oid o).
  - (* disconnect *)
    rewrite on_disconnect_eq. constructor; simpl.
    + rewrite (map_image_values fixed_part (released sid)); [assumption|].
      apply fixed_part_released.
    + intros k u Hin. apply Hus. eapply In_delete; eauto.
  - (* reset *)
    unfold post_reset. constructor; simpl; [|assumption].
    now rewrite (map_image_values fixed_part (fun obj => set_ownerId obj None)).
Qed.

Lemma Shape_run tr : forall st st' out,
  Shape st -> run st tr = Some (st', out) -> Shape st'.
Proof.
  induction tr as [|e tr IH]; simpl; intros st st' out HS Hrun.
  - now injection Hrun as <- _.
  - destruct (admissible st e) eqn:Hadm; [|discriminate].
    pose proof (Shape_step st e HS Hadm) as HS1.
    destruct (step st e) as [st1 out1]. simpl in HS1.
    destruct (run st1 tr) as [[st2 out2]|] eqn:Hr; [|discriminate].
    injection Hrun as <- _. eauto.
Qed.

Lemma Shape_exec tr st : exec tr = Some st -> Shape st.
Proof.
  unfold exec. destruct (run initial_state tr) as [[st' out]|] eqn:Hr; [|discriminate].
  intros H. injection H as <-. eapply Shape_run; eauto using Shape_initial.
Qed.

Lemma Shape_keys st :
  Shape st -> keys (objects st) = ["obj-1"; "obj-2"; "obj-3"].
Proof.
  intros [Hobj _]. apply (f_equal (map fst)) in Hobj.
  now rewrite !keys_image in Hobj.
Qed.

Lemma Shape_NoDup st : Shape st -> NoDup (keys (objects st)).
Proof.
  intros HS. rewrite (Shape_keys st HS).
  repeat constructor; simpl; intuition discriminate.
Qed.

Lemma initial_id k o : get k initializeObjects = Some o -> o_id o = k.
Proof.
  set (objs := initializeObjects). vm_compute in objs. subst objs.
  cbn [get].
  destruct (String.eqb_spec "obj-1" k) as [<-|_]; [now intros [= <-]|].
  destruct (String.eqb_spec "obj-2" k) as [<-|_]; [now intros [= <-]|].
  destruct (String.eqb_spec "obj-3" k) as [<-|_]; [now intros [= <-]|].
  discriminate.
Qed.

Lemma Shape_id st k o : Shape st -> get k (objects st) = Some o -> o_id o = k.
Proof.
  intros [Hobj _] Ho.
  destruct (get_image fixed_part k o _ _ Hobj Ho) as (o0 & Ho0 & Hfix).
  apply initial_id in Ho0. unfold fixed_part in Hfix. congruence.
Qed.

(** *** The object set *)

(** X1: no handler creates, removes, renames, resizes or recolours an object:
    in every reachable state the map holds obj-1, obj-2, obj-3 in this order,
    each stored under its own id with the size and colour it was initialised
    with, and [/stats] reports three objects. *)
Theorem objects_are_fixed tr st :
  exec tr = Some st ->
  keys (objects st) = ["obj-1"; "obj-2"; "obj-3"]
  /\ (forall k o, get k (objects st) = Some o ->
        exists o0, get k initializeObjects = Some o0
                   /\ o_id o = k
                   /\ o_width o = o_width o0
                   /\ o_height o = o_height o0
                   /\ o_color o = o_color o0)
  /\ totalObjects (get_stats st) = 3%nat.
Proof.
  intros Hexec. apply Shape_exec in Hexec as HS.
  split; [now apply Shape_keys|]. split.
  - intros k o Ho. pose proof (Shape_id st k o HS Ho) as Hid.
    destruct (get_image fixed_part k o _ _ (shape_objects st HS) Ho)
      as (o0 & Ho0 & Hfix).
    exists o0. unfold fixed_part in Hfix. injection Hfix as _ Hw Hh Hc. auto.
  - simpl. rewrite <- (length_map fst). fold (keys (objects st)).
    now rewrite (Shape_keys st HS).
Qed.

Lemma objects_are_fixed_witness :
  exec Samples.trace_A_owns_obj1 = Some Samples.state_A_owns_obj1
  /\ keys (objects Samples.state_A_owns_obj1) = ["obj-1"; "obj-2"; "obj-3"].
Proof.
  split; [reflexivity|].
  apply (objects_are_fixed Samples.trace_A_owns_obj1 Samples.state_A_owns_obj1).
  reflexivity.
Defined.

(** *** The user records *)

(** X2: in every reachable state each user record is stored under the id it
    carries, and its position is a number inside 0..10000 on both axes: the
    only writer of a position is the validated [cursor_move]. *)
Theorem users_stay_in_bounds tr st sid u :
  exec tr = Some st ->
  get sid (users st) = Some u ->
  u_id u = sid /\ in_bounds (u_x u) /\ in_bounds (u_y u).
Proof.
  intros Hexec Hu. apply Shape_exec in Hexec as HS.
  apply (shape_users st HS). now apply get_In.
Qed.

Lemma users_stay_in_bounds_witness :
  exec Samples.trace_A_owns_obj1 = Some Samples.state_A_owns_obj1
  /\ in_bounds (Js.Number 0).
Proof.
  split; [reflexivity|].
  apply (users_stay_in_bounds Samples.trace_A_owns_obj1
           Samples.state_A_owns_obj1 Samples.sockA
           (mkUser Samples.sockA (Js.Str "User A1b2C") (Js.Number 0)
                   (Js.Number 0) "#FF6B6B" 1000));
    reflexivity.
Defined.

(** X3: what [/stats] reports is consistent in every reachable state: the
    user count is the number of live sockets, and every non-null [ownedBy]
    of the object list is the id of a user of the user list. *)
Theorem stats_consistent tr st :
  exec tr = Some st ->
  connectedUsers (get_stats st) = length (connected st)
  /\ (forall oid pos c,
        In (oid, pos, Some c) (objectsList (get_stats st)) ->
        exists name upos, In (c, name, upos) (usersList (get_stats st))).
Proof.
  intros Hexec. apply Inv_exec in Hexec as HI. apply Shape_exec in Hexec as HS.
  split.
  - simpl. unfold connected, keys. now rewrite length_map.
  - intros oid pos c Hin. simpl in Hin.
    apply in_map_iff in Hin as [o [Heq Hin]]. injection Heq as _ _ Hown.
    apply in_map_iff in Hin as [[k o'] [Ho Hin]]. simpl in Ho. subst o'.
    pose proof (inv_owner st HI k o c Hin Hown) as Hlive.
    apply in_keys_has, has_get in Hlive as [u Hu].
    apply get_In in Hu as Huin.
    destruct (shape_users st HS c u Huin) as (Hid & _).
    exists (u_name u), (u_x u, u_y u). simpl.
    apply in_map_iff. exists u. split; [now rewrite Hid|].
    now apply (in_map snd) in Huin.
Qed.

Lemma stats_consistent_witness :
  exec Samples.trace_A_owns_obj1 = Some Samples.state_A_owns_obj1
  /\ connectedUsers (get_stats Samples.state_A_owns_obj1) = 2%nat.
Proof.
  split; [reflexivity|].
  apply (stats_consistent Samples.trace_A_owns_obj1 Samples.state_A_owns_obj1).
  reflexivity.
Defined.

(** *** Moving and dropping as the owner *)

Lemma owner_is_true sid : owner_is (Some sid) sid = true.
Proof. simpl. apply String.eqb_refl. Qed.

(** X4: an [object_move] from the owner stores the given coordinates as they
    come (the handler validates nothing, so any value is stored), keeps the
    owner and every other field, leaves the other objects and the users
    alone, and broadcasts the new state to every connection. *)
Theorem owner_move st sid oid o x y :
  get oid (objects st) = Some o ->
  o_ownerId o = Some sid ->
  on_object_move sid oid x y st =
  (mkState (users st) (set oid (set_position o x y) (objects st)),
   [ (io_emit, object_update oid x y (Some sid)) ])
  /\ get oid (objects (fst (on_object_move sid oid x y st))) =
     Some (mkObject (o_id o) x y (o_width o) (o_height o) (Some sid) (o_color o))
  /\ (forall k, k <> oid ->
        get k (objects (fst (on_object_move sid oid x y st))) = get k (objects st)).
Proof.
  intros Ho Hown.
  assert (Heq : on_object_move sid oid x y st =
    (mkState (users st) (set oid (set_position o x y) (objects st)),
     [ (io_emit, object_update oid x y (Some sid)) ])).
  { unfold on_object_move. rewrite Ho, Hown, owner_is_true. simpl.
    now rewrite Hown. }
  split; [exact Heq|]. rewrite Heq. simpl. split.
  - rewrite get_set_same. unfold set_position. now rewrite Hown.
  - intros k Hk. apply get_set_other. congruence.
Qed.

Lemma owner_move_witness :
  snd (on_object_move Samples.sockA "obj-1" Js.Undefined (Js.Str "left")
         Samples.state_A_owns_obj1) =
  [ (io_emit,
     object_update "obj-1" Js.Undefined (Js.Str "left") (Some Samples.sockA)) ].
Proof.
  destruct (owner_move Samples.state_A_owns_obj1 Samples.sockA "obj-1"
              (mkObject "obj-1" (Js.Number 200) (Js.Number 200) 40 40
                        (Some Samples.sockA) "#FF6B6B")
              Js.Undefined (Js.Str "left") eq_refl eq_refl) as (Heq & _).
  now rewrite Heq.
Defined.



(** X6: picking up an unowned object and dropping it where it lies brings
    the server back to the state it was in. *)
Theorem pickup_drop_roundtrip st sid oid o :
  get oid (objects st) = Some o ->
  o_ownerId o = None ->
  fst (on_drop sid oid (o_x o) (o_y o) (fst (on_pickup sid oid st))) = st.
Proof.
  intros Ho Hnull.
  rewrite (on_pickup_granted sid oid st o Ho) by now rewrite Hnull.
  unfold on_drop. simpl. rewrite get_set_same. simpl.
  rewrite String.eqb_refl. simpl. rewrite set_set.
  replace (set_ownerId (set_position (set_ownerId o (Some sid)) (o_x o) (o_y o)) None)
    with o by (destruct o; simpl in *; now subst).
  rewrite set_same by assumption. now destruct st.
Qed.

Lemma pickup_drop_roundtrip_witness :
  fst (on_drop Samples.sockB "obj-2" (Js.Number 500) (Js.Number 300)
         (fst (on_pickup Samples.sockB "obj-2" Samples.state_A_owns_obj1))) =
  Samples.state_A_owns_obj1.
Proof.
  apply (pickup_drop_roundtrip Samples.state_A_owns_obj1 Samples.sockB "obj-2"
           (mkObject "obj-2" (Js.Number 500) (Js.Number 300) 40 40 None "#4ECDC4"));
    reflexivity.
Defined.

(** *** Reset *)

Lemma getObjectState_values objs : getObjectState objs = values objs.
Proof.
  unfold getObjectState. rewrite <- (map_id (values objs)) at 2.
  apply map_ext. now intros [].
Qed.

(** X7: [POST /reset] clears the owner of every object and nothing else:
    positions stay where they are (objects are not put back to their initial
    places) and users are untouched; it broadcasts one [init] that carries
    the objects only; resetting twice is the same as resetting once. *)
Theorem reset_clears_owners_only st :
  users (fst (post_reset st)) = users st
  /\ (forall k,
        get k (objects (fst (post_reset st))) =
        option_map (fun obj => set_ownerId obj None) (get k (objects st)))
  /\ snd (post_reset st) =
     [ (io_emit,
        init_objects (map (fun obj => set_ownerId obj None) (values (objects st)))) ]
  /\ fst (post_reset (fst (post_reset st))) = fst (post_reset st).
Proof.
  unfold post_reset. simpl. split; [reflexivity|]. split; [|split].
  - intros k. apply (get_map_values (fun obj => set_ownerId obj None)).
  - rewrite getObjectState_values. unfold values. now rewrite !map_map.
  - f_equal. rewrite map_map. apply map_ext. now intros [k o].
Qed.

(** *** Join *)



(** *** What the emissions say *)

(** Every [object_update] a handler emits reports the state it leaves. *)
Lemma step_update_sound st e t oid x y owner :
  Shape st ->
  admissible st e = true ->
  In (t, object_update oid x y owner) (snd (step st e)) ->
  t = io_emit
  /\ exists o, get oid (objects (fst (step st e))) = Some o
               /\ o_x o = x /\ o_y o = y /\ o_ownerId o = owner.
Proof.
  intros HS Hadm Hin.
  destruct e as [sid idx now|sid name|sid data now|sid k|sid k x' y'
                |sid k x' y'|sid|]; cbn [step] in *.
  - destruct Hin.
  - unfold on_join in Hin. destruct (get sid (users st)); simpl in Hin;
      intuition discriminate.
  - unfold on_cursor_move in Hin.
    destruct (negb (isValidCursorUpdate data)); [destruct Hin|].
    destruct (get sid (users st)); simpl in Hin; intuition discriminate.
  - unfold on_pickup in *. destruct (get k (objects st)) as [o|] eqn:Ho;
      [|simpl in Hin; intuition discriminate].
    destruct (owned_by_other (o_ownerId o) sid);
      [simpl in Hin; intuition discriminate|].
    simpl in *. destruct Hin as [Heq|[]]. injection Heq as <- <- <- <- <-.
    split; [reflexivity|]. rewrite get_set_same. eexists. now split.
  - unfold on_object_move in *. destruct (get k (objects st)) as [o|] eqn:Ho;
      [|destruct Hin].
    destruct (negb (owner_is (o_ownerId o) sid));
      [simpl in Hin; intuition discriminate|].
    simpl in *. destruct Hin as [Heq|[]]. injection Heq as <- <- <- <- <-.
    split; [reflexivity|]. rewrite get_set_same. eexists. now split.
  - unfold on_drop in *. destruct (get k (objects st)) as [o|] eqn:Ho;
      [|destruct Hin].
    destruct (negb (owner_is (o_ownerId o) sid)); [destruct Hin|].
    simpl in *. destruct Hin as [Heq|[]]. injection Heq as <- <- <- <- <-.
    split; [reflexivity|]. rewrite get_set_same. eexists. now split.
  - rewrite on_disconnect_eq in *. simpl in *.
    apply in_app_or in Hin as [Hin|[Hin|[]]]; [|discriminate].
    apply in_map_iff in Hin as [o [Heq Hin]]. injection Heq as <- <- <- <- <-.
    split; [reflexivity|].
    apply filter_In in Hin as [Hin Hown].
    unfold values in Hin. apply in_map_iff in Hin as [[k o'] [Ho Hin]].
    simpl in Ho. subst o'.
    assert (Hget : get k (objects st) = Some o)
      by (apply In_get; [now apply Shape_NoDup | assumption]).
    rewrite (Shape_id st k o HS Hget).
    rewrite get_map_values, Hget. simpl. exists (released sid o).
    unfold released. rewrite Hown. now split.
  - unfold post_reset in Hin. simpl in Hin. intuition discriminate.
Qed.

(** X9: whatever event the server handles in a reachable state, every
    [object_update] it emits goes to all connections and reports the
    position and owner the object has in the state the handler leaves. *)
Theorem updates_report_state tr st e t oid x y owner :
  exec tr = Some st ->
  admissible st e = true ->
  In (t, object_update oid x y owner) (snd (step st e)) ->
  t = io_emit
  /\ exists o, get oid (objects (fst (step st e))) = Some o
               /\ o_x o = x /\ o_y o = y /\ o_ownerId o = owner.
Proof.
  intros Hexec Hadm Hin. apply Shape_exec in Hexec.
  now apply (step_update_sound st e t oid x y owner).
Qed.

Lemma updates_report_state_witness :
  exec Samples.trace_A_owns_obj1 = Some Samples.state_A_owns_obj1
  /\ forall t oid x y owner,
       In (t, object_update oid x y owner)
          (snd (step Samples.state_A_owns_obj1 (disconnect Samples.sockA))) ->
       t = io_emit.
Proof.
  split; [reflexivity|].
  intros t oid x y owner Hin.
  apply (updates_report_state Samples.trace_A_owns_obj1
           Samples.state_A_owns_obj1 (disconnect Samples.sockA)
           t oid x y owner eq_refl eq_refl Hin).
Defined.

(** X10: a rejection is never broadcast and never comes with a change: when
    a handler emits an [object_reject] it is its only emission, it goes to
    the socket the request came from and to no other, and the state is left
    as it was. *)
Theorem rejections_are_private st e t oid r :
  In (t, object_reject oid r) (snd (step st e)) ->
  fst (step st e) = st
  /\ snd (step st e) = [ (t, object_reject oid r) ]
  /\ exists sid, sender e = Some sid /\ t = socket_emit sid.
Proof.
  intros Hin.
  destruct e as [sid idx now|sid name|sid data now|sid k|sid k x' y'
                |sid k x' y'|sid|]; cbn [step sender] in *.
  - destruct Hin.
  - unfold on_join in Hin. destruct (get sid (users st)); simpl in Hin;
      intuition discriminate.
  - unfold on_cursor_move in Hin.
    destruct (negb (isValidCursorUpdate data)); [destruct Hin|].
    destruct (get sid (users st)); simpl in Hin; intuition discriminate.
  - unfold on_pickup in *. destruct (get k (objects st)) as [o|].
    + destruct (owned_by_other (o_ownerId o) sid); simpl in *;
        destruct Hin as [Heq|[]]; [|discriminate].
      injection Heq as <- <- <-. eauto.
    + simpl in *. destruct Hin as [Heq|[]]. injection Heq as <- <- <-. eauto.
  - unfold on_object_move in *. destruct (get k (objects st)) as [o|];
      [|destruct Hin].
    destruct (negb (owner_is (o_ownerId o) sid)); simpl in *;
      destruct Hin as [Heq|[]]; [|discriminate].
    injection Heq as <- <- <-. eauto.
  - unfold on_drop in Hin. destruct (get k (objects st)) as [o|];
      [|destruct Hin].
    destruct (negb (owner_is (o_ownerId o) sid)); simpl in Hin;
      intuition discriminate.
  - rewrite on_disconnect_eq in Hin. simpl in Hin.
    apply in_app_or in Hin as [Hin|[Hin|[]]]; [|discriminate].
    apply in_map_iff in Hin as [o [Heq _]]. discriminate.
  - unfold post_reset in Hin. simpl in Hin. intuition discriminate.
Qed.

Lemma rejections_are_private_witness :
  fst (step Samples.state_A_owns_obj1 (pickup Samples.sockB "obj-1")) =
  Samples.state_A_owns_obj1.
Proof.
  apply (rejections_are_private Samples.state_A_owns_obj1
           (pickup Samples.sockB "obj-1")
           (socket_emit Samples.sockB) "obj-1" reason_owned).
  left. reflexivity.
Defined.

(** *** Disconnect, then pickup *)

(** X11: once its owner has disconnected, an object can be picked up again:
    the [pickup] of any connection right after the disconnect is granted and
    broadcast, with the object where the owner left it. *)
Theorem release_then_pickup st owner other oid o :
  get oid (objects st) = Some o ->
  o_ownerId o = Some owner ->
  snd (on_pickup other oid (fst (on_disconnect owner st))) =
  [ (io_emit, object_update oid (o_x o) (o_y o) (Some other)) ]
  /\ get oid (objects (fst (on_pickup other oid (fst (on_disconnect owner st))))) =
     Some (set_ownerId o (Some other)).
Proof.
  intros Ho Hown. rewrite on_disconnect_eq. simpl.
  unfold on_pickup. simpl. rewrite get_map_values, Ho. simpl.
  rewrite (released_owned owner o Hown). simpl. split; [reflexivity|].
  apply get_set_same.
Qed.

Lemma release_then_pickup_witness :
  snd (on_pickup Samples.sockB "obj-1"
         (fst (on_disconnect Samples.sockA Samples.state_A_owns_obj1))) =
  [ (io_emit,
     object_update "obj-1" (Js.Number 200) (Js.Number 200) (Some Samples.sockB)) ].
Proof.
  apply (release_then_pickup Samples.state_A_owns_obj1 Samples.sockA
           Samples.sockB "obj-1"
           (mkObject "obj-1" (Js.Number 200) (Js.Number 200) 40 40
                     (Some Samples.sockA) "#FF6B6B"));
    reflexivity.
Defined.

End ServerMore.

(** ** Comparisons of binary64 numbers

    The specifications of the primitive comparisons relate them to
    [SFcompare]; from there: the order facts [Math.min], [Math.max] and the
    clamps of [math.ts] rest on. *)

Module FloatFacts.
Import MathUtils.

Lemma SFcompare_antisym x y :
  SFcompare y x = option_map CompOpp (SFcompare x y).
Proof.
  destruct x as [sx|sx| |sx mx ex], y as [sy|sy| |sy my ey]; simpl;
    try reflexivity;
    try (destruct sx; reflexivity); try (destruct sy; reflexivity);
    try (destruct sx, sy; reflexivity).
  destruct sx, sy; simpl; try reflexivity.
  - rewrite (Z.compare_antisym ex ey).
    destruct (Z.compare ex ey); simpl; try reflexivity.
    do 2 f_equal. exact (ZC4 my mx).
  - rewrite (Z.compare_antisym ex ey).
    destruct (Z.compare ex ey); simpl; try reflexivity.
    f_equal. exact (ZC4 my mx).
Qed.

Lemma SFcompare_refl x : x <> S754_nan -> SFcompare x x = Some Eq.
Proof.
  destruct x as [s|s| |s m e]; simpl; intros H; try reflexivity.
  - now destruct s.
  - congruence.
  - destruct s; rewrite Z.compare_refl, Pos.compare_cont_refl; reflexivity.
Qed.

Lemma SFcompare_None x y :
  SFcompare x y = None -> x = S754_nan \/ y = S754_nan.
Proof.
  destruct x as [sx|sx| |sx mx ex], y as [sy|sy| |sy my ey]; simpl;
    try discriminate; auto.
Qed.

(** Structural equality from numerical equality, away from zero. *)
Lemma SFcompare_Eq_finite s m e y :
  SFcompare (S754_finite s m e) y = Some Eq -> y = S754_finite s m e.
Proof.
  destruct y as [sy|sy| |sy my ey]; simpl; try discriminate.
  - destruct s; discriminate.
  - destruct sy; discriminate.
  - destruct s, sy; try discriminate;
      destruct (Z.compare_spec e ey) as [->|?|?]; try discriminate;
      intros H; injection H as H.
    + destruct (Pos.compare_cont Eq m my) eqn:Hm; try discriminate.
      apply Pcompare_Eq_eq in Hm. now subst.
    + apply Pcompare_Eq_eq in H. now subst.
Qed.

Lemma is_nan_spec x : is_nan x = false <-> Prim2SF x <> S754_nan.
Proof.
  unfold is_nan. rewrite negb_false_iff, eqb_spec. unfold SFeqb. split.
  - intros H Hn. rewrite Hn in H. discriminate.
  - intros H. now rewrite SFcompare_refl.
Qed.

Lemma leb_not_nan a b : (a <=? b)%float = true -> is_nan a = false /\ is_nan b = false.
Proof.
  rewrite leb_spec. unfold SFleb. intros H.
  split; apply is_nan_spec; intros Hn; rewrite Hn in H; simpl in H;
    try discriminate.
  destruct (Prim2SF a); discriminate.
Qed.

Lemma ltb_leb a b : (a <? b)%float = true -> (a <=? b)%float = true.
Proof.
  rewrite ltb_spec, leb_spec. unfold SFltb, SFleb.
  now destruct (SFcompare (Prim2SF a) (Prim2SF b)) as [[]|].
Qed.

Lemma leb_refl a : is_nan a = false -> (a <=? a)%float = true.
Proof.
  intros H. apply is_nan_spec in H. rewrite leb_spec. unfold SFleb.
  now rewrite SFcompare_refl.
Qed.

Lemma ltb_false_leb a b :
  is_nan a = false -> is_nan b = false ->
  (a <? b)%float = false -> (b <=? a)%float = true.
Proof.
  intros Ha Hb. apply is_nan_spec in Ha, Hb.
  rewrite ltb_spec, leb_spec. unfold SFltb, SFleb.
  rewrite (SFcompare_antisym (Prim2SF a) (Prim2SF b)).
  destruct (SFcompare (Prim2SF a) (Prim2SF b)) as [[]|] eqn:Hc; simpl;
    try reflexivity; try discriminate.
  apply SFcompare_None in Hc. tauto.
Qed.

Lemma leb_ltb_false a b : (a <=? b)%float = true -> (b <? a)%float = false.
Proof.
  rewrite ltb_spec, leb_spec. unfold SFltb, SFleb.
  rewrite (SFcompare_antisym (Prim2SF a) (Prim2SF b)).
  now destruct (SFcompare (Prim2SF a) (Prim2SF b)) as [[]|].
Qed.

Lemma Math_max_cases a b :
  is_nan a = false -> is_nan b = false ->
  (Js.Math_max a b = a \/ Js.Math_max a b = b)
  /\ (a <=? Js.Math_max a b)%float = true
  /\ (b <=? Js.Math_max a b)%float = true.
Proof.
  intros Ha Hb. unfold Js.Math_max. rewrite Ha, Hb.
  destruct (a <? b)%float eqn:Hab.
  - split; [now right|]. split; [now apply ltb_leb | now apply leb_refl].
  - destruct (b <? a)%float eqn:Hba.
    + split; [now left|]. split; [now apply leb_refl | now apply ltb_leb].
    + destruct (get_sign a).
      * split; [now right|].
        split; [now apply ltb_false_leb | now apply leb_refl].
      * split; [now left|].
        split; [now apply leb_refl | now apply ltb_false_leb].
Qed.

Lemma Math_min_cases a b :
  is_nan a = false -> is_nan b = false ->
  (Js.Math_min a b = a \/ Js.Math_min a b = b)
  /\ (Js.Math_min a b <=? a)%float = true
  /\ (Js.Math_min a b <=? b)%float = true.
Proof.
  intros Ha Hb. unfold Js.Math_min. rewrite Ha, Hb.
  destruct (a <? b)%float eqn:Hab.
  - split; [now left|]. split; [now apply leb_refl | now apply ltb_leb].
  - destruct (b <? a)%float eqn:Hba.
    + split; [now right|]. split; [now apply ltb_leb | now apply leb_refl].
    + destruct (get_sign a).
      * split; [now left|].
        split; [now apply leb_refl | now apply ltb_false_leb].
      * split; [now right|].
        split; [now apply ltb_false_leb | now apply leb_refl].
Qed.

Lemma clamp_between value lo hi :
  is_nan value = false ->
  (lo <=? hi)%float = true ->
  (lo <=? clamp value lo hi)%float = true
  /\ (clamp value lo hi <=? hi)%float = true
  /\ (clamp value lo hi = value \/ clamp value lo hi = lo \/ clamp value lo hi = hi).
Proof.
  intros Hv Hle. destruct (leb_not_nan lo hi Hle) as [Hlo Hhi].
  unfold clamp.
  destruct (Math_min_cases hi value Hhi Hv) as (Hm & Hm1 & Hm2).
  assert (Hmn : is_nan (Js.Math_min hi value) = false)
    by (destruct Hm as [-> | ->]; assumption).
  destruct (Math_max_cases lo (Js.Math_min hi value) Hlo Hmn) as (Hr & Hr1 & Hr2).
  split; [assumption|]. split.
  - destruct Hr as [-> | ->]; assumption.
  - destruct Hr as [-> | ->]; [now right; left|].
    destruct Hm as [-> | ->]; [now right; right | now left].
Qed.

Lemma clamp_nan value lo hi :
  is_nan value = true -> is_nan lo = false -> is_nan hi = false ->
  is_nan (clamp value lo hi) = true.
Proof.
  intros Hv Hlo Hhi. unfold clamp, Js.Math_max, Js.Math_min.
  rewrite Hlo, Hhi, Hv. reflexivity.
Qed.

(** X18: with [min <= max], [clamp(value, min, max)] of a value that is not
    NaN lies between [min] and [max] and is one of the three arguments, and
    [clamp] of NaN is NaN. *)
Theorem clamp_bounds value lo hi :
  (lo <=? hi)%float = true ->
  (is_nan value = false ->
     (lo <=? clamp value lo hi)%float = true
     /\ (clamp value lo hi <=? hi)%float = true
     /\ (clamp value lo hi = value \/ clamp value lo hi = lo
         \/ clamp value lo hi = hi))
  /\ (is_nan value = true -> is_nan (clamp value lo hi) = true).
Proof.
  intros Hle. split; intros Hv.
  - now apply clamp_between.
  - destruct (leb_not_nan lo hi Hle) as [Hlo Hhi]. now apply clamp_nan.
Qed.

Lemma clamp_bounds_witness :
  (0 <=? 9960)%float = true
  /\ (clamp 10000 0 9960 <=? 9960)%float = true.
Proof.
  split; [reflexivity|].
  apply (clamp_bounds 10000 0 9960); reflexivity.
Defined.

Lemma Prim2SF_one : Prim2SF 1 = S754_finite false 4503599627370496 (-52).
Proof. reflexivity. Qed.

Lemma Prim2SF_zero : Prim2SF 0 = S754_zero false.
Proof. reflexivity. Qed.

(** Numerically equal to 1 is 1. *)
Lemma eq_one v :
  (1 <=? v)%float = true -> (1 <? v)%float = false -> v = 1%float.
Proof.
  rewrite leb_spec, ltb_spec. unfold SFleb, SFltb. rewrite Prim2SF_one.
  destruct (SFcompare _ (Prim2SF v)) as [[]|] eqn:Hc; try discriminate.
  intros _ _. apply SFcompare_Eq_finite in Hc.
  rewrite <- (SF2Prim_Prim2SF v), Hc, <- Prim2SF_one. apply SF2Prim_Prim2SF.
Qed.

Lemma below_one v :
  (v <=? 0)%float = true -> (v <? 1)%float = true /\ (1 <? v)%float = false.
Proof.
  rewrite leb_spec, !ltb_spec. unfold SFleb, SFltb.
  rewrite Prim2SF_one, Prim2SF_zero.
  destruct (Prim2SF v) as [s|s| |s m e]; cbn [SFcompare];
    try destruct s; intros H; try (cbv iota in H; discriminate H);
    split; reflexivity.
Qed.

Lemma Math_min_ge1 v : (1 <=? v)%float = true -> Js.Math_min v 1 = 1%float.
Proof.
  intros H. destruct (leb_not_nan 1 v H) as [_ Hv].
  unfold Js.Math_min. rewrite Hv. change (is_nan 1) with false. cbv iota.
  rewrite (leb_ltb_false 1 v H).
  destruct (1 <? v)%float eqn:Hlt; [reflexivity|].
  rewrite (eq_one v H Hlt). reflexivity.
Qed.

Lemma Math_min_le0 v : (v <=? 0)%float = true -> Js.Math_min v 1 = v.
Proof.
  intros H. destruct (leb_not_nan v 0 H) as [Hv _].
  destruct (below_one v H) as [Hlt _].
  unfold Js.Math_min. rewrite Hv. change (is_nan 1) with false. cbv iota.
  now rewrite Hlt.
Qed.

Lemma clamped_ge1 t :
  (1 <=? t)%float = true -> Js.Math_max 0 (Js.Math_min 1 t) = 1%float.
Proof.
  intros H. destruct (leb_not_nan 1 t H) as [_ Ht].
  assert (Hmin : Js.Math_min 1 t = 1%float).
  { unfold Js.Math_min. change (is_nan 1) with false. cbv iota. rewrite Ht.
    destruct (1 <? t)%float eqn:Hlt; [reflexivity|].
    rewrite (leb_ltb_false 1 t H). change (get_sign 1) with false. cbv iota.
    now apply eq_one. }
  rewrite Hmin. reflexivity.
Qed.

Lemma clamped_le0 t :
  (t <=? 0)%float = true -> Js.Math_max 0 (Js.Math_min 1 t) = 0%float.
Proof.
  intros H. destruct (leb_not_nan t 0 H) as [Ht _].
  destruct (below_one t H) as [Hlt Hgt].
  assert (Hmin : Js.Math_min 1 t = t).
  { unfold Js.Math_min. change (is_nan 1) with false. cbv iota.
    now rewrite Ht, Hgt, Hlt. }
  rewrite Hmin. unfold Js.Math_max. change (is_nan 0) with false. cbv iota.
  rewrite Ht, (leb_ltb_false t 0 H).
  destruct (t <? 0)%float; [reflexivity|].
  change (get_sign 0) with false. reflexivity.
Qed.

(** X19: [lerp] sees its third argument only through the clamp: every
    [t >= 1] gives what [t = 1] gives, and every [t <= 0] what [t = 0]
    gives. *)
Theorem lerp_saturates a b t :
  ((1 <=? t)%float = true -> lerp a b t = (a + (b - a) * 1)%float)
  /\ ((t <=? 0)%float = true -> lerp a b t = (a + (b - a) * 0)%float).
Proof.
  unfold lerp. split; intros H.
  - now rewrite clamped_ge1.
  - now rewrite clamped_le0.
Qed.

Lemma lerp_saturates_witness :
  (1 <=? 3)%float = true /\ lerp 100 150 3 = (100 + (150 - 100) * 1)%float.
Proof.
  split; [reflexivity|]. apply (lerp_saturates 100 150 3). reflexivity.
Defined.

End FloatFacts.

(** ** Rounding of the binary64 operations

    [Prim2SF (a + b)], [Prim2SF (a - b)] and [Prim2SF (a * b)] are given by
    the Standard Library's specification of the primitive operations.  The
    lemmas below read that specification arithmetically: the result of an
    operation on finite numbers is the nearest number to the exact result,
    ties to even; rounding is monotone and leaves numbers as they are. *)

Module RoundingFacts.
Import Binary64 FloatFacts.
Local Open Scope Z_scope.

(** *** Digits *)

Lemma digits2_size m : digits2_pos m = Pos.size m.
Proof. induction m; simpl; congruence. Qed.

Lemma digits2_bounds m :
  2 ^ (Zpos (digits2_pos m) - 1) <= Zpos m < 2 ^ Zpos (digits2_pos m).
Proof.
  rewrite digits2_size. split.
  - pose proof (Pos.size_le m) as H.
    assert (H2 : 2 ^ Zpos (Pos.size m) <= 2 * Zpos m).
    { change (2 * Zpos m) with (Zpos (2 * m)). rewrite <- Pos2Z.inj_pow. exact H. }
    replace (Zpos (Pos.size m)) with (Z.succ (Zpos (Pos.size m) - 1)) in H2 by lia.
    rewrite Z.pow_succ_r in H2 by lia. lia.
  - rewrite <- Pos2Z.inj_pow. apply Pos2Z.pos_lt_pos, Pos.size_gt.
Qed.

Lemma digits2_unique m k :
  2 ^ (k - 1) <= Zpos m < 2 ^ k -> Zpos (digits2_pos m) = k.
Proof.
  intros [Hlo Hhi]. pose proof (digits2_bounds m) as [Dlo Dhi].
  set (d := Zpos (digits2_pos m)) in *.
  assert (0 < k). { destruct (Z_lt_le_dec 0 k); [assumption|].
    rewrite (Z.pow_neg_r 2 (k-1)) in Hlo by lia.
    destruct (Z.eq_dec k 0) as [->|]; [simpl in Hhi; lia|].
    rewrite (Z.pow_neg_r 2 k) in Hhi by lia. lia. }
  assert (0 < d) by (unfold d; lia).
  destruct (Z_lt_le_dec d k) as [Hlt|Hge].
  - assert (2 ^ d <= 2 ^ (k - 1)) by (apply Z.pow_le_mono_r; lia). lia.
  - destruct (Z_lt_le_dec k d) as [Hlt'|Hge']; [|lia].
    assert (2 ^ k <= 2 ^ (d - 1)) by (apply Z.pow_le_mono_r; lia). lia.
Qed.


(** *** Right shifts *)

Lemma shifted_0 m0 : shifted m0 0 (Build_shr_record m0 false false).
Proof.
  unfold shifted. simpl. rewrite Z.div_1_r, Z.mod_1_r. auto.
Qed.

Lemma shr_1_shifted m0 k rec :
  0 <= m0 -> 0 <= k -> shifted m0 k rec -> shifted m0 (k + 1) (shr_1 rec).
Proof.
  intros Hm Hk (Hq & Hr & Hs).
  assert (HP : 0 < 2 ^ k) by (apply Z.pow_pos_nonneg; lia).
  unfold shifted. rewrite Z.pow_add_r by lia. change (2 ^ 1) with 2.
  set (P := 2 ^ k) in *.
  pose proof (Z.div_mod m0 P ltac:(lia)) as Hdm.
  pose proof (Z.mod_pos_bound m0 P HP) as Hrho.
  set (q := m0 / P) in *. set (rho := m0 mod P) in *.
  assert (Hq0 : 0 <= q) by (apply Z.div_pos; lia).
  clearbody q rho P.
  assert (Hb : exists q' b, q = 2 * q' + b /\ (b = 0 \/ b = 1) /\ 0 <= q'
               /\ shr_1 rec = Build_shr_record q' (Z.eqb b 1) (shr_r rec || shr_s rec)).
  { destruct rec as [m r s0]. simpl in Hq. subst m. simpl.
    destruct q as [|[p|p|]|p]; try lia.
    - exists 0, 0. repeat split; auto; lia.
    - exists (Zpos p), 1. repeat split; auto; lia.
    - exists (Zpos p), 0. repeat split; auto; lia.
    - exists 0, 1. repeat split; auto; lia. }
  destruct Hb as (q' & b & Hqb & Hb & Hq' & ->). rewrite Hqb in Hdm.
  assert (Hdiv : m0 / (P * 2) = q').
  { symmetry. apply (Z.div_unique m0 (P * 2) q' (b * P + rho));
      destruct Hb as [-> | ->]; lia. }
  assert (Hmod : m0 mod (P * 2) = b * P + rho).
  { symmetry. apply (Z.mod_unique m0 (P * 2) q' (b * P + rho));
      destruct Hb as [-> | ->]; lia. }
  cbn [shr_m shr_r shr_s]. rewrite Hdiv, Hmod.
  split; [reflexivity|]. split.
  - destruct Hb as [-> | ->].
    + change (0 =? 1) with false. symmetry. apply Z.leb_gt. lia.
    + change (1 =? 1) with true. symmetry. apply Z.leb_le. lia.
  - assert (Hm2 : (2 * (b * P + rho)) mod (P * 2) = 2 * rho).
    { symmetry. apply (Z.mod_unique _ (P * 2) b (2 * rho));
        destruct Hb as [-> | ->]; lia. }
    rewrite Hm2, Hr, Hs.
    destruct (Z.eqb_spec (2 * rho) 0) as [H0|H0].
    + assert (rho = 0) by lia. subst rho.
      change (2 * 0) with 0. rewrite Z.mod_0_l by lia.
      change (negb (0 =? 0)) with false.
      apply orb_false_iff. split; [apply Z.leb_gt; lia | reflexivity].
    + change (negb false) with true. apply orb_true_iff.
      destruct (Z.leb_spec P (2 * rho)) as [Hle|Hlt]; [now left|right].
      apply negb_true_iff, Z.eqb_neq.
      rewrite Z.mod_small by lia. lia.
Qed.

Lemma iter_shr_shifted m0 : forall p k rec,
  0 <= m0 -> 0 <= k -> shifted m0 k rec ->
  shifted m0 (k + Zpos p) (iter_pos shr_1 p rec).
Proof.
  induction p as [p IH|p IH|]; intros k rec Hm Hk Hinv; cbn [iter_pos].
  - replace (k + Zpos p~1) with ((k + 1 + Zpos p) + Zpos p) by lia.
    apply IH; [lia|lia|]. apply IH; [lia|lia|]. now apply shr_1_shifted.
  - replace (k + Zpos p~0) with ((k + Zpos p) + Zpos p) by lia.
    apply IH; [lia|lia|]. now apply IH.
  - now apply shr_1_shifted.
Qed.

(** What the rounding does with the result of a shift. *)
Lemma shifted_round m0 k rec :
  0 <= m0 -> 0 <= k -> shifted m0 k rec ->
  round_nearest_even (shr_m rec) (loc_of_shr_record rec) = nearest_even m0 (2 ^ k).
Proof.
  intros Hm Hk (Hq & Hr & Hs).
  assert (HP : 0 < 2 ^ k) by (apply Z.pow_pos_nonneg; lia).
  set (P := 2 ^ k) in *.
  pose proof (Z.mod_pos_bound m0 P HP) as Hrho.
  unfold nearest_even. set (rho := m0 mod P) in *.
  destruct rec as [m r s0]. cbn [shr_m shr_r shr_s] in *. subst m.
  destruct (Z.leb_spec P (2 * rho)) as [Hle|Hlt]; subst r.
  - assert (H1 : (2 * rho <? P) = false) by (apply Z.ltb_ge; lia). rewrite H1.
    destruct (Z.eqb_spec ((2 * rho) mod P) 0) as [H0|H0]; subst s0;
      cbn [negb loc_of_shr_record round_nearest_even].
    + assert (2 * rho = P).
      { pose proof (Z.div_mod (2 * rho) P ltac:(lia)) as Hd. rewrite H0 in Hd.
        assert ((2 * rho) / P = 1)
          by (symmetry; apply (Z.div_unique _ P 1 (2 * rho - P)); [left; lia | lia]).
        lia. }
      assert (H2 : (P <? 2 * rho) = false) by (apply Z.ltb_ge; lia).
      now rewrite H2.
    + assert (P <> 2 * rho).
      { intros Heq. apply H0. rewrite <- Heq. apply Z.mod_same. lia. }
      assert (H2 : (P <? 2 * rho) = true) by (apply Z.ltb_lt; lia).
      now rewrite H2.
  - assert (H1 : (2 * rho <? P) = true) by (apply Z.ltb_lt; lia). rewrite H1.
    destruct s0; reflexivity.
Qed.


Lemma shr_shifted m0 e n :
  0 <= m0 -> 0 <= n ->
  exists rec,
    shr (Build_shr_record m0 false false) e n = (rec, e + n)
    /\ shifted m0 n rec.
Proof.
  intros Hm Hn. destruct n as [|p|p]; [| |lia].
  - exists (Build_shr_record m0 false false). split.
    + cbn [shr]. now rewrite Z.add_0_r.
    + apply shifted_0.
  - exists (iter_pos shr_1 p (Build_shr_record m0 false false)). split.
    + reflexivity.
    + apply (iter_shr_shifted m0 p 0); [assumption | lia | apply shifted_0].
Qed.

(** *** Nearest even *)

Lemma nearest_even_bounds x g :
  0 <= x -> 0 < g ->
  x / g <= nearest_even x g <= x / g + 1
  /\ (x mod g = 0 -> nearest_even x g = x / g).
Proof.
  intros Hx Hg. unfold nearest_even.
  pose proof (Z.mod_pos_bound x g Hg) as Hr.
  split.
  - destruct (2 * (x mod g) <? g); [lia|].
    destruct (g <? 2 * (x mod g)); [lia|].
    destruct (Z.even (x / g)); lia.
  - intros ->. change (2 * 0) with 0.
    assert (H : (0 <? g) = true) by (apply Z.ltb_lt; lia). now rewrite H.
Qed.

Lemma nearest_even_scale x g c :
  0 <= x -> 0 < g -> 0 < c ->
  nearest_even (x * c) (g * c) = nearest_even x g.
Proof.
  intros Hx Hg Hc. unfold nearest_even.
  rewrite Z.div_mul_cancel_r by lia.
  rewrite Z.mul_mod_distr_r by lia.
  pose proof (Z.mod_pos_bound x g Hg) as Hr.
  set (r := x mod g) in *. clearbody r.
  assert (H1 : (2 * (r * c) <? g * c) = (2 * r <? g)).
  { destruct (Z.ltb_spec (2 * r) g); [apply Z.ltb_lt | apply Z.ltb_ge]; nia. }
  assert (H2 : (g * c <? 2 * (r * c)) = (g <? 2 * r)).
  { destruct (Z.ltb_spec g (2 * r)); [apply Z.ltb_lt | apply Z.ltb_ge]; nia. }
  now rewrite H1, H2.
Qed.

(** *** The format *)

Lemma fexp_eq e : fexp prec emax e = Z.max (e - 53) (-1074).
Proof. reflexivity. Qed.

Lemma log2_digits m : Z.log2 (Zpos m) + 1 = Zpos (digits2_pos m).
Proof.
  pose proof (digits2_bounds m) as [Hlo Hhi].
  assert (Z.log2 (Zpos m) = Zpos (digits2_pos m) - 1); [|lia].
  apply Z.log2_unique; [lia|].
  replace (Z.succ (Zpos (digits2_pos m) - 1)) with (Zpos (digits2_pos m)) by lia.
  lia.
Qed.

Lemma spacing_scaled m e :
  - bias <= e ->
  spacing (scaled (Zpos m) e) =
  2 ^ (fexp prec emax (Zpos (digits2_pos m) + e) + bias).
Proof.
  intros He. unfold spacing, scaled.
  rewrite Z.log2_mul_pow2 by lia.
  rewrite fexp_eq. f_equal. pose proof (log2_digits m). unfold bias in *. lia.
Qed.

Lemma pow2_pos k : 0 <= k -> 0 < 2 ^ k.
Proof. intros. apply Z.pow_pos_nonneg; lia. Qed.

Lemma overflow_from k m2 e1 :
  0 <= k <= 1024 -> 2 ^ k <= m2 -> 1024 - k <= e1 ->
  overflow <= m2 * 2 ^ (e1 + bias).
Proof.
  intros Hk Hm He. unfold overflow.
  replace (1024 + bias) with (k + (1024 - k + bias)) by lia.
  rewrite Z.pow_add_r by (unfold bias; lia).
  assert (2 ^ (1024 - k + bias) <= 2 ^ (e1 + bias))
    by (apply Z.pow_le_mono_r; unfold bias; lia).
  assert (0 < 2 ^ (1024 - k + bias)) by (apply pow2_pos; unfold bias; lia).
  assert (0 < 2 ^ k) by (apply pow2_pos; lia).
  nia.
Qed.

(** The rounding of [m * 2 ^ e] when [e] is not above the exponent of its
    format. *)
Lemma round_aux_spec s m e :
  - bias <= e ->
  e <= fexp prec emax (Zpos (digits2_pos m) + e) ->
  match binary_round_aux prec emax s (Zpos m) e loc_Exact with
  | S754_zero s' => s' = s /\ rounded (scaled (Zpos m) e) = 0
  | S754_finite s' m' e' =>
      s' = s /\ bounded prec emax m' e' = true
      /\ scaled (Zpos m') e' = rounded (scaled (Zpos m) e)
  | S754_infinity s' => s' = s /\ overflow <= rounded (scaled (Zpos m) e)
  | S754_nan => False
  end.
Proof.
  intros Hbias He.
  pose proof (digits2_bounds m) as [Dlo Dhi].
  set (d := Zpos (digits2_pos m)) in *.
  assert (Hd : 0 < d) by (unfold d; lia).
  set (e1 := fexp prec emax (d + e)) in *.
  assert (He1 : e1 = Z.max (d + e - 53) (-1074)) by apply fexp_eq.
  unfold binary_round_aux, shr_fexp.
  cbn [Zdigits2 shr_record_of_loc]. fold d. fold e1.
  destruct (shr_shifted (Zpos m) e (e1 - e)) as (rec1 & Hshr & Hinv); [lia|lia|].
  rewrite Hshr. replace (e + (e1 - e)) with e1 by lia.
  rewrite (shifted_round (Zpos m) (e1 - e) rec1) by (try assumption; lia).
  set (n := e1 - e) in *.
  assert (HP : 0 < 2 ^ n) by (apply pow2_pos; lia).
  destruct (nearest_even_bounds (Zpos m) (2 ^ n)) as [[Hqlo Hqhi] _]; [lia|lia|].
  set (m2 := nearest_even (Zpos m) (2 ^ n)) in *.
  (* the value *)
  assert (Hval : rounded (scaled (Zpos m) e) = m2 * 2 ^ (e1 + bias)).
  { unfold rounded. rewrite spacing_scaled by assumption. fold d. fold e1.
    f_equal. unfold scaled.
    replace (e1 + bias) with (n + (e + bias)) by (unfold n; lia).
    rewrite (Z.pow_add_r 2 n (e + bias)) by (unfold n, bias in *; lia).
    apply nearest_even_scale; [lia | lia | apply pow2_pos; unfold bias in *; lia]. }
  rewrite Hval. clear Hval.
  (* the quotient *)
  assert (Hq : 0 <= Zpos m / 2 ^ n) by (apply Z.div_pos; lia).
  assert (Hcases :
    (m2 = 0 /\ e1 = -1074) \/
    (0 < m2 < 2 ^ 53 /\ (2 ^ 52 <= m2 \/ e1 = -1074)) \/
    (m2 = 2 ^ 53 /\ -1074 <= e1)).
  { destruct (Z_le_gt_dec (-1074) (d + e - 53)) as [Hnorm|Hsub].
    - (* normal range: the quotient has 53 digits *)
      assert (Hn : n = d - 53) by (unfold n; lia).
      assert (H52 : 2 ^ 52 <= Zpos m / 2 ^ n).
      { apply Z.div_le_lower_bound; [lia|].
        rewrite <- Z.pow_add_r by lia.
        replace (n + 52) with (d - 1) by lia. exact Dlo. }
      assert (H53 : Zpos m / 2 ^ n < 2 ^ 53).
      { apply Z.div_lt_upper_bound; [lia|].
        rewrite <- Z.pow_add_r by lia.
        replace (n + 53) with d by lia. exact Dhi. }
      destruct (Z.eq_dec m2 (2 ^ 53)) as [Heq|Hne].
      + right. right. split; [assumption | lia].
      + right. left. split; [|left]; lia.
    - (* subnormal range *)
      assert (Hn : e1 = -1074) by lia.
      assert (H52 : Zpos m / 2 ^ n < 2 ^ 52).
      { apply Z.div_lt_upper_bound; [lia|].
        rewrite <- Z.pow_add_r by lia.
        assert (2 ^ d <= 2 ^ (n + 52)) by (apply Z.pow_le_mono_r; lia).
        lia. }
      destruct (Z.eq_dec m2 0) as [H0|H0]; [left; split; assumption|].
      right. left. split; [|right; assumption]. lia. }
  clearbody m2. clear Hqlo Hqhi Hq.
  destruct Hcases as [[-> Hn]|[[[Hpos Hlt] Hcan]|[-> Hn]]].
  - (* zero *)
    cbn [Zdigits2]. rewrite Hn. cbn. split; reflexivity.
  - (* no second shift *)
    destruct m2 as [|m2|m2]; try lia.
    cbn [Zdigits2].
    pose proof (digits2_bounds m2) as [D2lo D2hi].
    set (d2 := Zpos (digits2_pos m2)) in *.
    assert (Hd2 : 0 < d2) by (unfold d2; lia).
    assert (Hd2' : d2 <= 53).
    { destruct (Z_le_gt_dec d2 53); [assumption|].
      assert (2 ^ 53 <= 2 ^ (d2 - 1)) by (apply Z.pow_le_mono_r; lia). lia. }
    assert (Hfix : fexp prec emax (d2 + e1) = e1).
    { rewrite fexp_eq. destruct Hcan as [H52|Hsub]; [|lia].
      assert (d2 = 53); [|lia].
      destruct (Z_le_gt_dec 53 d2); [lia|].
      assert (2 ^ d2 <= 2 ^ 52) by (apply Z.pow_le_mono_r; lia). lia. }
    rewrite Hfix, Z.sub_diag. cbn [shr shr_m].
    destruct (Z.leb_spec e1 (emax - prec)) as [Hle|Hgt].
    + split; [reflexivity|]. split; [|reflexivity].
      unfold bounded, canonical_mantissa. fold d2. rewrite Hfix, Z.eqb_refl.
      apply Z.leb_le in Hle. now rewrite Hle.
    + split; [reflexivity|]. unfold overflow.
      change (emax - prec) with 971 in Hgt.
      destruct Hcan as [H52|Hsub]; [|lia].
      apply (overflow_from 52); [lia | assumption | lia].
  - (* the mantissa reached 2 ^ 53 *)
    change (Zdigits2 (2 ^ 53)) with 54.
    assert (Hfix : fexp prec emax (54 + e1) = e1 + 1) by (rewrite fexp_eq; lia).
    rewrite Hfix. replace (e1 + 1 - e1) with 1 by lia.
    cbn [shr iter_pos]. change (2 ^ 53) with 9007199254740992.
    cbn [shr_1 shr_m].
    change 4503599627370496 with (2 ^ 52). change 9007199254740992 with (2 ^ 53).
    destruct (Z.leb_spec (e1 + 1) (emax - prec)) as [Hle|Hgt].
    + split; [reflexivity|]. split.
      * unfold bounded, canonical_mantissa.
        change (Zpos (digits2_pos 4503599627370496)) with 53.
        replace (53 + (e1 + 1)) with (54 + e1) by lia.
        rewrite Hfix, Z.eqb_refl. apply Z.leb_le in Hle. now rewrite Hle.
      * unfold scaled. change (Zpos 4503599627370496) with (2 ^ 52).
        replace (e1 + 1 + bias) with (1 + (e1 + bias)) by lia.
        rewrite (Z.pow_add_r 2 1 (e1 + bias)) by (unfold bias in *; lia).
        change (2 ^ 53) with (2 ^ 52 * 2 ^ 1). ring.
    + split; [reflexivity|]. change (emax - prec) with 971 in Hgt.
      apply (overflow_from 53); [lia | lia | lia].
Qed.

(** *** Rounding is monotone and keeps what is representable *)

Lemma nearest_even_mono x y g :
  0 < g -> 0 <= x <= y -> nearest_even x g <= nearest_even y g.
Proof.
  intros Hg [Hx Hxy].
  destruct (nearest_even_bounds x g) as [[_ Hxhi] _]; [lia|lia|].
  destruct (nearest_even_bounds y g) as [[Hylo _] _]; [lia|lia|].
  assert (Hq : x / g <= y / g) by (apply Z.div_le_mono; lia).
  destruct (Z.eq_dec (x / g) (y / g)) as [Heq|Hne]; [|lia].
  clear Hxhi Hylo Hq.
  pose proof (Z.div_mod x g ltac:(lia)) as Hdx.
  pose proof (Z.div_mod y g ltac:(lia)) as Hdy.
  pose proof (Z.mod_pos_bound x g Hg) as Hrx.
  pose proof (Z.mod_pos_bound y g Hg) as Hry.
  unfold nearest_even. rewrite Heq in *.
  set (q := y / g) in *. set (rx := x mod g) in *. set (ry := y mod g) in *.
  clearbody q rx ry.
  assert (Hr : rx <= ry) by lia.
  destruct (Z.ltb_spec (2 * rx) g), (Z.ltb_spec (2 * ry) g),
           (Z.ltb_spec g (2 * rx)), (Z.ltb_spec g (2 * ry)),
           (Z.even q); lia.
Qed.

Lemma spacing_pos x : 0 < spacing x.
Proof. unfold spacing. apply pow2_pos. lia. Qed.

Lemma rounded_nonneg x : 0 <= x -> 0 <= rounded x.
Proof.
  intros Hx. unfold rounded. pose proof (spacing_pos x).
  destruct (nearest_even_bounds x (spacing x)) as [[Hlo _] _]; [lia|lia|].
  assert (0 <= x / spacing x) by (apply Z.div_pos; lia). nia.
Qed.

Lemma rounded_fix x : 0 <= x -> x mod spacing x = 0 -> rounded x = x.
Proof.
  intros Hx Hmod. unfold rounded. pose proof (spacing_pos x).
  destruct (nearest_even_bounds x (spacing x)) as [_ Heq]; [lia|lia|].
  rewrite (Heq Hmod).
  pose proof (Z.div_mod x (spacing x) ltac:(lia)). lia.
Qed.

Lemma rounded_mono x y : 0 <= x <= y -> rounded x <= rounded y.
Proof.
  intros [Hx Hxy]. unfold rounded.
  pose proof (Z.log2_le_mono x y Hxy) as Hlog.
  pose proof (Z.log2_nonneg x) as Hlx.
  unfold spacing.
  set (kx := Z.max (Z.log2 x + 1 - 53) 1074).
  set (ky := Z.max (Z.log2 y + 1 - 53) 1074).
  assert (Hk : kx <= ky) by (unfold kx, ky; lia).
  assert (Hgx : 0 < 2 ^ kx) by (apply pow2_pos; unfold kx; lia).
  assert (Hgy : 0 < 2 ^ ky) by (apply pow2_pos; unfold ky; lia).
  destruct (Z.eq_dec kx ky) as [Heq|Hne].
  - rewrite Heq. apply Z.mul_le_mono_nonneg_r; [lia|].
    apply nearest_even_mono; lia.
  - (* a power of two lies between them *)
    assert (Hky : ky = Z.log2 y - 52) by (unfold kx, ky in *; lia).
    assert (Hlt : Z.log2 x < Z.log2 y) by (unfold kx, ky in *; lia).
    assert (Hy : 0 < y).
    { destruct (Z.eq_dec y 0) as [->|]; [|lia]. simpl in Hlt. lia. }
    pose proof (Z.log2_spec y Hy) as [Hylo _].
    assert (Hxb : x < 2 ^ Z.log2 y).
    { destruct (Z.eq_dec x 0) as [->|Hx0]; [apply pow2_pos; lia|].
      pose proof (Z.log2_spec x ltac:(lia)) as [_ Hxhi].
      assert (2 ^ Z.succ (Z.log2 x) <= 2 ^ Z.log2 y)
        by (apply Z.pow_le_mono_r; lia).
      lia. }
    set (B := 2 ^ Z.log2 y) in *.
    assert (HBy : B = 2 ^ 52 * 2 ^ ky).
    { unfold B. rewrite <- Z.pow_add_r by (unfold ky; lia). f_equal. lia. }
    assert (HBx : B = 2 ^ (Z.log2 y - kx) * 2 ^ kx).
    { unfold B. rewrite <- Z.pow_add_r by (unfold kx, ky in *; lia). f_equal. lia. }
    apply Z.le_trans with B.
    + destruct (nearest_even_bounds x (2 ^ kx)) as [[_ Hhi] _]; [lia|lia|].
      assert (x / 2 ^ kx < 2 ^ (Z.log2 y - kx)).
      { apply Z.div_lt_upper_bound; [lia|]. rewrite Z.mul_comm, <- HBx. exact Hxb. }
      rewrite HBx. apply Z.mul_le_mono_nonneg_r; lia.
    + destruct (nearest_even_bounds y (2 ^ ky)) as [[Hlo _] _]; [lia|lia|].
      assert (2 ^ 52 <= y / 2 ^ ky).
      { apply Z.div_le_lower_bound; [lia|]. rewrite Z.mul_comm, <- HBy. exact Hylo. }
      rewrite HBy. apply Z.mul_le_mono_nonneg_r; lia.
Qed.

(** *** Normalisation *)

Lemma iter_xO m d : Zpos (Pos.iter xO m d) = Zpos m * 2 ^ Zpos d.
Proof.
  induction d as [|d IH] using Pos.peano_ind.
  - simpl. lia.
  - rewrite Pos.iter_succ, Pos2Z.inj_succ, Z.pow_succ_r by lia.
    rewrite Pos2Z.inj_xO, IH. lia.
Qed.

Lemma shl_align_le m e e' :
  e' <= e ->
  Zpos (fst (shl_align m e e')) = Zpos m * 2 ^ (e - e')
  /\ snd (shl_align m e e') = e'.
Proof.
  intros Hle. unfold shl_align.
  destruct (e' - e) as [|p|p] eqn:Hd; try lia; cbn [fst snd].
  - replace (e - e') with 0 by lia. split; lia.
  - rewrite iter_xO. replace (e - e') with (Zpos p) by lia. auto.
Qed.

Lemma scaled_shift m e k :
  0 <= k -> - bias <= e - k -> scaled (m * 2 ^ k) (e - k) = scaled m e.
Proof.
  intros Hk He. unfold scaled.
  replace (e + bias) with (k + (e - k + bias)) by lia.
  rewrite (Z.pow_add_r 2 k (e - k + bias)) by lia. ring.
Qed.

Lemma round_spec s m e :
  - bias <= e ->
  match binary_round prec emax s m e with
  | S754_zero s' => s' = s /\ rounded (scaled (Zpos m) e) = 0
  | S754_finite s' m' e' =>
      s' = s /\ bounded prec emax m' e' = true
      /\ scaled (Zpos m') e' = rounded (scaled (Zpos m) e)
  | S754_infinity s' => s' = s /\ overflow <= rounded (scaled (Zpos m) e)
  | S754_nan => False
  end.
Proof.
  intros Hbias. unfold binary_round.
  set (e1 := fexp prec emax (Zpos (digits2_pos m) + e)).
  assert (He1 : e1 = Z.max (Zpos (digits2_pos m) + e - 53) (-1074)) by apply fexp_eq.
  destruct (Z_le_gt_dec e e1) as [Hle|Hgt].
  - (* nothing to align *)
    assert (Hsame : shl_align m e e1 = (m, e)).
    { unfold shl_align. destruct (e1 - e) eqn:Hd; try reflexivity. lia. }
    rewrite Hsame. now apply round_aux_spec.
  - destruct (shl_align_le m e e1 ltac:(lia)) as [Hm He].
    destruct (shl_align m e e1) as [mz ez]. cbn [fst snd] in Hm, He. subst ez.
    assert (Hval : scaled (Zpos mz) e1 = scaled (Zpos m) e).
    { rewrite Hm. replace e1 with (e - (e - e1)) at 2 by lia.
      apply scaled_shift; unfold bias in *; lia. }
    assert (Hdig : Zpos (digits2_pos mz) = Zpos (digits2_pos m) + (e - e1)).
    { apply digits2_unique. rewrite Hm.
      pose proof (digits2_bounds m) as [Dlo Dhi].
      assert (0 < 2 ^ (e - e1)) by (apply pow2_pos; lia).
      replace (Zpos (digits2_pos m) + (e - e1) - 1)
        with (Zpos (digits2_pos m) - 1 + (e - e1)) by lia.
      rewrite !Z.pow_add_r by lia. split; nia. }
    rewrite <- Hval. apply round_aux_spec; [unfold bias in *; lia|].
    rewrite Hdig. replace (Zpos (digits2_pos m) + (e - e1) + e1)
      with (Zpos (digits2_pos m) + e) by lia.
    fold e1. lia.
Qed.

(** *** Signs *)

Lemma rounded_0 : rounded 0 = 0.
Proof. reflexivity. Qed.

Lemma nearest_nonneg x : 0 <= x -> nearest x = rounded x.
Proof.
  intros Hx. unfold nearest.
  assert (H : (x <? 0) = false) by (apply Z.ltb_ge; lia). now rewrite H.
Qed.

Lemma nearest_neg x : x <= 0 -> nearest x = - rounded (- x).
Proof.
  intros Hx. unfold nearest. destruct (Z.ltb_spec x 0); [reflexivity|].
  assert (x = 0) by lia. subst x. reflexivity.
Qed.

Lemma nearest_opp x : nearest (- x) = - nearest x.
Proof.
  destruct (Z.lt_trichotomy x 0) as [H|[->|H]].
  - rewrite (nearest_nonneg (- x)), (nearest_neg x) by lia. lia.
  - reflexivity.
  - rewrite (nearest_neg (- x)), (nearest_nonneg x) by lia.
    now rewrite Z.opp_involutive.
Qed.

Lemma nearest_mono x y : x <= y -> nearest x <= nearest y.
Proof.
  intros Hxy.
  destruct (Z_le_gt_dec 0 x) as [Hx|Hx].
  - rewrite !nearest_nonneg by lia. apply rounded_mono. lia.
  - destruct (Z_le_gt_dec 0 y) as [Hy|Hy].
    + rewrite (nearest_neg x), (nearest_nonneg y) by lia.
      pose proof (rounded_nonneg (- x)). pose proof (rounded_nonneg y). lia.
    + rewrite !nearest_neg by lia.
      assert (rounded (- y) <= rounded (- x)) by (apply rounded_mono; lia). lia.
Qed.

Lemma normalize_rounds M e sz :
  - bias <= e ->
  rounds_to (M * 2 ^ (e + bias)) (binary_normalize prec emax M e sz).
Proof.
  intros Hbias.
  assert (Hpow : 0 < 2 ^ (e + bias)) by (apply pow2_pos; lia).
  destruct M as [|m|m]; cbn [binary_normalize].
  - cbn [rounds_to]. reflexivity.
  - pose proof (round_spec false m e Hbias) as H.
    assert (Hx : 0 < Zpos m * 2 ^ (e + bias)) by nia.
    pose proof (nearest_nonneg (Zpos m * 2 ^ (e + bias)) ltac:(lia)) as Hn.
    fold (scaled (Zpos m) e) in Hn, Hx.
    pose proof (rounded_nonneg (scaled (Zpos m) e) ltac:(lia)) as Hr.
    fold (scaled (Zpos m) e).
    destruct (binary_round prec emax false m e) as [s'|s'| |s' m' e'];
      cbn [rounds_to]; rewrite ?Hn.
    + tauto.
    + destruct H as (-> & Hov). split; [symmetry; apply Z.ltb_ge; lia | lia].
    + exact H.
    + destruct H as (-> & Hb & Hv). split; [assumption | exact Hv].
  - pose proof (round_spec true m e Hbias) as H.
    assert (Hx : 0 < Zpos m * 2 ^ (e + bias)) by nia.
    pose proof (nearest_nonneg (Zpos m * 2 ^ (e + bias)) ltac:(lia)) as Hn.
    fold (scaled (Zpos m) e) in Hn, Hx.
    pose proof (rounded_nonneg (scaled (Zpos m) e) ltac:(lia)) as Hr.
    replace (Zneg m * 2 ^ (e + bias)) with (- scaled (Zpos m) e)
      by (unfold scaled; lia).
    destruct (binary_round prec emax true m e) as [s'|s'| |s' m' e'];
      cbn [rounds_to]; rewrite ?nearest_opp, ?Hn.
    + destruct H as [_ ->]. reflexivity.
    + destruct H as (-> & Hov). split; [symmetry; apply Z.ltb_lt; lia | lia].
    + exact H.
    + destruct H as (-> & Hb & Hv). split; [assumption|].
      cbn [value_of cond_Zopp]. now rewrite Hv.
Qed.

(** *** Valid numbers *)

Lemma bounded_exponent m e :
  bounded prec emax m e = true ->
  -1074 <= e <= 971
  /\ fexp prec emax (Zpos (digits2_pos m) + e) = e
  /\ Zpos m < 2 ^ 53
  /\ (-1074 < e -> 2 ^ 52 <= Zpos m).
Proof.
  unfold bounded, canonical_mantissa. intros H.
  apply andb_true_iff in H as [Hc He].
  apply Z.eqb_eq in Hc. apply Z.leb_le in He. change (emax - prec) with 971 in He.
  pose proof Hc as Hc'. rewrite fexp_eq in Hc'.
  pose proof (digits2_bounds m) as [Dlo Dhi].
  set (d := Zpos (digits2_pos m)) in *.
  assert (Hd : d <= 53) by lia.
  split; [lia|]. split; [assumption|]. split.
  - assert (2 ^ d <= 2 ^ 53) by (apply Z.pow_le_mono_r; lia). lia.
  - intros Hn. assert (d = 53) by lia.
    replace 52 with (d - 1) by lia. exact Dlo.
Qed.

Lemma scaled_pos m e : - bias <= e -> 0 < scaled (Zpos m) e.
Proof.
  intros He. unfold scaled.
  assert (0 < 2 ^ (e + bias)) by (apply pow2_pos; lia). nia.
Qed.

Lemma scaled_fix m e :
  bounded prec emax m e = true ->
  rounded (scaled (Zpos m) e) = scaled (Zpos m) e.
Proof.
  intros Hb. destruct (bounded_exponent m e Hb) as (He & Hfix & _).
  assert (Hbias : - bias <= e) by (unfold bias; lia).
  apply rounded_fix.
  - pose proof (scaled_pos m e Hbias). lia.
  - rewrite spacing_scaled, Hfix by assumption. unfold scaled.
    apply Z.mod_mul. pose proof (pow2_pos (e + bias)). lia.
Qed.

Lemma value_fix x : valid_binary x = true -> nearest (value_of x) = value_of x.
Proof.
  destruct x as [s|s| |s m e]; try reflexivity.
  cbn [SpecFloat.valid_binary value_of]. intros Hb.
  destruct (bounded_exponent m e Hb) as (He & _).
  pose proof (scaled_pos m e ltac:(unfold bias; lia)).
  destruct s; cbn [cond_Zopp].
  - rewrite nearest_opp, nearest_nonneg by lia. now rewrite scaled_fix.
  - rewrite nearest_nonneg by lia. now apply scaled_fix.
Qed.

Lemma value_below_overflow x :
  valid_binary x = true -> Z.abs (value_of x) < overflow.
Proof.
  destruct x as [s|s| |s m e]; cbn [value_of];
    try (intros _; apply pow2_pos; unfold bias; lia).
  cbn [SpecFloat.valid_binary]. intros Hb.
  destruct (bounded_exponent m e Hb) as (He & _ & Hm & _).
  assert (Hlt : scaled (Zpos m) e < overflow).
  { unfold scaled, overflow.
    replace (1024 + bias) with (53 + (971 + bias)) by lia.
    rewrite (Z.pow_add_r 2 53 (971 + bias)) by (unfold bias; lia).
    assert (2 ^ (e + bias) <= 2 ^ (971 + bias))
      by (apply Z.pow_le_mono_r; unfold bias; lia).
    assert (0 < 2 ^ (e + bias)) by (apply pow2_pos; unfold bias; lia).
    nia. }
  pose proof (scaled_pos m e ltac:(unfold bias; lia)).
  destruct s; cbn [cond_Zopp]; lia.
Qed.

(** *** Comparison *)

Lemma scaled_lt_exponent m1 e1 m2 e2 :
  bounded prec emax m1 e1 = true -> bounded prec emax m2 e2 = true ->
  e1 < e2 -> scaled (Zpos m1) e1 < scaled (Zpos m2) e2.
Proof.
  intros H1 H2 Hlt.
  destruct (bounded_exponent m1 e1 H1) as (He1 & _ & Hm1 & _).
  destruct (bounded_exponent m2 e2 H2) as (He2 & _ & _ & Hm2).
  specialize (Hm2 ltac:(lia)). unfold scaled.
  assert (Hp1 : 0 < 2 ^ (e1 + bias)) by (apply pow2_pos; unfold bias; lia).
  assert (Hstep : 2 * 2 ^ (e1 + bias) <= 2 ^ (e2 + bias)).
  { rewrite <- Z.pow_succ_r by (unfold bias; lia).
    apply Z.pow_le_mono_r; lia. }
  change (2 ^ 53) with (2 * 2 ^ 52) in Hm1. nia.
Qed.

Lemma scaled_compare m1 e1 m2 e2 :
  bounded prec emax m1 e1 = true -> bounded prec emax m2 e2 = true ->
  match Z.compare e1 e2 with
  | Lt => Lt
  | Gt => Gt
  | Eq => Pos.compare_cont Eq m1 m2
  end = (scaled (Zpos m1) e1 ?= scaled (Zpos m2) e2).
Proof.
  intros H1 H2. destruct (Z.compare_spec e1 e2) as [->|Hlt|Hgt].
  - destruct (bounded_exponent m2 e2 H2) as (He2 & _).
    assert (0 < 2 ^ (e2 + bias)) by (apply pow2_pos; unfold bias; lia).
    unfold scaled. change (Pos.compare_cont Eq m1 m2) with (Zpos m1 ?= Zpos m2).
    symmetry. destruct (Z.compare_spec (Zpos m1) (Zpos m2)) as [Heq|Hl|Hg].
    + rewrite Heq. apply Z.compare_refl.
    + apply Z.compare_lt_iff. nia.
    + apply Z.compare_gt_iff. nia.
  - symmetry. apply Z.compare_lt_iff. now apply scaled_lt_exponent.
  - symmetry. apply Z.compare_gt_iff. now apply scaled_lt_exponent.
Qed.

Lemma compare_value x y :
  finite x = true -> finite y = true ->
  valid_binary x = true -> valid_binary y = true ->
  SFcompare x y = Some (value_of x ?= value_of y).
Proof.
  destruct x as [sx|sx| |sx mx ex], y as [sy|sy| |sy my ey]; try discriminate;
    intros _ _ Hx Hy; cbn [SpecFloat.valid_binary] in Hx, Hy; cbn [SFcompare value_of].
  - reflexivity.
  - destruct (bounded_exponent my ey Hy) as (He & _).
    pose proof (scaled_pos my ey ltac:(unfold bias; lia)).
    destruct sy; cbn [cond_Zopp]; f_equal; symmetry;
      [apply Z.compare_gt_iff | apply Z.compare_lt_iff]; lia.
  - destruct (bounded_exponent mx ex Hx) as (He & _).
    pose proof (scaled_pos mx ex ltac:(unfold bias; lia)).
    destruct sx; cbn [cond_Zopp]; f_equal; symmetry;
      [apply Z.compare_lt_iff | apply Z.compare_gt_iff]; lia.
  - destruct (bounded_exponent mx ex Hx) as (Hex & _).
    destruct (bounded_exponent my ey Hy) as (Hey & _).
    pose proof (scaled_pos mx ex ltac:(unfold bias; lia)).
    pose proof (scaled_pos my ey ltac:(unfold bias; lia)).
    destruct sx, sy; cbn [cond_Zopp]; f_equal.
    + rewrite Z.compare_opp.
      rewrite <- (scaled_compare my ey mx ex Hy Hx).
      rewrite (Z.compare_antisym ey ex).
      destruct (ey ?= ex); try reflexivity. cbn [CompOpp].
      change (Pos.compare_cont Eq mx my) with (Pos.compare mx my).
      change (Pos.compare_cont Eq my mx) with (Pos.compare my mx).
      now rewrite (Pos.compare_antisym mx my).
    + symmetry. apply Z.compare_lt_iff. lia.
    + symmetry. apply Z.compare_gt_iff. lia.
    + now apply scaled_compare.
Qed.

Lemma SFleb_value x y :
  finite x = true -> finite y = true ->
  valid_binary x = true -> valid_binary y = true ->
  SFleb x y = true <-> value_of x <= value_of y.
Proof.
  intros Fx Fy Vx Vy. unfold SFleb. rewrite (compare_value x y Fx Fy Vx Vy).
  destruct (Z.compare_spec (value_of x) (value_of y)); split; intros; try lia;
    try reflexivity; discriminate.
Qed.

Lemma SFltb_value x y :
  finite x = true -> finite y = true ->
  valid_binary x = true -> valid_binary y = true ->
  SFltb x y = true <-> value_of x < value_of y.
Proof.
  intros Fx Fy Vx Vy. unfold SFltb. rewrite (compare_value x y Fx Fy Vx Vy).
  destruct (Z.compare_spec (value_of x) (value_of y)); split; intros; try lia;
    try reflexivity; discriminate.
Qed.

(** Equal values of the same sign are the same number. *)
Lemma value_inj x y :
  finite x = true -> finite y = true ->
  valid_binary x = true -> valid_binary y = true ->
  value_of x = value_of y -> value_of x <> 0 -> x = y.
Proof.
  intros Fx Fy Vx Vy Heq Hne.
  pose proof (compare_value x y Fx Fy Vx Vy) as Hc.
  rewrite Heq, Z.compare_refl in Hc.
  destruct x as [sx|sx| |sx mx ex]; try discriminate.
  - now elim Hne.
  - symmetry. revert Hc. apply FloatFacts.SFcompare_Eq_finite.
Qed.

(** *** The operations *)

Lemma rounds_to_valid x r :
  rounds_to x r -> valid_binary r = true.
Proof. destruct r; cbn; tauto. Qed.

Lemma rounds_to_finite x r :
  rounds_to x r -> Z.abs (nearest x) < overflow ->
  finite r = true /\ value_of r = nearest x.
Proof.
  destruct r as [s|s| |s m e]; cbn [rounds_to finite value_of].
  - intros ->. auto.
  - intros [_ H]. lia.
  - tauto.
  - intros [_ H]. auto.
Qed.

Lemma rounds_to_self x :
  finite x = true -> valid_binary x = true -> rounds_to (value_of x) x.
Proof.
  intros Fx Vx. pose proof (value_fix x Vx) as Hfix.
  destruct x as [s|s| |s m e]; try discriminate; cbn [rounds_to].
  - reflexivity.
  - split; [exact Vx | now rewrite Hfix].
Qed.

Lemma align_sum sx mx ex sy my ey (op : Z -> Z -> Z) :
  (forall a b c, op a b * c = op (a * c) (b * c)) ->
  -1074 <= ex -> -1074 <= ey ->
  op (cond_Zopp sx (Zpos (fst (shl_align mx ex (Z.min ex ey)))))
     (cond_Zopp sy (Zpos (fst (shl_align my ey (Z.min ex ey)))))
  * 2 ^ (Z.min ex ey + bias) =
  op (value_of (S754_finite sx mx ex)) (value_of (S754_finite sy my ey)).
Proof.
  intros Hop Hex Hey. set (ez := Z.min ex ey).
  destruct (shl_align_le mx ex ez ltac:(unfold ez; lia)) as [-> _].
  destruct (shl_align_le my ey ez ltac:(unfold ez; lia)) as [-> _].
  assert (Ha : 2 ^ (ex + bias) = 2 ^ (ex - ez) * 2 ^ (ez + bias)).
  { rewrite <- Z.pow_add_r by (unfold ez, bias; lia). f_equal. lia. }
  assert (Hb : 2 ^ (ey + bias) = 2 ^ (ey - ez) * 2 ^ (ez + bias)).
  { rewrite <- Z.pow_add_r by (unfold ez, bias; lia). f_equal. lia. }
  rewrite Hop. cbn [value_of]. unfold scaled. rewrite Ha, Hb.
  destruct sx, sy; cbn [cond_Zopp]; f_equal; ring.
Qed.

Lemma add_rounds x y :
  finite x = true -> finite y = true ->
  valid_binary x = true -> valid_binary y = true ->
  rounds_to (value_of x + value_of y) (SFadd prec emax x y).
Proof.
  destruct x as [sx|sx| |sx mx ex], y as [sy|sy| |sy my ey]; try discriminate;
    intros _ _ Vx Vy.
  - destruct sx, sy; reflexivity.
  - cbn [SFadd value_of]. now apply (rounds_to_self (S754_finite sy my ey)).
  - cbn [SFadd]. replace (value_of (S754_finite sx mx ex) + value_of (S754_zero sy))
      with (value_of (S754_finite sx mx ex)) by (cbn [value_of]; lia).
    now apply rounds_to_self.
  - cbn [SpecFloat.valid_binary] in Vx, Vy.
    destruct (bounded_exponent mx ex Vx) as (Hex & _).
    destruct (bounded_exponent my ey Vy) as (Hey & _).
    cbn [SFadd]. rewrite <- (align_sum sx mx ex sy my ey Z.add) by (intros; lia || ring).
    apply normalize_rounds. unfold bias. lia.
Qed.

Lemma sub_rounds x y :
  finite x = true -> finite y = true ->
  valid_binary x = true -> valid_binary y = true ->
  rounds_to (value_of x - value_of y) (SFsub prec emax x y).
Proof.
  destruct x as [sx|sx| |sx mx ex], y as [sy|sy| |sy my ey]; try discriminate;
    intros _ _ Vx Vy.
  - destruct sx, sy; reflexivity.
  - cbn [SFsub].
    replace (value_of (S754_zero sx) - value_of (S754_finite sy my ey))
      with (value_of (S754_finite (negb sy) my ey))
      by (cbn [value_of]; destruct sy; cbn [negb cond_Zopp]; lia).
    now apply rounds_to_self.
  - cbn [SFsub]. replace (value_of (S754_finite sx mx ex) - value_of (S754_zero sy))
      with (value_of (S754_finite sx mx ex)) by (cbn [value_of]; lia).
    now apply rounds_to_self.
  - cbn [SpecFloat.valid_binary] in Vx, Vy.
    destruct (bounded_exponent mx ex Vx) as (Hex & _).
    destruct (bounded_exponent my ey Vy) as (Hey & _).
    cbn [SFsub]. rewrite <- (align_sum sx mx ex sy my ey Z.sub) by (intros; lia || ring).
    apply normalize_rounds. unfold bias. lia.
Qed.

Lemma signed_rounds s X r :
  0 < X ->
  match r with
  | S754_zero s' => s' = s /\ rounded X = 0
  | S754_finite s' m' e' =>
      s' = s /\ bounded prec emax m' e' = true /\ scaled (Zpos m') e' = rounded X
  | S754_infinity s' => s' = s /\ overflow <= rounded X
  | S754_nan => False
  end ->
  rounds_to (cond_Zopp s X) r.
Proof.
  intros HX H. pose proof (rounded_nonneg X ltac:(lia)) as Hr.
  assert (Hn : nearest (cond_Zopp s X) = cond_Zopp s (rounded X)).
  { destruct s; cbn [cond_Zopp].
    - rewrite nearest_opp, nearest_nonneg by lia. reflexivity.
    - apply nearest_nonneg. lia. }
  destruct r as [s'|s'| |s' m' e']; cbn [rounds_to]; rewrite ?Hn.
  - destruct H as [_ ->]. now destruct s.
  - destruct H as (-> & Hov). split.
    + destruct s; cbn [cond_Zopp]; symmetry;
        [apply Z.ltb_lt | apply Z.ltb_ge]; lia.
    + destruct s; cbn [cond_Zopp]; lia.
  - exact H.
  - destruct H as (-> & Hb & Hv). split; [assumption|].
    cbn [value_of]. now rewrite Hv.
Qed.

Lemma digits2_mul mx my :
  Zpos (digits2_pos mx) + Zpos (digits2_pos my) - 1
  <= Zpos (digits2_pos (mx * my)).
Proof.
  pose proof (digits2_bounds mx) as [Xlo _].
  pose proof (digits2_bounds my) as [Ylo _].
  pose proof (digits2_bounds (mx * my)) as [_ Phi].
  set (dx := Zpos (digits2_pos mx)) in *.
  set (dy := Zpos (digits2_pos my)) in *.
  set (D := Zpos (digits2_pos (mx * my))) in *.
  assert (0 < dx) by (unfold dx; lia). assert (0 < dy) by (unfold dy; lia).
  destruct (Z_le_gt_dec (dx + dy - 1) D) as [|Hgt]; [assumption|].
  assert (H1 : 2 ^ (dx - 1) * 2 ^ (dy - 1) <= Zpos mx * Zpos my).
  { apply Z.mul_le_mono_nonneg; try assumption; apply Z.pow_nonneg; lia. }
  rewrite <- Z.pow_add_r in H1 by lia.
  assert (0 <= D) by (unfold D; lia).
  assert (2 ^ D <= 2 ^ (dx - 1 + (dy - 1))) by (apply Z.pow_le_mono_r; lia).
  rewrite Pos2Z.inj_mul in Phi. lia.
Qed.

Lemma mul_rounds x y :
  finite x = true -> finite y = true ->
  valid_binary x = true -> valid_binary y = true ->
  exists p,
    p * 2 ^ bias = value_of x * value_of y
    /\ rounds_to p (SFmul prec emax x y).
Proof.
  assert (Hone : 0 < 2 ^ bias) by (apply pow2_pos; unfold bias; lia).
  destruct x as [sx|sx| |sx mx ex], y as [sy|sy| |sy my ey]; try discriminate;
    intros _ _ Vx Vy; cbn [SFmul];
    try (exists 0; split; [cbn [value_of]; lia | reflexivity]).
  cbn [SpecFloat.valid_binary] in Vx, Vy.
  destruct (bounded_exponent mx ex Vx) as (Hex & Hfx & Hmx & Hnx).
  destruct (bounded_exponent my ey Vy) as (Hey & Hfy & Hmy & Hny).
  exists (cond_Zopp (xorb sx sy) (scaled (Zpos (mx * my)) (ex + ey))). split.
  - cbn [value_of]. unfold scaled. rewrite Pos2Z.inj_mul.
    replace (ex + ey + bias) with ((ex + bias) + ey) by lia.
    assert (Hs : 2 ^ (ex + bias + ey) * 2 ^ bias = 2 ^ (ex + bias) * 2 ^ (ey + bias)).
    { rewrite <- !Z.pow_add_r by (unfold bias; lia). f_equal. lia. }
    assert (E : Zpos mx * 2 ^ (ex + bias) * (Zpos my * 2 ^ (ey + bias)) =
                Zpos mx * Zpos my * 2 ^ (ex + bias + ey) * 2 ^ bias).
    { rewrite <- (Z.mul_assoc _ (2 ^ (ex + bias + ey))), Hs. ring. }
    destruct sx, sy; cbn [xorb cond_Zopp]; lia.
  - apply signed_rounds.
    + apply scaled_pos. unfold bias. lia.
    + apply round_aux_spec; [unfold bias; lia|].
      rewrite fexp_eq. pose proof (digits2_mul mx my) as HD.
      rewrite fexp_eq in Hfx, Hfy.
      pose proof (digits2_bounds mx) as [Xlo Xhi].
      pose proof (digits2_bounds my) as [Ylo Yhi].
      set (dx := Zpos (digits2_pos mx)) in *.
      set (dy := Zpos (digits2_pos my)) in *.
      assert (0 < dx) by (unfold dx; lia). assert (0 < dy) by (unfold dy; lia).
      lia.
Qed.

(** *** On numbers *)

Lemma SFeqb_value x y :
  finite x = true -> finite y = true ->
  valid_binary x = true -> valid_binary y = true ->
  SFeqb x y = true <-> value_of x = value_of y.
Proof.
  intros Fx Fy Vx Vy. unfold SFeqb. rewrite (compare_value x y Fx Fy Vx Vy).
  destruct (Z.compare_spec (value_of x) (value_of y)); split; intros; try lia;
    try reflexivity; discriminate.
Qed.

Lemma leb_value a b :
  finite (Prim2SF a) = true -> finite (Prim2SF b) = true ->
  (a <=? b)%float = true <-> value_of (Prim2SF a) <= value_of (Prim2SF b).
Proof.
  intros Fa Fb. rewrite leb_spec.
  apply SFleb_value; try assumption; apply Prim2SF_valid.
Qed.

Lemma leb_finite lo x hi :
  finite (Prim2SF lo) = true -> finite (Prim2SF hi) = true ->
  (lo <=? x)%float = true -> (x <=? hi)%float = true ->
  finite (Prim2SF x) = true.
Proof.
  rewrite !leb_spec. unfold SFleb.
  destruct (Prim2SF x) as [s|s| |s m e]; try reflexivity;
    destruct (Prim2SF lo) as [sl|sl| |sl ml el]; try discriminate;
    destruct (Prim2SF hi) as [sh|sh| |sh mh eh]; try discriminate;
    cbn [SFcompare]; destruct s; discriminate.
Qed.

Lemma one_value : value_of (Prim2SF 1) = 2 ^ bias.
Proof.
  rewrite Prim2SF_one. cbn [value_of cond_Zopp]. unfold scaled, bias.
  change (Zpos 4503599627370496) with (2 ^ 52).
  change (-52 + 2148) with 2096.
  rewrite <- Z.pow_add_r by lia. reflexivity.
Qed.

Lemma zero_value : value_of (Prim2SF 0) = 0.
Proof. reflexivity. Qed.

Lemma bound_value : value_of (Prim2SF 10000) = 10000 * 2 ^ bias.
Proof.
  change (Prim2SF 10000) with (S754_finite false 5497558138880000 (-39)).
  cbn [value_of cond_Zopp]. unfold scaled, bias.
  change (Zpos 5497558138880000) with (10000 * 2 ^ 39).
  change (-39 + 2148) with 2109.
  rewrite <- Z.mul_assoc, <- Z.pow_add_r by lia. reflexivity.
Qed.

Lemma in_range_value x :
  (0 <=? x)%float = true -> (x <=? 10000)%float = true ->
  finite (Prim2SF x) = true
  /\ 0 <= value_of (Prim2SF x) <= 10000 * 2 ^ bias.
Proof.
  intros H0 H1.
  assert (Fx : finite (Prim2SF x) = true)
    by (apply (leb_finite 0 x 10000); auto).
  split; [assumption|].
  apply leb_value in H0, H1; try assumption; try reflexivity.
  rewrite zero_value in H0. rewrite bound_value in H1. lia.
Qed.

Lemma unit_value c :
  (0 <=? c)%float = true -> (c <=? 1)%float = true ->
  finite (Prim2SF c) = true
  /\ 0 <= value_of (Prim2SF c) <= 2 ^ bias.
Proof.
  intros H0 H1.
  assert (Fx : finite (Prim2SF c) = true)
    by (apply (leb_finite 0 c 1); auto).
  split; [assumption|].
  apply leb_value in H0, H1; try assumption; try reflexivity.
  rewrite zero_value in H0. rewrite one_value in H1. lia.
Qed.

(** A value no larger than that of a number does not overflow. *)
Lemma nearest_bounded x hi :
  valid_binary hi = true -> Z.abs x <= value_of hi ->
  Z.abs (nearest x) <= value_of hi /\ Z.abs (nearest x) < overflow.
Proof.
  intros Vh Hx. pose proof (value_fix hi Vh) as Hfix.
  pose proof (value_below_overflow hi Vh) as Hov.
  pose proof (nearest_mono x (value_of hi) ltac:(lia)) as Hup.
  pose proof (nearest_mono (- value_of hi) x ltac:(lia)) as Hlo.
  rewrite nearest_opp in Hlo. rewrite Hfix in *. lia.
Qed.

(** [d * 1] is [d]. *)
Lemma mul_one d : (d * 1)%float = d.
Proof.
  apply Prim2SF_inj. rewrite mul_spec. unfold SF64mul.
  pose proof (Prim2SF_valid d) as Vd.
  destruct (Prim2SF d) as [s|s| |s m e] eqn:Hd;
    try (rewrite Prim2SF_one; cbn [SFmul xorb]; try destruct s; reflexivity).
  destruct (mul_rounds (S754_finite s m e) (Prim2SF 1) eq_refl eq_refl Vd
              (Prim2SF_valid 1)) as (p & Hp & Hr).
  rewrite one_value in Hp.
  assert (Hone : 0 < 2 ^ bias) by (apply pow2_pos; unfold bias; lia).
  assert (p = value_of (S754_finite s m e)) by nia. subst p.
  destruct (rounds_to_finite _ _ Hr) as [Fr Hv].
  { rewrite (value_fix _ Vd). now apply value_below_overflow. }
  rewrite (value_fix _ Vd) in Hv.
  apply value_inj; try assumption; try reflexivity.
  - now apply (rounds_to_valid _ _ Hr).
  - rewrite Hv. cbn [SpecFloat.valid_binary] in Vd.
    destruct (bounded_exponent m e Vd) as (He & _).
    pose proof (scaled_pos m e ltac:(unfold bias; lia)).
    cbn [value_of]. destruct s; cbn [cond_Zopp]; lia.
Qed.

End RoundingFacts.

(** ** Interpolation on binary64 numbers *)

Module InterpolationFacts.
Import Binary64 FloatFacts RoundingFacts MathUtils.
Local Open Scope Z_scope.

Lemma twice_bound_value : value_of (Prim2SF 20000) = 2 * (10000 * 2 ^ bias).
Proof.
  change (Prim2SF 20000) with (S754_finite false 5497558138880000 (-38)).
  cbn [value_of cond_Zopp]. unfold scaled, bias.
  change (Zpos 5497558138880000) with (10000 * 2 ^ 39).
  change (-38 + 2148) with (1 + 2109).
  rewrite (Z.pow_add_r 2 1 2109) by lia.
  change 2148 with (39 + 2109). rewrite (Z.pow_add_r 2 39 2109) by lia.
  change (2 ^ 1) with 2. ring.
Qed.

(** The three operations of [start + (end - start) * c] on positions in the
    rectangle and a coefficient between 0 and 1: none overflows, and the
    values are the roundings of the exact results. *)
Lemma blend_value a b c :
  (0 <=? a)%float = true -> (a <=? 10000)%float = true ->
  (0 <=? b)%float = true -> (b <=? 10000)%float = true ->
  (0 <=? c)%float = true -> (c <=? 1)%float = true ->
  exists vd vp,
    vd = nearest (value_of (Prim2SF b) - value_of (Prim2SF a))
    /\ finite (Prim2SF (b - a)%float) = true
    /\ value_of (Prim2SF (b - a)%float) = vd
    /\ (0 <= vd -> 0 <= vp <= vd)
    /\ (vd <= 0 -> vd <= vp <= 0)
    /\ (value_of (Prim2SF c) = 2 ^ bias -> vp = vd)
    /\ (value_of (Prim2SF c) = 0 -> vp = 0)
    /\ Z.abs vd <= 10000 * 2 ^ bias
    /\ finite (Prim2SF (a + (b - a) * c)%float) = true
    /\ value_of (Prim2SF (a + (b - a) * c)%float) = nearest (value_of (Prim2SF a) + vp).
Proof.
  intros Ha0 Ha1 Hb0 Hb1 Hc0 Hc1.
  destruct (in_range_value a Ha0 Ha1) as [Fa Ra].
  destruct (in_range_value b Hb0 Hb1) as [Fb Rb].
  destruct (unit_value c Hc0 Hc1) as [Fc Rc].
  assert (Hone : 0 < 2 ^ bias) by (apply pow2_pos; unfold bias; lia).
  set (va := value_of (Prim2SF a)) in *. set (vb := value_of (Prim2SF b)) in *.
  set (vc := value_of (Prim2SF c)) in *.
  (* the difference *)
  pose proof (sub_rounds (Prim2SF b) (Prim2SF a) Fb Fa
                (Prim2SF_valid b) (Prim2SF_valid a)) as Hd.
  rewrite <- sub_spec in Hd. fold va vb in Hd.
  destruct (nearest_bounded (vb - va) (Prim2SF 10000) (Prim2SF_valid _)) as [Hdb Hdo].
  { rewrite bound_value. lia. }
  rewrite bound_value in Hdb.
  destruct (rounds_to_finite _ _ Hd Hdo) as [Fd Vd].
  set (vd := nearest (vb - va)) in *.
  (* the product *)
  destruct (mul_rounds (Prim2SF (b - a)%float) (Prim2SF c) Fd Fc
              (Prim2SF_valid _) (Prim2SF_valid _)) as (p & Hp & Hpr).
  rewrite <- mul_spec in Hpr. rewrite Vd in Hp. fold vc in Hp.
  assert (Hfixd : nearest vd = vd).
  { rewrite <- Vd. apply value_fix, Prim2SF_valid. }
  assert (Hp0 : 0 <= vd -> 0 <= p <= vd) by (intros; nia).
  assert (Hp1 : vd <= 0 -> vd <= p <= 0) by (intros; nia).
  assert (Hpb : Z.abs (nearest p) <= 10000 * 2 ^ bias /\ Z.abs (nearest p) < overflow).
  { rewrite <- bound_value.
    apply nearest_bounded; [apply Prim2SF_valid|]. rewrite bound_value. lia. }
  destruct Hpb as [Hpb Hpo].
  destruct (rounds_to_finite _ _ Hpr Hpo) as [Fp Vp].
  (* the sum *)
  pose proof (add_rounds (Prim2SF a) (Prim2SF ((b - a) * c)%float) Fa Fp
                (Prim2SF_valid _) (Prim2SF_valid _)) as Hs.
  rewrite <- add_spec in Hs. rewrite Vp in Hs. fold va in Hs.
  destruct (nearest_bounded (va + nearest p) (Prim2SF 20000) (Prim2SF_valid _))
    as [_ Hso].
  { rewrite twice_bound_value. lia. }
  destruct (rounds_to_finite _ _ Hs Hso) as [Fs Vs].
  exists vd, (nearest p).
  split; [reflexivity|]. split; [assumption|]. split; [assumption|].
  split.
  { intros Hpos. specialize (Hp0 Hpos).
    pose proof (nearest_mono 0 p ltac:(lia)) as H1.
    pose proof (nearest_mono p vd ltac:(lia)) as H2.
    change (nearest 0) with 0 in H1. rewrite Hfixd in H2. lia. }
  split.
  { intros Hneg. specialize (Hp1 Hneg).
    pose proof (nearest_mono p 0 ltac:(lia)) as H1.
    pose proof (nearest_mono vd p ltac:(lia)) as H2.
    change (nearest 0) with 0 in H1. rewrite Hfixd in H2. lia. }
  split.
  { intros Hc. rewrite Hc in Hp. assert (p = vd) by nia. subst p. exact Hfixd. }
  split.
  { intros Hc. rewrite Hc in Hp. assert (p = 0) by nia. subst p. reflexivity. }
  split; [assumption|]. split; assumption.
Qed.

(** The clamped progress is between 0 and 1. *)
Lemma clamped_unit t :
  is_nan t = false ->
  (0 <=? Js.Math_max 0 (Js.Math_min 1 t))%float = true
  /\ (Js.Math_max 0 (Js.Math_min 1 t) <=? 1)%float = true.
Proof.
  intros Ht.
  destruct (Math_min_cases 1 t eq_refl Ht) as (Hm & Hm1 & _).
  assert (Hmn : is_nan (Js.Math_min 1 t) = false)
    by (destruct Hm as [-> | ->]; [reflexivity | assumption]).
  destruct (Math_max_cases 0 (Js.Math_min 1 t) eq_refl Hmn) as (Hr & Hr0 & _).
  split; [assumption|]. destruct Hr as [-> | ->]; [reflexivity | assumption].
Qed.

Lemma blend_at_1 a b : lerp a b 1 = (a + (b - a))%float.
Proof.
  unfold lerp. rewrite clamped_ge1 by reflexivity. now rewrite mul_one.
Qed.

Lemma lerp_between a b t :
  (0 <=? a)%float = true -> (a <=? 10000)%float = true ->
  (0 <=? b)%float = true -> (b <=? 10000)%float = true ->
  is_nan t = false ->
  ((a <=? b)%float = true ->
     (a <=? lerp a b t)%float = true
     /\ (lerp a b t <=? lerp a b 1)%float = true)
  /\ ((b <=? a)%float = true ->
     (lerp a b 1 <=? lerp a b t)%float = true
     /\ (lerp a b t <=? a)%float = true).
Proof.
  intros Ha0 Ha1 Hb0 Hb1 Ht.
  destruct (clamped_unit t Ht) as [Hc0 Hc1].
  destruct (in_range_value a Ha0 Ha1) as [Fa Ra].
  destruct (in_range_value b Hb0 Hb1) as [Fb Rb].
  assert (H1e : lerp a b 1 = (a + (b - a) * 1)%float)
    by (unfold lerp; now rewrite clamped_ge1).
  rewrite H1e. clear H1e.
  unfold lerp. set (c := Js.Math_max 0 (Js.Math_min 1 t)) in *.
  destruct (blend_value a b c Ha0 Ha1 Hb0 Hb1 Hc0 Hc1)
    as (vd & vp & Hvd & _ & _ & Hpos & Hneg & _ & _ & _ & Fr & Vr).
  destruct (blend_value a b 1 Ha0 Ha1 Hb0 Hb1 eq_refl eq_refl)
    as (vd' & vp1 & Hvd' & _ & _ & _ & _ & H1 & _ & _ & Fr1 & Vr1).
  rewrite <- Hvd in Hvd'. subst vd'. specialize (H1 one_value). subst vp1.
  pose proof (value_fix _ (Prim2SF_valid a)) as Hfa.
  set (va := value_of (Prim2SF a)) in *. set (vb := value_of (Prim2SF b)) in *.
  split; intros Hab; apply leb_value in Hab; try assumption; fold va vb in Hab.
  - assert (Hd : 0 <= vd).
    { rewrite Hvd. change 0 with (nearest 0). apply nearest_mono. lia. }
    specialize (Hpos Hd).
    split; apply leb_value; try assumption; fold va; rewrite ?Vr, ?Vr1.
    + rewrite <- Hfa at 1. apply nearest_mono. lia.
    + apply nearest_mono. lia.
  - assert (Hd : vd <= 0).
    { rewrite Hvd. change 0 with (nearest 0). apply nearest_mono. lia. }
    specialize (Hneg Hd).
    split; apply leb_value; try assumption; fold va; rewrite ?Vr, ?Vr1.
    + apply nearest_mono. lia.
    + rewrite <- Hfa at 2. apply nearest_mono. lia.
Qed.

Lemma eqb_value a b :
  finite (Prim2SF a) = true -> finite (Prim2SF b) = true ->
  (a =? b)%float = true <-> value_of (Prim2SF a) = value_of (Prim2SF b).
Proof.
  intros Fa Fb. rewrite eqb_spec.
  apply SFeqb_value; try assumption; apply Prim2SF_valid.
Qed.

Lemma lerp_at_0 a b t :
  (0 <=? a)%float = true -> (a <=? 10000)%float = true ->
  (0 <=? b)%float = true -> (b <=? 10000)%float = true ->
  (t <=? 0)%float = true ->
  (lerp a b t =? a)%float = true.
Proof.
  intros Ha0 Ha1 Hb0 Hb1 Ht.
  destruct (in_range_value a Ha0 Ha1) as [Fa Ra].
  unfold lerp. rewrite clamped_le0 by assumption.
  destruct (blend_value a b 0 Ha0 Ha1 Hb0 Hb1 eq_refl eq_refl)
    as (vd & vp & _ & _ & _ & _ & _ & _ & H0 & _ & Fr & Vr).
  specialize (H0 zero_value). subst vp.
  apply eqb_value; try assumption.
  rewrite Vr, Z.add_0_r. apply value_fix, Prim2SF_valid.
Qed.

(** *** Integers *)

Lemma integer_fix z : Z.abs z < 2 ^ 53 -> nearest (z * 2 ^ bias) = z * 2 ^ bias.
Proof.
  assert (Hone : 0 < 2 ^ bias) by (apply pow2_pos; unfold bias; lia).
  assert (Hpos : forall n, 0 <= n < 2 ^ 53 -> rounded (n * 2 ^ bias) = n * 2 ^ bias).
  { intros n [Hn0 Hn]. apply rounded_fix; [nia|].
    destruct (Z.eq_dec n 0) as [->|Hne]; [reflexivity|].
    unfold spacing. rewrite Z.log2_mul_pow2 by (unfold bias; lia).
    assert (Hlog : Z.log2 n < 53) by (apply Z.log2_lt_pow2; lia).
    pose proof (Z.log2_nonneg n).
    set (k := Z.max (bias + Z.log2 n + 1 - 53) 1074).
    assert (Hk : 1074 <= k <= bias) by (unfold k, bias; lia).
    replace bias with ((bias - k) + k) at 1 by lia.
    rewrite Z.pow_add_r by lia. rewrite Z.mul_assoc. apply Z.mod_mul.
    pose proof (pow2_pos k). lia. }
  intros Hz. destruct (Z_le_gt_dec 0 z) as [H0|H0].
  - rewrite nearest_nonneg by nia. apply Hpos. lia.
  - rewrite nearest_neg by nia.
    replace (- (z * 2 ^ bias)) with ((- z) * 2 ^ bias) by ring.
    rewrite Hpos by lia. ring.
Qed.

Lemma of_int_value z :
  Z.abs z < 2 ^ 53 ->
  Prim2SF (of_int z) = binary_normalize prec emax z 0 false
  /\ finite (Prim2SF (of_int z)) = true
  /\ value_of (Prim2SF (of_int z)) = z * 2 ^ bias.
Proof.
  intros Hz. pose proof (normalize_rounds z 0 false ltac:(unfold bias; lia)) as Hr.
  change (0 + bias) with bias in Hr.
  assert (Heq : Prim2SF (of_int z) = binary_normalize prec emax z 0 false).
  { unfold of_int. apply Prim2SF_SF2Prim. exact (rounds_to_valid _ _ Hr). }
  rewrite Heq. split; [reflexivity|].
  rewrite <- (integer_fix z Hz). apply (rounds_to_finite _ _ Hr).
  rewrite (integer_fix z Hz).
  assert (Hone : 0 < 2 ^ bias) by (apply pow2_pos; unfold bias; lia).
  unfold overflow. replace (1024 + bias) with (1024 + bias) by lia.
  rewrite Z.pow_add_r by (unfold bias; lia).
  assert (2 ^ 53 <= 2 ^ 1024) by (apply Z.pow_le_mono_r; lia).
  rewrite Z.abs_mul, (Z.abs_eq (2 ^ bias)) by lia. nia.
Qed.

Lemma of_int_in_range z :
  0 <= z <= 10000 ->
  (0 <=? of_int z)%float = true /\ (of_int z <=? 10000)%float = true.
Proof.
  intros Hz.
  assert (Hone : 0 < 2 ^ bias) by (apply pow2_pos; unfold bias; lia).
  assert (Hlt : Z.abs z < 2 ^ 53) by (change (2 ^ 53) with 9007199254740992; lia).
  destruct (of_int_value z Hlt) as (_ & Fz & Vz).
  split; apply leb_value; try assumption; try reflexivity; rewrite Vz.
  - rewrite zero_value. nia.
  - rewrite bound_value. nia.
Qed.

Lemma add_opp_self m e :
  SFadd prec emax (S754_finite false m e) (S754_finite true m e) = S754_zero false.
Proof.
  cbn [SFadd]. rewrite Z.min_id. unfold shl_align. rewrite Z.sub_diag.
  cbn [fst cond_Zopp]. rewrite Z.add_opp_diag_r. reflexivity.
Qed.

(** *** Rounding next to a number with an even mantissa *)

Lemma rounded_error x :
  0 <= x -> 2 * Z.abs (rounded x - x) <= spacing x.
Proof.
  intros Hx. unfold rounded, nearest_even. pose proof (spacing_pos x) as Hg.
  pose proof (Z.div_mod x (spacing x) ltac:(lia)) as Hd.
  pose proof (Z.mod_pos_bound x (spacing x) Hg) as Hr.
  set (g := spacing x) in *. set (q := x / g) in *. set (r := x mod g) in *.
  clearbody g q r.
  destruct (Z.ltb_spec (2 * r) g); [nia|].
  destruct (Z.ltb_spec g (2 * r)); [nia|].
  destruct (Z.even q); nia.
Qed.

Lemma spacing_eq y L :
  2 ^ L <= y < 2 ^ (L + 1) -> 1074 <= L - 52 -> spacing y = 2 ^ (L - 52).
Proof.
  intros [Hlo Hhi] HL. unfold spacing.
  assert (Hy : 0 < y) by (pose proof (pow2_pos L); lia).
  rewrite (Z.log2_unique y L) by (unfold Z.succ; lia).
  f_equal. lia.
Qed.

Lemma nearest_even_at n r g :
  0 <= r < g ->
  nearest_even (n * g + r) g =
  if 2 * r <? g then n
  else if g <? 2 * r then n + 1
  else if Z.even n then n else n + 1.
Proof.
  intros Hr. unfold nearest_even.
  assert (Hq : (n * g + r) / g = n)
    by (symmetry; apply (Z.div_unique _ g n r); [left; lia | lia]).
  assert (Hm : (n * g + r) mod g = r)
    by (symmetry; apply (Z.mod_unique _ g n r); [left; lia | lia]).
  now rewrite Hq, Hm.
Qed.

(** Around [q * 2 ^ k] with [q] even of 53 bits, everything within half a
    spacing rounds to it; below a power of two, within a quarter. *)
Lemma rounded_near q k delta :
  1075 <= k ->
  2 ^ 52 <= q < 2 ^ 53 -> Z.even q = true ->
  0 <= 2 * delta <= 2 ^ k ->
  (q = 2 ^ 52 -> 4 * delta <= 2 ^ k) ->
  rounded (q * 2 ^ k + delta) = q * 2 ^ k
  /\ rounded (q * 2 ^ k - delta) = q * 2 ^ k.
Proof.
  intros Hk [Hq0 Hq1] Hev Hd Hpow.
  assert (Hg : 0 < 2 ^ k) by (apply pow2_pos; lia).
  assert (H52 : 2 ^ (52 + k) = 2 ^ 52 * 2 ^ k) by (apply Z.pow_add_r; lia).
  assert (H53 : 2 ^ (52 + k + 1) = 2 ^ 53 * 2 ^ k).
  { replace (52 + k + 1) with (53 + k) by lia. apply Z.pow_add_r; lia. }
  assert (Hup : rounded (q * 2 ^ k + delta) = q * 2 ^ k).
  { unfold rounded.
    rewrite (spacing_eq _ (52 + k)) by (first [lia | rewrite ?H52, ?H53; split; nia]).
    replace (52 + k - 52) with k by lia.
    rewrite nearest_even_at by lia. f_equal.
    destruct (Z.ltb_spec (2 * delta) (2 ^ k)); [reflexivity|].
    destruct (Z.ltb_spec (2 ^ k) (2 * delta)); [lia|].
    now rewrite Hev. }
  split; [exact Hup|].
  destruct (Z.eq_dec delta 0) as [->|Hnz].
  { now rewrite Z.sub_0_r, Z.add_0_r in *. }
  assert (Hodd : forall n, Z.even n = true -> Z.even (n - 1) = false).
  { intros n Hn. rewrite Z.even_sub, Hn. reflexivity. }
  destruct (Z.eq_dec q (2 ^ 52)) as [Hq|Hq].
  - (* just below a power of two the spacing halves *)
    specialize (Hpow Hq).
    assert (Hh : 2 ^ k = 2 * 2 ^ (k - 1)).
    { rewrite <- Z.pow_succ_r by lia. f_equal. lia. }
    assert (Hg' : 0 < 2 ^ (k - 1)) by (apply pow2_pos; lia).
    assert (H52' : 2 ^ (52 + (k - 1)) = 2 ^ 52 * 2 ^ (k - 1)) by (apply Z.pow_add_r; lia).
    assert (H53' : 2 ^ (52 + (k - 1) + 1) = 2 ^ 52 * 2 ^ k).
    { replace (52 + (k - 1) + 1) with (52 + k) by lia. exact H52. }
    replace (q * 2 ^ k - delta)
      with ((2 * q - 1) * 2 ^ (k - 1) + (2 ^ (k - 1) - delta)) by lia.
    unfold rounded.
    rewrite (spacing_eq _ (52 + (k - 1)))
      by (first [lia | rewrite ?H52', ?H53'; subst q; split; nia]).
    replace (52 + (k - 1) - 52) with (k - 1) by lia.
    rewrite nearest_even_at by lia.
    assert (Ho : Z.even (2 * q - 1) = false)
      by (apply Hodd; rewrite Z.even_mul; reflexivity).
    destruct (Z.ltb_spec (2 * (2 ^ (k - 1) - delta)) (2 ^ (k - 1))); [lia|].
    destruct (Z.ltb_spec (2 ^ (k - 1)) (2 * (2 ^ (k - 1) - delta)));
      [|rewrite Ho]; lia.
  - replace (q * 2 ^ k - delta) with ((q - 1) * 2 ^ k + (2 ^ k - delta)) by lia.
    unfold rounded.
    rewrite (spacing_eq _ (52 + k)) by (first [lia | rewrite ?H52, ?H53; split; nia]).
    replace (52 + k - 52) with k by lia.
    rewrite nearest_even_at by lia.
    specialize (Hodd q Hev).
    destruct (Z.ltb_spec (2 * (2 ^ k - delta)) (2 ^ k)); [lia|].
    destruct (Z.ltb_spec (2 ^ k) (2 * (2 ^ k - delta)));
      [|rewrite Hodd]; lia.
Qed.

Lemma spacing_mono x y : 0 <= x <= y -> spacing x <= spacing y.
Proof.
  intros [Hx Hxy]. unfold spacing.
  pose proof (Z.log2_le_mono x y Hxy). pose proof (Z.log2_nonneg x).
  apply Z.pow_le_mono_r; lia.
Qed.

(** An integer of the rectangle has an even 53-bit mantissa. *)
Lemma integer_mantissa z :
  1 <= z <= 10000 ->
  exists q k,
    z * 2 ^ bias = q * 2 ^ k
    /\ 1075 <= k
    /\ 2 ^ 52 <= q < 2 ^ 53 /\ Z.even q = true
    /\ spacing (z * 2 ^ bias) = 2 ^ k.
Proof.
  intros Hz. pose proof (Z.log2_spec z ltac:(lia)) as [Hlo Hhi].
  pose proof (Z.log2_nonneg z) as Hj0.
  assert (Hj : Z.log2 z < 14).
  { apply Z.log2_lt_pow2; [lia|]. change (2 ^ 14) with 16384. lia. }
  set (j := Z.log2 z) in *.
  exists (z * 2 ^ (52 - j)), (bias - 52 + j).
  assert (Hp : 0 < 2 ^ (52 - j)) by (apply pow2_pos; lia).
  assert (H52 : 2 ^ 52 = 2 ^ j * 2 ^ (52 - j)).
  { rewrite <- Z.pow_add_r by lia. f_equal. lia. }
  assert (H53 : 2 ^ 53 = 2 ^ Z.succ j * 2 ^ (52 - j)).
  { rewrite <- Z.pow_add_r by lia. f_equal. lia. }
  split.
  { rewrite <- Z.mul_assoc, <- Z.pow_add_r by (unfold bias; lia).
    do 2 f_equal. lia. }
  split; [unfold bias; lia|]. split; [rewrite H52, H53; nia|]. split.
  { rewrite Z.even_mul. replace (52 - j) with (Z.succ (51 - j)) by lia.
    rewrite Z.pow_succ_r by lia. rewrite Z.even_mul. cbn. apply orb_true_r. }
  unfold spacing. rewrite Z.log2_mul_pow2 by (unfold bias; lia).
  fold j. f_equal. unfold bias. lia.
Qed.

(** From any position of the rectangle, adding the rounded difference to an
    integer of the rectangle gives that integer. *)
Lemma settle_value fa z :
  finite fa = true -> valid_binary fa = true ->
  0 <= value_of fa <= 10000 * 2 ^ bias ->
  0 <= z <= 10000 ->
  nearest (value_of fa + nearest (z * 2 ^ bias - value_of fa)) = z * 2 ^ bias.
Proof.
  intros Ff Vf Ha Hz.
  assert (Hone : 0 < 2 ^ bias) by (apply pow2_pos; unfold bias; lia).
  assert (Hlz : Z.abs z < 2 ^ 53) by (change (2 ^ 53) with 9007199254740992; lia).
  pose proof (value_fix fa Vf) as Hfa.
  pose proof (integer_fix z Hlz) as HfT.
  set (A := value_of fa) in *. set (T := z * 2 ^ bias) in *.
  destruct (Z.eq_dec z 0) as [Hz0|Hz0].
  { subst T. rewrite Hz0. change (0 * 2 ^ bias - A) with (- A).
    rewrite nearest_opp, Hfa. now rewrite Z.add_opp_diag_r. }
  destruct (Z_le_gt_dec T A) as [Hle|Hgt].
  - (* the difference is exact *)
    assert (Hx : nearest (T - A) = T - A).
    { replace (T - A) with (- (A - T)) by lia. rewrite nearest_opp.
      rewrite nearest_nonneg by lia. f_equal.
      destruct (Z.eq_dec (A - T) 0) as [->|Hnz]; [reflexivity|].
      apply rounded_fix; [lia|].
      destruct fa as [s|s| |s m e]; try discriminate.
      { unfold A in *. cbn [value_of] in *. nia. }
      cbn [SpecFloat.valid_binary] in Vf.
      destruct (bounded_exponent m e Vf) as (He & _ & Hm & Hnorm).
      pose proof (scaled_pos m e ltac:(unfold bias; lia)) as Hsp.
      assert (Hs : s = false).
      { destruct s; [|reflexivity]. unfold A in *. cbn [value_of cond_Zopp] in *. nia. }
      subst s. unfold A in *. cbn [value_of cond_Zopp] in *. unfold scaled in *.
      assert (Hg : 0 < 2 ^ (e + bias)) by (apply pow2_pos; unfold bias; lia).
      assert (He0 : e <= 0).
      { destruct (Z_le_gt_dec e 0); [assumption|].
        specialize (Hnorm ltac:(lia)).
        assert (2 * 2 ^ bias <= 2 ^ (e + bias)).
        { rewrite <- Z.pow_succ_r by (unfold bias; lia).
          apply Z.pow_le_mono_r; lia. }
        change (2 ^ 52) with 4503599627370496 in Hnorm. nia. }
      assert (Hb : 2 ^ bias = 2 ^ (- e) * 2 ^ (e + bias)).
      { rewrite <- Z.pow_add_r by (unfold bias; lia). f_equal. lia. }
      set (x := Zpos m * 2 ^ (e + bias) - T) in *.
      assert (Hxm : x = (Zpos m - z * 2 ^ (- e)) * 2 ^ (e + bias)).
      { unfold x, T. rewrite Hb. ring. }
      unfold spacing.
      set (k := Z.max (Z.log2 x + 1 - 53) 1074).
      assert (Hk : 1074 <= k <= e + bias).
      { split; [unfold k; lia|].
        assert (Z.log2 x < 53 + (e + bias)).
        { apply Z.log2_lt_pow2; [lia|].
          rewrite Z.pow_add_r by (unfold bias; lia).
          assert (0 < T) by (unfold T; nia). unfold x. nia. }
        unfold k, bias in *. lia. }
      rewrite Hxm.
      replace (e + bias) with ((e + bias - k) + k) by lia.
      rewrite Z.pow_add_r by lia. rewrite Z.mul_assoc.
      apply Z.mod_mul. pose proof (pow2_pos k). lia. }
    rewrite Hx. replace (A + (T - A)) with T by lia. exact HfT.
  - (* the difference is rounded, by at most half a spacing of [T] *)
    destruct (integer_mantissa z ltac:(lia)) as (q & k & HT & Hk & Hq & Hev & Hsp).
    fold T in HT, Hsp.
    assert (Hg : 0 < 2 ^ k) by (apply pow2_pos; lia).
    rewrite (nearest_nonneg (T - A)) by lia.
    pose proof (rounded_error (T - A) ltac:(lia)) as Herr.
    pose proof (spacing_mono (T - A) T ltac:(lia)) as Hmono.
    rewrite Hsp in Hmono.
    set (delta := Z.abs (rounded (T - A) - (T - A))) in *.
    assert (Hquarter : q = 2 ^ 52 -> 4 * delta <= 2 ^ k).
    { intros Hq52. destruct (Z.eq_dec A 0) as [HA|HA].
      - unfold delta. rewrite HA, Z.sub_0_r.
        rewrite <- (nearest_nonneg T) by (unfold T; nia).
        rewrite HfT. rewrite Z.sub_diag. cbn. lia.
      - assert (Hlog : Z.log2 (T - A) < 52 + k).
        { apply Z.log2_lt_pow2; [lia|].
          rewrite Z.pow_add_r by lia. rewrite <- Hq52, <- HT. lia. }
        assert (Hsx : spacing (T - A) <= 2 ^ (k - 1)).
        { unfold spacing. apply Z.pow_le_mono_r; lia. }
        assert (2 ^ k = 2 * 2 ^ (k - 1)).
        { rewrite <- Z.pow_succ_r by lia. f_equal. lia. }
        lia. }
    destruct (rounded_near q k delta Hk Hq Hev ltac:(unfold delta in *; lia) Hquarter)
      as [Hup Hdown].
    rewrite <- HT in Hup, Hdown.
    set (y := A + rounded (T - A)).
    assert (Hy : T - delta <= y <= T + delta) by (unfold y, delta; lia).
    assert (Hpos : 0 <= T - delta).
    { assert (2 ^ 52 * 2 ^ k <= T) by (rewrite HT; nia).
      change (2 ^ 52) with 4503599627370496 in *. unfold delta in *. lia. }
    rewrite nearest_nonneg by lia.
    pose proof (rounded_mono (T - delta) y ltac:(lia)).
    pose proof (rounded_mono y (T + delta) ltac:(lia)).
    lia.
Qed.

(** From any position of the rectangle, the interpolation to an integer of
    the rectangle ends on that integer. *)
Lemma lerp_integer_target a zt :
  (0 <=? a)%float = true -> (a <=? 10000)%float = true ->
  0 <= zt <= 10000 ->
  lerp a (of_int zt) 1 = of_int zt.
Proof.
  intros Ha0 Ha1 Hb.
  assert (Hone : 0 < 2 ^ bias) by (apply pow2_pos; unfold bias; lia).
  assert (Hlb : Z.abs zt < 2 ^ 53) by (change (2 ^ 53) with 9007199254740992; lia).
  destruct (of_int_value zt Hlb) as (Eb & Fb & Vb).
  destruct (of_int_in_range zt Hb) as [Hb0 Hb1].
  destruct (in_range_value a Ha0 Ha1) as [Fa Ra].
  set (b := of_int zt) in *.
  assert (H1e : lerp a b 1 = (a + (b - a) * 1)%float)
    by (unfold lerp; now rewrite clamped_ge1).
  destruct (blend_value a b 1 Ha0 Ha1 Hb0 Hb1 eq_refl eq_refl)
    as (vd & vp & Hvd & Fd & Vd & _ & _ & H1 & _ & _ & Fr & Vr).
  specialize (H1 one_value). subst vp.
  rewrite Hvd, Vb in Vr.
  rewrite (settle_value (Prim2SF a) zt Fa (Prim2SF_valid a) Ra Hb) in Vr.
  rewrite H1e. apply Prim2SF_inj.
  destruct (Z.eq_dec zt 0) as [->|Hnz].
  - (* the sign of a zero result *)
    rewrite mul_one, add_spec, sub_spec. unfold SF64add, SF64sub.
    rewrite Eb. cbn [binary_normalize].
    destruct (Prim2SF a) as [s|s| |s m e] eqn:Ea'; try discriminate.
    + destruct s; reflexivity.
    + assert (Hs : s = false).
      { destruct s; [|reflexivity]. cbn [value_of cond_Zopp] in Ra.
        pose proof (Prim2SF_valid a) as Vv. rewrite Ea' in Vv.
        cbn [SpecFloat.valid_binary] in Vv.
        destruct (bounded_exponent m e Vv) as (He & _).
        pose proof (scaled_pos m e ltac:(unfold bias; lia)). nia. }
      subst s. cbn [SFsub negb]. apply add_opp_self.
  - apply value_inj; try assumption; try apply Prim2SF_valid.
    + rewrite Vr, Vb. reflexivity.
    + rewrite Vr. nia.
Qed.

Lemma progress_number elapsed :
  is_nan (elapsed / CursorLayer.INTERPOLATION_DURATION)%float = false ->
  is_nan (Js.Math_min (elapsed / CursorLayer.INTERPOLATION_DURATION) 1) = false.
Proof.
  intros H. destruct (Math_min_cases _ 1 H eq_refl) as ([-> | ->] & _);
    [assumption | reflexivity].
Qed.

(** C7 on binary64 numbers, for positions in the rectangle the server
    accepts.  For every progress that is a number, the output of [lerp] lies
    between the prior position and the output at progress 1, on the side of
    the target; progress 1 or more yields the rounded sum
    [prior + (target - prior)], and progress 0 or less yields the prior
    position.  When the target is an integer, as the positions a client
    sends are, the output at progress 1 is exactly the target, from every
    prior position, so the output lies between prior and target inclusive.
    What [animate] displays is such an output: it lies between
    the same bounds while the elapsed time is a number, and is the output
    at progress 1 once the interpolation window has elapsed. *)
Theorem lerp_bounds prior target :
  (0 <=? prior)%float = true -> (prior <=? 10000)%float = true ->
  (0 <=? target)%float = true -> (target <=? 10000)%float = true ->
  (forall progress,
     is_nan progress = false ->
     ((prior <=? target)%float = true ->
        (prior <=? lerp prior target progress)%float = true
        /\ (lerp prior target progress <=? lerp prior target 1)%float = true)
     /\ ((target <=? prior)%float = true ->
        (lerp prior target 1 <=? lerp prior target progress)%float = true
        /\ (lerp prior target progress <=? prior)%float = true))
  /\ (forall progress,
        (1 <=? progress)%float = true ->
        lerp prior target progress = (prior + (target - prior))%float)
  /\ (forall progress,
        (progress <=? 0)%float = true ->
        (lerp prior target progress =? prior)%float = true)
  /\ (forall zt,
        0 <= zt <= 10000 -> target = of_int zt ->
        lerp prior target 1 = target
        /\ forall progress,
             is_nan progress = false ->
             ((prior <=? target)%float = true ->
                (prior <=? lerp prior target progress)%float = true
                /\ (lerp prior target progress <=? target)%float = true)
             /\ ((target <=? prior)%float = true ->
                (target <=? lerp prior target progress)%float = true
                /\ (lerp prior target progress <=? prior)%float = true))
  /\ (forall now c,
        CursorLayer.prevX c = prior -> CursorLayer.targetX c = target ->
        let elapsed := (now - CursorLayer.lastUpdateTime c)%float in
        let shown := CursorLayer.x (CursorLayer.animate_cursor now c) in
        (is_nan (elapsed / 50) = false ->
           ((prior <=? target)%float = true ->
              (prior <=? shown)%float = true
              /\ (shown <=? lerp prior target 1)%float = true)
           /\ ((target <=? prior)%float = true ->
              (lerp prior target 1 <=? shown)%float = true
              /\ (shown <=? prior)%float = true))
        /\ ((1 <=? elapsed / 50)%float = true -> shown = lerp prior target 1))
  /\ (forall now c,
        CursorLayer.prevY c = prior -> CursorLayer.targetY c = target ->
        let elapsed := (now - CursorLayer.lastUpdateTime c)%float in
        let shown := CursorLayer.y (CursorLayer.animate_cursor now c) in
        (is_nan (elapsed / 50) = false ->
           ((prior <=? target)%float = true ->
              (prior <=? shown)%float = true
              /\ (shown <=? lerp prior target 1)%float = true)
           /\ ((target <=? prior)%float = true ->
              (lerp prior target 1 <=? shown)%float = true
              /\ (shown <=? prior)%float = true))
        /\ ((1 <=? elapsed / 50)%float = true -> shown = lerp prior target 1)).
Proof.
  intros Hp0 Hp1 Ht0 Ht1.
  split; [intros progress Hn; now apply lerp_between|].
  split.
  { intros progress H1. rewrite <- blend_at_1. unfold lerp.
    now rewrite clamped_ge1, (clamped_ge1 1) by (assumption || reflexivity). }
  split; [intros progress H0; now apply lerp_at_0|].
  split; [|split].
  - intros zt Hzt ->.
    pose proof (lerp_integer_target prior zt Hp0 Hp1 Hzt) as Hend.
    split; [exact Hend|].
    intros progress Hn.
    destruct (lerp_between prior (of_int zt) progress Hp0 Hp1 Ht0 Ht1 Hn)
      as [Hup Hdown].
    rewrite Hend in Hup, Hdown. split; assumption.
  - intros now c <- <- elapsed shown.
    assert (Hshown : shown =
              lerp (CursorLayer.prevX c) (CursorLayer.targetX c)
                   (Js.Math_min (elapsed / CursorLayer.INTERPOLATION_DURATION) 1))
      by reflexivity.
    change 50%float with CursorLayer.INTERPOLATION_DURATION.
    split.
    + intros Hn. rewrite Hshown.
      apply lerp_between; try assumption. now apply progress_number.
    + intros Hend. rewrite Hshown. now rewrite Math_min_ge1.
  - intros now c <- <- elapsed shown.
    assert (Hshown : shown =
              lerp (CursorLayer.prevY c) (CursorLayer.targetY c)
                   (Js.Math_min (elapsed / CursorLayer.INTERPOLATION_DURATION) 1))
      by reflexivity.
    change 50%float with CursorLayer.INTERPOLATION_DURATION.
    split.
    + intros Hn. rewrite Hshown.
      apply lerp_between; try assumption. now apply progress_number.
    + intros Hend. rewrite Hshown. now rewrite Math_min_ge1.
Qed.

Lemma lerp_bounds_witness :
  (0 <=? 100.5)%float = true /\ (100.5 <=? 10000)%float = true
  /\ (0 <=? 150)%float = true /\ (150 <=? 10000)%float = true
  /\ lerp 100.5 150 1 = 150%float
  /\ (100.5 <=? lerp 100.5 150 (1 / 3))%float = true
  /\ (lerp 100.5 150 (1 / 3) <=? 150)%float = true.
Proof.
  destruct (lerp_bounds 100.5 150 eq_refl eq_refl eq_refl eq_refl)
    as (_ & _ & _ & Hint & _).
  destruct (Hint 150 ltac:(lia) eq_refl) as [Hend Hbetween].
  destruct (Hbetween (1 / 3)%float eq_refl) as [Hup _].
  destruct (Hup eq_refl) as [Hlo Hhi].
  repeat split; try reflexivity; assumption.
Defined.

End InterpolationFacts.

(** ** More about the client *)

Module ClientMore.
Import MathUtils CursorLayer JsMap JsMapFacts JsMapMore ClientFacts FloatFacts.

(** *** The throttled sender over any run of calls *)

Lemma last_default {A} (d d' : A) l b : last (b :: l) d = last (b :: l) d'.
Proof.
  revert b. induction l as [|c l IH]; intros b; [reflexivity|].
  change (last (c :: l) d = last (c :: l) d'). apply IH.
Qed.

Lemma last_cons {A} (a d : A) l : last (a :: l) d = last l a.
Proof.
  destruct l as [|b l]; [reflexivity|].
  change (last (b :: l) d = last (b :: l) a). apply last_default.
Qed.

Lemma sendCursor_connected a w :
  socket w = true ->
  sendCursor a w =
  mkSender true (sequence w + 1)
    (emitted w ++
       [ mkMoveOut (Js.Math_round (arg_x a)) (Js.Math_round (arg_y a))
                   (arg_ts a) (sequence w) ]).
Proof. intros H. unfold sendCursor. now rewrite H. Qed.

(** X12: whatever the calls and their timing, the [cursor_move] messages the
    throttled sender emits are stamped at least 50 ms apart, the first at
    least 50 ms after [lastCall], and [lastCall] ends as the stamp of the
    last message sent (the stamp being the clock reading of the call). *)
Theorem sends_are_spaced calls : forall lastCall w,
  socket w = true ->
  Forall (fun c => arg_ts (snd c) = fst c) calls ->
  exists sent,
    emitted (snd (throttledSendCursor_calls calls (lastCall, w))) =
    emitted w ++ sent
    /\ spaced 50 (lastCall :: map out_ts sent)
    /\ fst (throttledSendCursor_calls calls (lastCall, w)) =
       last (map out_ts sent) lastCall.
Proof.
  unfold throttledSendCursor_calls.
  induction calls as [|[now a] calls IH]; intros lastCall w Hsock Hts;
    cbn [throttled_calls].
  - exists []. simpl. now rewrite app_nil_r.
  - inversion Hts as [|? ? Hnow Hrest]; subst. simpl in Hnow.
    destruct (Z_lt_le_dec (now - lastCall) 50) as [Hclosed|Hopen].
    + rewrite throttled_drops by assumption. now apply IH.
    + rewrite throttled_accepts by assumption.
      rewrite (sendCursor_connected a w Hsock).
      destruct (IH now
                  (mkSender true (sequence w + 1)
                     (emitted w ++
                        [ mkMoveOut (Js.Math_round (arg_x a))
                            (Js.Math_round (arg_y a)) (arg_ts a) (sequence w) ]))
                  eq_refl Hrest) as (sent & Hsent & Hsp & Hlast).
      exists (mkMoveOut (Js.Math_round (arg_x a)) (Js.Math_round (arg_y a))
                        (arg_ts a) (sequence w) :: sent).
      split; [|split].
      * rewrite Hsent. simpl. now rewrite <- app_assoc.
      * cbn [map out_ts]. rewrite Hnow. split; assumption.
      * rewrite Hlast. cbn [map out_ts]. rewrite Hnow. now rewrite last_cons.
Qed.

Lemma sends_are_spaced_witness :
  exists sent,
    emitted (snd (throttledSendCursor_calls
                    [ (1000%Z, Samples.mouse 10 20 1000);
                      (1040%Z, Samples.mouse 11 21 1040);
                      (1080%Z, Samples.mouse 12 22 1080) ]
                    (throttle_init, Samples.sender0))) = [] ++ sent
    /\ spaced 50 (throttle_init :: map out_ts sent).
Proof.
  destruct (sends_are_spaced
              [ (1000%Z, Samples.mouse 10 20 1000);
                (1040%Z, Samples.mouse 11 21 1040);
                (1080%Z, Samples.mouse 12 22 1080) ]
              throttle_init Samples.sender0 eq_refl)
    as (sent & Hsent & Hsp & _).
  - repeat constructor.
  - exists sent. split; assumption.
Defined.

(** X13: the sequence numbers of the messages sent over any run of calls are
    consecutive, starting at the value of the counter before the run, and
    the counter ends advanced by the number of messages sent: dropped calls
    consume no number. *)
Theorem sequence_numbers_are_consecutive calls : forall lastCall w,
  exists sent,
    emitted (snd (throttledSendCursor_calls calls (lastCall, w))) =
    emitted w ++ sent
    /\ map out_seq sent =
       map (fun i => (sequence w + Z.of_nat i)%Z) (seq 0 (length sent))
    /\ sequence (snd (throttledSendCursor_calls calls (lastCall, w))) =
       (sequence w + Z.of_nat (length sent))%Z.
Proof.
  unfold throttledSendCursor_calls.
  induction calls as [|[now a] calls IH]; intros lastCall w;
    cbn [throttled_calls].
  - exists []. simpl. rewrite app_nil_r. split; [reflexivity|]. split; [reflexivity|lia].
  - destruct (Z_lt_le_dec (now - lastCall) 50) as [Hclosed|Hopen];
      [rewrite throttled_drops by assumption; apply IH|].
    rewrite throttled_accepts by assumption.
    destruct (socket w) eqn:Hsock.
    + rewrite (sendCursor_connected a w Hsock).
      destruct (IH now
                  (mkSender true (sequence w + 1)
                     (emitted w ++
                        [ mkMoveOut (Js.Math_round (arg_x a))
                            (Js.Math_round (arg_y a)) (arg_ts a) (sequence w) ])))
        as (sent & Hsent & Hseq & Hcount).
      simpl in Hsent, Hseq, Hcount.
      exists (mkMoveOut (Js.Math_round (arg_x a)) (Js.Math_round (arg_y a))
                        (arg_ts a) (sequence w) :: sent).
      split; [|split].
      * rewrite Hsent. simpl. now rewrite <- app_assoc.
      * cbn [map out_seq length seq]. f_equal; [lia|].
        rewrite Hseq, <- seq_shift, map_map. apply map_ext. intros i. lia.
      * rewrite Hcount. cbn [length]. lia.
    + replace (sendCursor a w) with w
        by (unfold sendCursor; now rewrite Hsock).
      apply IH.
Qed.

(** X14: while the socket is [null] nothing is sent and no sequence number
    is used, whatever the calls; yet a call that finds the window open still
    closes it for the next 50 ms. *)
Theorem null_socket_sends_nothing calls : forall lastCall w,
  socket w = false ->
  snd (throttledSendCursor_calls calls (lastCall, w)) = w
  /\ (forall now a, (50 <= now - lastCall)%Z ->
        throttledSendCursor now a (lastCall, w) = (now, w)).
Proof.
  intros lastCall w Hsock.
  assert (Hsame : forall a, sendCursor a w = w)
    by (intros a; unfold sendCursor; now rewrite Hsock).
  split.
  - revert lastCall. unfold throttledSendCursor_calls.
    induction calls as [|[now a] calls IH]; intros lastCall;
      cbn [throttled_calls]; [reflexivity|].
    destruct (Z_lt_le_dec (now - lastCall) 50) as [Hclosed|Hopen].
    + rewrite throttled_drops by assumption. apply IH.
    + rewrite throttled_accepts by assumption. rewrite Hsame. apply IH.
  - intros now a Hopen. unfold throttledSendCursor.
    rewrite throttled_accepts by assumption. now rewrite Hsame.
Qed.

Lemma null_socket_sends_nothing_witness :
  throttledSendCursor 1000 (Samples.mouse 10 20 1000)
    (throttle_init, mkSender false 7 []) = (1000%Z, mkSender false 7 []).
Proof.
  apply (null_socket_sends_nothing [] throttle_init (mkSender false 7 []) eq_refl).
  unfold throttle_init. lia.
Defined.

(** *** The remote-cursor map *)

Lemma on_cursor_update_keys now data cursors :
  NoDup (keys cursors) -> NoDup (keys (on_cursor_update now data cursors)).
Proof.
  intros Hnd. unfold on_cursor_update.
  destruct (get (d_id data) cursors); now apply NoDup_keys_set.
Qed.

(** X15: the cursor map stays a map (one entry per id) under
    [user_joined], [user_left] and [cursor_update]; an announcement stores
    the user at rest at the announced position, replacing any cursor it had;
    a departure removes the user's cursor and no other, also right after
    the announcement. *)
Theorem cursor_registry now now' user data left cursors :
  NoDup (keys cursors) ->
  NoDup (keys (on_user_joined now user cursors))
  /\ NoDup (keys (on_user_left left cursors))
  /\ NoDup (keys (on_cursor_update now' data cursors))
  /\ get (ud_id user) (on_user_joined now user cursors) =
     Some (cursor_of_user now user)
  /\ get left (on_user_left left cursors) = None
  /\ (forall k, k <> left -> get k (on_user_left left cursors) = get k cursors)
  /\ get (ud_id user)
       (on_user_left (ud_id user) (on_user_joined now user cursors)) = None.
Proof.
  intros Hnd. unfold on_user_joined, on_user_left.
  split; [now apply NoDup_keys_set|].
  split; [now apply NoDup_keys_delete|].
  split; [now apply on_cursor_update_keys|].
  split; [apply get_set_same|].
  split; [now apply get_delete_same|].
  split; [intros k Hk; apply get_delete_other; congruence|].
  now apply get_delete_set.
Qed.

Lemma cursor_registry_witness :
  get Samples.sockB
    (on_user_left Samples.sockB
       (on_user_joined 1692518400000 Samples.joined_B
          [ (Samples.sockA, Samples.cursor_B) ])) = None.
Proof.
  apply (cursor_registry 1692518400000 0 Samples.joined_B Samples.update_B
           Samples.sockB [ (Samples.sockA, Samples.cursor_B) ]).
  repeat constructor. simpl. tauto.
Defined.

Lemma fold_set_keys now us : forall acc : JsMap.t RemoteCursor,
  NoDup (keys acc) ->
  NoDup (keys (fold_left
                 (fun cursors user => set (ud_id user) (cursor_of_user now user) cursors)
                 us acc)).
Proof.
  induction us as [|u us IH]; intros acc Hnd; simpl; [assumption|].
  apply IH. now apply NoDup_keys_set.
Qed.

(** X16: [init] replaces the whole cursor map: afterwards it holds one
    cursor per listed id and no other, whatever it held before, and each
    stored cursor is a listed user at rest at its listed position. *)
Theorem init_lists_users now us :
  NoDup (keys (on_init now us))
  /\ (forall k, has k (on_init now us) = true <->
                exists u, In u us /\ ud_id u = k)
  /\ (forall k c, get k (on_init now us) = Some c ->
        exists u, In u us /\ ud_id u = k /\ c = cursor_of_user now u
                  /\ x c = prevX c /\ x c = targetX c
                  /\ y c = prevY c /\ y c = targetY c).
Proof.
  unfold on_init. split; [|split].
  - apply fold_set_keys. constructor.
  - intros k. split.
    + intros Hk. apply has_get in Hk as [c Hc].
      destruct (fold_set_get now us [] k c Hc) as [(u & Hin & Hid & _)|Hnil];
        [eauto | discriminate].
    + intros (u & Hin & <-). now apply fold_set_has.
  - intros k c Hc.
    destruct (fold_set_get now us [] k c Hc) as [(u & Hin & Hid & ->)|Hnil];
      [|discriminate].
    exists u. repeat split; auto.
Qed.

Lemma init_lists_users_witness :
  has Samples.sockB (on_init 1692518400000 [ Samples.joined_B ]) = true.
Proof.
  apply (init_lists_users 1692518400000 [ Samples.joined_B ]).
  exists Samples.joined_B. split; [now left | reflexivity].
Defined.

(** *** Rendering *)

Lemma animate_get now cursors k :
  get k (animate now cursors) = option_map (animate_cursor now) (get k cursors).
Proof. unfold animate. apply get_map_values. Qed.

(** X17: a position delta for a displayed cursor makes the position shown at
    that moment the new prior, so the cursor does not jump when the update
    arrives; a render tick changes nothing but the displayed position, and
    what it displays does not depend on earlier ticks. *)
Theorem update_continues_from_display now arrival data cursors e :
  get (d_id data) cursors = Some e ->
  (exists c,
     get (d_id data) (on_cursor_update arrival data (animate now cursors)) = Some c
     /\ prevX c = x (animate_cursor now e) /\ prevY c = y (animate_cursor now e)
     /\ x c = prevX c /\ y c = prevY c
     /\ targetX c = d_x data /\ targetY c = d_y data)
  /\ keys (animate now cursors) = keys cursors
  /\ (forall later, animate later (animate now cursors) = animate later cursors).
Proof.
  intros He. split; [|split].
  - unfold on_cursor_update. rewrite animate_get, He. simpl.
    rewrite get_set_same. eexists. split; [reflexivity|]. simpl. tauto.
  - unfold animate. apply keys_image.
  - intros later. unfold animate. rewrite map_map. apply map_ext.
    intros [k c]. reflexivity.
Qed.

Lemma update_continues_from_display_witness :
  keys (animate 1692518400020 [ (Samples.sockB, Samples.cursor_B) ]) =
  [ Samples.sockB ].
Proof.
  apply (update_continues_from_display 1692518400020 1692518400123
           Samples.update_B [ (Samples.sockB, Samples.cursor_B) ]
           Samples.cursor_B).
  reflexivity.
Defined.

(** X20: once the time since the recorded start reaches the 50 ms window,
    [animate] shows the same position on every tick, [lerp] at progress 1;
    while the recorded start lies in the future of the local clock (a sender
    clock that runs ahead), it shows [lerp] at progress 0 on every tick. *)
Theorem animate_settles now c :
  ((1 <=? (now - lastUpdateTime c) / INTERPOLATION_DURATION)%float = true ->
     x (animate_cursor now c) = lerp (prevX c) (targetX c) 1
     /\ y (animate_cursor now c) = lerp (prevY c) (targetY c) 1)
  /\ (((now - lastUpdateTime c) / INTERPOLATION_DURATION <=? 0)%float = true ->
        x (animate_cursor now c) = lerp (prevX c) (targetX c) 0
        /\ y (animate_cursor now c) = lerp (prevY c) (targetY c) 0).
Proof.
  unfold animate_cursor. cbv zeta. simpl. split; intros H.
  - rewrite (Math_min_ge1 _ H). split; reflexivity.
  - rewrite (Math_min_le0 _ H). unfold lerp. rewrite (clamped_le0 _ H).
    split; reflexivity.
Qed.

Lemma animate_settles_witness :
  x (animate_cursor 1692518400075 Samples.cursor_B) = lerp 100 150 1.
Proof.
  apply (animate_settles 1692518400075 Samples.cursor_B). reflexivity.
Defined.

End ClientMore.

(** ** The client object layer *)

Module ObjectLayerFacts.
Import ObjectLayer JsMap JsMapFacts JsMapMore FloatFacts.

(** [Math.max(0, Math.min(v, hi))] stays inside the window. *)
Lemma clamp_window v hi :
  is_nan v = false ->
  (0 <=? hi)%float = true ->
  (0 <=? Js.Math_max 0 (Js.Math_min v hi))%float = true
  /\ (Js.Math_max 0 (Js.Math_min v hi) <=? hi)%float = true.
Proof.
  intros Hv Hhi. destruct (leb_not_nan 0 hi Hhi) as [H0 Hh].
  destruct (Math_min_cases v hi Hv Hh) as (Hm & _ & Hm2).
  assert (Hmn : is_nan (Js.Math_min v hi) = false)
    by (destruct Hm as [-> | ->]; assumption).
  destruct (Math_max_cases 0 (Js.Math_min v hi) H0 Hmn) as (Hr & Hr1 & _).
  split; [assumption|]. destruct Hr as [-> | ->]; assumption.
Qed.

(** X21: pressing the mouse on an object never changes the local objects
    and asks the server for it only when the local view does not show it
    owned by someone else: on an unknown object, or one shown as owned by
    another user, nothing is emitted and no drag starts. *)
Theorem mouse_down_guard env cx cy left top oid l :
  objects (fst (handleMouseDown env cx cy left top oid l)) = objects l
  /\ (forall m, In m (snd (handleMouseDown env cx cy left top oid l)) ->
        m = emit_pickup oid /\ socket env = true
        /\ exists obj, get oid (objects l) = Some obj
                       /\ owned_by_other (ownerId obj) (userId env) = false)
  /\ (get oid (objects l) = None ->
        handleMouseDown env cx cy left top oid l = (l, []))
  /\ (forall obj other,
        get oid (objects l) = Some obj ->
        ownerId obj = Some other -> other <> "" -> other <> userId env ->
        handleMouseDown env cx cy left top oid l = (l, [])).
Proof.
  unfold handleMouseDown. split; [|split; [|split]].
  - destruct (get oid (objects l)) as [obj|]; [|reflexivity].
    now destruct (owned_by_other (ownerId obj) (userId env)).
  - intros m. destruct (get oid (objects l)) as [obj|]; [|intros []].
    destruct (owned_by_other (ownerId obj) (userId env)) eqn:Ho; [intros []|].
    simpl. destruct (socket env); [|intros []].
    intros [<-|[]]. eauto.
  - now intros ->.
  - intros obj other -> Hown Hne Hother. rewrite Hown. simpl.
    apply String.eqb_neq in Hne, Hother. now rewrite Hne, Hother.
Qed.

Lemma mouse_down_guard_witness :
  handleMouseDown Samples.env_B 210 215 200 200 "obj-1" Samples.layer_B =
  (Samples.layer_B, []).
Proof.
  destruct (mouse_down_guard Samples.env_B 210 215 200 200 "obj-1"
              Samples.layer_B) as (_ & _ & _ & Hother).
  apply (Hother (mkDraggable "obj-1" (Js.Number 200) (Js.Number 200) 40 40
                             (Some Samples.sockA) "#FF6B6B") Samples.sockA);
    try reflexivity; discriminate.
Defined.

(** X22: a mouse move emits an [object_move] only while a drag is on, the
    dragged object is known and the local view shows the user as its owner,
    and at most once per 30 ms; the coordinates it sends are clamped into
    the window, between 0 and the window size less the object size, when
    the raw position is not NaN and the object fits the window. *)
Theorem move_only_as_owner env now cx cy l m :
  In m (snd (handleMoveWithRef env now cx cy l)) ->
  exists did obj mx my,
    m = emit_object_move did mx my
    /\ snd (handleMoveWithRef env now cx cy l) = [ m ]
    /\ dragging (dragState l) = Some did
    /\ socket env = true
    /\ get did (objects l) = Some obj
    /\ ownerId obj = Some (userId env)
    /\ (30 <= now - lastEmit l)%Z
    /\ lastEmit (fst (handleMoveWithRef env now cx cy l)) = now
    /\ (is_nan (cx - fst (dragOffset (dragState l))) = false ->
        (0 <=? innerWidth env - width obj)%float = true ->
        (0 <=? mx)%float = true
        /\ (mx <=? innerWidth env - width obj)%float = true)
    /\ (is_nan (cy - snd (dragOffset (dragState l))) = false ->
        (0 <=? innerHeight env - height obj)%float = true ->
        (0 <=? my)%float = true
        /\ (my <=? innerHeight env - height obj)%float = true).
Proof.
  unfold handleMoveWithRef.
  destruct (dragging (dragState l)) as [did|] eqn:Hdrag; [|intros []].
  destruct (socket env) eqn:Hsock; [|intros []]. simpl.
  destruct (get did (objects l)) as [obj|] eqn:Hobj; [|intros []].
  destruct (not_owner (ownerId obj) (userId env)) eqn:Hown; [intros []|].
  unfold EMIT_THROTTLE.
  destruct (Z.leb_spec 30 (now - lastEmit l)) as [Hopen|Hclosed]; [|intros []].
  intros [<-|[]]. exists did, obj. do 2 eexists.
  do 5 (split; [first [reflexivity | assumption]|]). split.
  { unfold not_owner in Hown. destruct (ownerId obj) as [c|]; [|discriminate].
    apply negb_false_iff, String.eqb_eq in Hown. now subst. }
  split; [assumption|]. split; [reflexivity|].
  split; intros Hnan Hfit; now apply clamp_window.
Qed.

Lemma move_only_as_owner_witness :
  exists mx my,
    snd (handleMoveWithRef Samples.env_A 1040 2000 (-30)
           Samples.layer_A_dragging) = [ emit_object_move "obj-1" mx my ]
    /\ (mx <=? 1280 - 40)%float = true.
Proof.
  destruct (move_only_as_owner Samples.env_A 1040 2000 (-30)
              Samples.layer_A_dragging (emit_object_move "obj-1" 1240 0))
    as (did & obj & mx & my & Hm & Hout & _ & _ & Hobj & _ & _ & _ & Hx & _).
  - left. reflexivity.
  - injection Hm as _ <- <-. exists 1240%float, 0%float.
    split; [exact Hout | reflexivity].
Defined.

(** X23: releasing the mouse sends a [drop] with the locally stored position
    whenever a drag is on and the object is known, whatever owner the local
    view shows, and ends the drag, so a second release sends nothing; when
    the server does not have the user as the owner, that [drop] changes
    nothing there and is not answered. *)
Theorem mouse_up_drops env l did obj :
  dragging (dragState l) = Some did ->
  socket env = true ->
  get did (objects l) = Some obj ->
  handleUpWithRef env l =
  (mkLayer (objects l) (mkDrag None (dragOffset (dragState l))) None (lastEmit l),
   [ emit_drop did (x obj) (y obj) ])
  /\ handleUpWithRef env (fst (handleUpWithRef env l)) =
     (fst (handleUpWithRef env l), [])
  /\ (forall st o,
        get did (Server.objects st) = Some o ->
        Server.o_ownerId o <> Some (userId env) ->
        Server.step st (as_event (userId env) (emit_drop did (x obj) (y obj))) =
        (st, [])).
Proof.
  intros Hdrag Hsock Hobj.
  assert (Heq : handleUpWithRef env l =
    (mkLayer (objects l) (mkDrag None (dragOffset (dragState l))) None (lastEmit l),
     [ emit_drop did (x obj) (y obj) ])).
  { unfold handleUpWithRef. now rewrite Hdrag, Hsock, Hobj. }
  split; [exact Heq|]. split.
  - rewrite Heq. reflexivity.
  - intros st o Ho Hown. simpl. unfold Server.on_drop. rewrite Ho.
    now rewrite (ServerFacts.owner_is_false _ _ Hown).
Qed.

Lemma mouse_up_drops_witness :
  snd (handleUpWithRef Samples.env_A Samples.layer_A_dragging) =
  [ emit_drop "obj-1" (Js.Number 200) (Js.Number 200) ].
Proof.
  destruct (mouse_up_drops Samples.env_A Samples.layer_A_dragging "obj-1"
              (mkDraggable "obj-1" (Js.Number 200) (Js.Number 200) 40 40
                           (Some Samples.sockA) "#FF6B6B")
              eq_refl eq_refl eq_refl) as (Heq & _).
  now rewrite Heq.
Defined.



(** *** A drag against the server *)

Lemma wire_idem v : wire (wire v) = wire v.
Proof.
  destruct v as [| |b|n|s0|]; try reflexivity.
  cbn [wire]. destruct (Prim2SF n) eqn:Hn; cbn [wire]; rewrite ?Hn; reflexivity.
Qed.

Lemma receives_own conns sid :
  In sid conns -> Server.receives conns (Server.socket_emit sid) sid = true.
Proof. intros Hin. now apply (ServerFacts.receives_socket_emit conns sid sid Hin). Qed.


Lemma dragging_some d oid : draggingId d = Some oid -> oid <> "" -> dragging d = Some oid.
Proof.
  intros Hd Hne. unfold dragging. rewrite Hd. apply String.eqb_neq in Hne. now rewrite Hne.
Qed.


Section Steps.
Variable env : Env.
Hypothesis Hsock : socket env = true.

Lemma act_press cx cy lf tp oid st objs ds ui le ups dn snt d :
  get oid objs = Some d ->
  owned_by_other (ownerId d) (userId env) = false ->
  act env (mouse_down cx cy lf tp oid) (mkNet st (mkLayer objs ds ui le) ups dn snt) =
  mkNet st (mkLayer objs (mkDrag (Some oid) ((cx - lf)%float, (cy - tp)%float))
                    (Some oid) le)
        (ups ++ [emit_pickup oid]) dn (snt ++ [emit_pickup oid]).
Proof.
  intros Hd Hfree. cbn [act]. unfold client, handleMouseDown. cbn [layer objects].
  now rewrite Hd, Hfree, Hsock.
Qed.

Lemma act_move_early now cx cy oid st objs off ui le ups dn snt d :
  oid <> "" ->
  get oid objs = Some d ->
  not_owner (ownerId d) (userId env) = true ->
  act env (mouse_move now cx cy)
      (mkNet st (mkLayer objs (mkDrag (Some oid) off) ui le) ups dn snt) =
  mkNet st (mkLayer objs (mkDrag (Some oid) off) ui le) ups dn snt.
Proof.
  intros Hne Hd Hnot. apply String.eqb_neq in Hne.
  cbn [act]. unfold client, handleMoveWithRef, dragging.
  cbn [layer dragState draggingId objects]. rewrite Hne, Hsock, Hd, Hnot.
  cbn [negb server up down sent]. now rewrite !app_nil_r.
Qed.

Lemma act_move_owner now cx cy oid st objs off ui le ups dn snt d :
  oid <> "" ->
  get oid objs = Some d ->
  ownerId d = Some (userId env) ->
  (30 <= now - le)%Z ->
  let mx := Js.Math_max 0 (Js.Math_min (cx - fst off) (innerWidth env - width d)) in
  let my := Js.Math_max 0 (Js.Math_min (cy - snd off) (innerHeight env - height d)) in
  act env (mouse_move now cx cy)
      (mkNet st (mkLayer objs (mkDrag (Some oid) off) ui le) ups dn snt) =
  mkNet st
    (mkLayer (set oid (mkDraggable (id d) (Js.Number mx) (Js.Number my)
                                   (width d) (height d) (Some (userId env)) (color d))
                  objs)
             (mkDrag (Some oid) off) ui now)
    (ups ++ [emit_object_move oid mx my]) dn (snt ++ [emit_object_move oid mx my]).
Proof.
  intros Hne Hd Hown Hopen mx my. apply String.eqb_neq in Hne.
  apply Z.leb_le in Hopen.
  cbn [act]. unfold client, handleMoveWithRef, dragging.
  cbn [layer dragState draggingId dragOffset objects lastEmit uiDraggingId].
  rewrite Hne, Hsock, Hd, Hown. cbn [negb not_owner].
  rewrite String.eqb_refl. cbn [negb]. unfold EMIT_THROTTLE. rewrite Hopen.
  reflexivity.
Qed.

Lemma act_release oid st objs off ui le ups dn snt d :
  oid <> "" ->
  get oid objs = Some d ->
  act env mouse_up (mkNet st (mkLayer objs (mkDrag (Some oid) off) ui le) ups dn snt) =
  mkNet st (mkLayer objs (mkDrag None off) None le)
        (ups ++ [emit_drop oid (x d) (y d)]) dn (snt ++ [emit_drop oid (x d) (y d)]).
Proof.
  intros Hne Hd. apply String.eqb_neq in Hne.
  cbn [act]. unfold client, handleUpWithRef, dragging.
  cbn [layer dragState draggingId dragOffset objects lastEmit].
  now rewrite Hne, Hsock, Hd.
Qed.

Lemma act_serve_granted oid st lay ups dn snt o :
  has (userId env) (Server.users st) = true ->
  get oid (Server.objects st) = Some o ->
  Server.owned_by_other (Server.o_ownerId o) (userId env) = false ->
  act env serve (mkNet st lay (emit_pickup oid :: ups) dn snt) =
  mkNet (Server.mkState (Server.users st)
           (set oid (Server.set_ownerId o (Some (userId env))) (Server.objects st)))
        lay ups
        (dn ++ [Server.object_update oid (wire (Server.o_x o)) (wire (Server.o_y o))
                                     (Some (userId env))])
        snt.
Proof.
  intros Hlive Ho Hfree. apply in_keys_has in Hlive.
  cbn [act up server as_event Server.step layer down sent].
  rewrite (ServerFacts.on_pickup_granted (userId env) oid st o Ho Hfree).
  cbn [filter fst snd map Server.connected Server.users].
  unfold Server.connected. cbn [Server.users].
  now rewrite (ServerFacts.receives_io_emit _ _ Hlive).
Qed.

Lemma act_serve_moved oid mx my st lay ups dn snt o :
  has (userId env) (Server.users st) = true ->
  get oid (Server.objects st) = Some o ->
  Server.o_ownerId o = Some (userId env) ->
  act env serve (mkNet st lay (emit_object_move oid mx my :: ups) dn snt) =
  mkNet (Server.mkState (Server.users st)
           (set oid (Server.set_position o (wire (Js.Number mx)) (wire (Js.Number my)))
                (Server.objects st)))
        lay ups
        (dn ++ [Server.object_update oid (wire (Js.Number mx)) (wire (Js.Number my))
                                     (Some (userId env))])
        snt.
Proof.
  intros Hlive Ho Hown. apply in_keys_has in Hlive.
  cbn [act up server as_event Server.step layer down sent].
  unfold Server.on_object_move. rewrite Ho, Hown.
  cbn [Server.owner_is]. rewrite String.eqb_refl.
  cbn [negb filter fst snd map]. unfold Server.connected. cbn [Server.users].
  rewrite (ServerFacts.receives_io_emit _ _ Hlive).
  cbn [map snd delivered Server.set_position Server.o_x Server.o_y
       Server.o_ownerId].
  now rewrite Hown, !wire_idem.
Qed.

Lemma act_serve_dropped oid vx vy st lay ups dn snt o :
  has (userId env) (Server.users st) = true ->
  get oid (Server.objects st) = Some o ->
  Server.o_ownerId o = Some (userId env) ->
  act env serve (mkNet st lay (emit_drop oid vx vy :: ups) dn snt) =
  mkNet (Server.mkState (Server.users st)
           (set oid (Server.mkObject (Server.o_id o) (wire vx) (wire vy)
                                     (Server.o_width o) (Server.o_height o) None
                                     (Server.o_color o))
                (Server.objects st)))
        lay ups
        (dn ++ [Server.object_update oid (wire vx) (wire vy) None])
        snt.
Proof.
  intros Hlive Ho Hown. apply in_keys_has in Hlive.
  cbn [act up server as_event Server.step layer down sent].
  unfold Server.on_drop. rewrite Ho, Hown.
  cbn [Server.owner_is]. rewrite String.eqb_refl.
  cbn [negb filter fst snd map]. unfold Server.connected. cbn [Server.users].
  rewrite (ServerFacts.receives_io_emit _ _ Hlive).
  cbn [map snd delivered Server.set_ownerId Server.set_position Server.o_x
       Server.o_y Server.o_ownerId].
  now rewrite !wire_idem.
Qed.

Lemma act_deliver_update did ux uy uowner st objs ds ui le ups dn snt d :
  get did objs = Some d ->
  act env deliver
      (mkNet st (mkLayer objs ds ui le) ups
             (Server.object_update did ux uy uowner :: dn) snt) =
  mkNet st
    (mkLayer (set did (mkDraggable (id d) ux uy (width d) (height d) uowner (color d))
                  objs) ds ui le)
    ups dn snt.
Proof.
  intros Hd. cbn [act down handle layer server up sent].
  unfold on_object_update. cbn [objects]. now rewrite Hd.
Qed.

End Steps.

Lemma play_cons env a s n : play env (a :: s) n = play env s (act env a n).
Proof. reflexivity. Qed.

Lemma wire_in_window v hi :
  is_nan v = false ->
  (0 <=? hi)%float = true ->
  (hi <? infinity)%float = true ->
  wire (Js.Number (Js.Math_max 0 (Js.Math_min v hi))) =
  Js.Number (Js.Math_max 0 (Js.Math_min v hi)).
Proof.
  intros Hv Hhi Hfin. destruct (leb_not_nan 0 hi Hhi) as [_ Hh].
  destruct (Math_min_cases v hi Hv Hh) as (Hm & _ & Hle).
  assert (Hmn : is_nan (Js.Math_min v hi) = false)
    by (destruct Hm as [-> | ->]; assumption).
  revert Hle Hmn. generalize (Js.Math_min v hi). intros m Hle Hmn.
  unfold Js.Math_max. change (is_nan 0) with false. cbv iota. rewrite Hmn.
  destruct (0 <? m)%float eqn:Hpos.
  - cbn [wire]. revert Hpos Hle Hfin.
    rewrite !ltb_spec, leb_spec. unfold SFltb, SFleb. rewrite Prim2SF_zero.
    change (Prim2SF infinity) with (S754_infinity false).
    destruct (Prim2SF m) as [s|s| |s mm e]; try reflexivity;
      cbn [SFcompare]; try discriminate.
    destruct s; [discriminate|]. intros _.
    destruct (Prim2SF hi) as [sh|sh| |sh mh eh]; cbn [SFcompare];
      try discriminate; destruct sh; discriminate.
  - destruct (m <? 0)%float; [reflexivity|].
    change (get_sign 0) with false. reflexivity.
Qed.

Ltac net_side :=
  first [ eassumption | reflexivity | apply get_set_same
        | match goal with H : ownerId _ = None |- _ => rewrite H; reflexivity end
        | match goal with H : Server.o_ownerId _ = None |- _ => rewrite H; reflexivity end ].

Ltac net_step :=
  rewrite play_cons;
  first
    [ erewrite act_press by net_side
    | erewrite act_move_owner by net_side
    | erewrite act_move_early by net_side
    | erewrite act_release by net_side
    | erewrite act_serve_granted by net_side
    | erewrite act_serve_moved by net_side
    | erewrite act_serve_dropped by net_side
    | erewrite act_deliver_update by net_side ];
  cbn [app id x y width height color ownerId fst snd
       Server.users Server.objects Server.set_ownerId Server.set_position
       Server.o_id Server.o_x Server.o_y Server.o_width Server.o_height
       Server.o_color Server.o_ownerId];
  rewrite ?set_set, ?wire_idem.

(** X25: whether a drag goes through depends on when the server's grant
    reaches the client.  A connected user presses on an object that the
    server holds unowned and the local view shows unowned, moves once with
    the emit window open, and releases; every request is served and every
    answer delivered, once each.  In each of the five orders of these events
    in which the grant is delivered before the move is handled, the server
    receives [pickup], [object_move] and [drop] with the clamped position as
    JSON carries it, and server and client end with the object unowned at
    that position.  In each of the eight orders in which the move is handled
    before the grant is delivered, served or not, the move is not sent and
    changes nothing locally; the server receives [pickup] and [drop] only
    and, the view showing the server's position, server and client end with
    the object unowned where it was.  The clamped position crosses the wire
    unchanged when the raw position is a number and the window bound is
    finite. *)
Theorem drag_gesture env oid px py left top now mvx mvy st l o d :
  socket env = true ->
  oid <> "" ->
  has (userId env) (Server.users st) = true ->
  get oid (Server.objects st) = Some o -> Server.o_ownerId o = None ->
  get oid (objects l) = Some d -> ownerId d = None ->
  (30 <= now - lastEmit l)%Z ->
  let press := mouse_down px py left top oid in
  let move := mouse_move now mvx mvy in
  let offset := ((px - left)%float, (py - top)%float) in
  let mx := Js.Math_max 0 (Js.Math_min (mvx - (px - left))
                                       (innerWidth env - width d)) in
  let my := Js.Math_max 0 (Js.Math_min (mvy - (py - top))
                                       (innerHeight env - height d)) in
  let ended (vx vy : Js.value) (emitAt : Z) (n : Net) :=
    server n =
    Server.mkState (Server.users st)
      (set oid (Server.mkObject (Server.o_id o) vx vy
                                (Server.o_width o) (Server.o_height o) None
                                (Server.o_color o))
           (Server.objects st))
    /\ layer n =
       mkLayer (set oid (mkDraggable (id d) vx vy (width d) (height d) None (color d))
                    (objects l))
               (mkDrag None offset) None emitAt
    /\ up n = [] /\ down n = [] in
  (forall schedule,
     In schedule
       [ [press; serve; deliver; move; serve; deliver; mouse_up; serve; deliver];
         [press; serve; deliver; move; serve; mouse_up; deliver; serve; deliver];
         [press; serve; deliver; move; serve; mouse_up; serve; deliver; deliver];
         [press; serve; deliver; move; mouse_up; serve; deliver; serve; deliver];
         [press; serve; deliver; move; mouse_up; serve; serve; deliver; deliver] ] ->
     ended (wire (Js.Number mx)) (wire (Js.Number my)) now
           (play env schedule (idle st l))
     /\ map (as_event (userId env)) (sent (play env schedule (idle st l))) =
        [ Server.pickup (userId env) oid;
          Server.object_move (userId env) oid
                             (wire (Js.Number mx)) (wire (Js.Number my));
          Server.drop (userId env) oid
                      (wire (Js.Number mx)) (wire (Js.Number my)) ])
  /\ (x d = Server.o_x o -> y d = Server.o_y o ->
      forall schedule,
        In schedule
          [ [press; move; serve; deliver; mouse_up; serve; deliver];
            [press; move; serve; mouse_up; deliver; serve; deliver];
            [press; move; serve; mouse_up; serve; deliver; deliver];
            [press; move; mouse_up; serve; deliver; serve; deliver];
            [press; move; mouse_up; serve; serve; deliver; deliver];
            [press; serve; move; deliver; mouse_up; serve; deliver];
            [press; serve; move; mouse_up; deliver; serve; deliver];
            [press; serve; move; mouse_up; serve; deliver; deliver] ] ->
        ended (wire (Server.o_x o)) (wire (Server.o_y o)) (lastEmit l)
              (play env schedule (idle st l))
        /\ map (as_event (userId env)) (sent (play env schedule (idle st l))) =
           [ Server.pickup (userId env) oid;
             Server.drop (userId env) oid
                         (wire (Server.o_x o)) (wire (Server.o_y o)) ])
  /\ (is_nan (mvx - (px - left)) = false ->
      (0 <=? innerWidth env - width d)%float = true ->
      (innerWidth env - width d <? infinity)%float = true ->
      wire (Js.Number mx) = Js.Number mx)
  /\ (is_nan (mvy - (py - top)) = false ->
      (0 <=? innerHeight env - height d)%float = true ->
      (innerHeight env - height d <? infinity)%float = true ->
      wire (Js.Number my) = Js.Number my).
Proof.
  intros Hsock Hne Hlive Ho Hnull Hd Hdnull Hopen press move offset mx my ended.
  assert (Hfree : Server.owned_by_other (Server.o_ownerId o) (userId env) = false)
    by now rewrite Hnull.
  assert (Hview : owned_by_other (ownerId d) (userId env) = false)
    by now rewrite Hdnull.
  assert (Hearly : not_owner (ownerId d) (userId env) = true)
    by now rewrite Hdnull.
  split; [|split; [|split]].
  - intros schedule Hin. subst ended press move. unfold idle. cbn [In] in Hin.
    destruct l as [objs ds ui le]. cbn [objects lastEmit] in *.
    destruct Hin as [<-|[<-|[<-|[<-|[<-|[]]]]]];
      do 9 net_step; fold mx my;
      cbn [play fold_left server layer up down sent map as_event];
      rewrite ?wire_idem; repeat split; reflexivity.
  - intros Hx Hy schedule Hin. subst ended press move. unfold idle.
    cbn [In] in Hin.
    destruct l as [objs ds ui le]. cbn [objects lastEmit] in *.
    destruct Hin as [<-|[<-|[<-|[<-|[<-|[<-|[<-|[<-|[]]]]]]]]];
      do 7 net_step; rewrite ?Hx, ?Hy;
      cbn [play fold_left server layer up down sent map as_event];
      rewrite ?wire_idem; repeat split; reflexivity.
  - intros Hnan Hfit Hfin. now apply wire_in_window.
  - intros Hnan Hfit Hfin. now apply wire_in_window.
Qed.

Lemma drag_gesture_witness :
  (30 <= 1000 - lastEmit Samples.layer_B)%Z
  /\ map (as_event Samples.sockB)
       (sent (play Samples.env_B
                [ mouse_down 510 310 500 300 "obj-2"; serve; deliver;
                  mouse_move 1000 700 400; serve; deliver;
                  mouse_up; serve; deliver ]
                (idle Samples.state_A_owns_obj1 Samples.layer_B))) =
     [ Server.pickup Samples.sockB "obj-2";
       Server.object_move Samples.sockB "obj-2" (Js.Number 690) (Js.Number 390);
       Server.drop Samples.sockB "obj-2" (Js.Number 690) (Js.Number 390) ].
Proof.
  assert (Hopen : (30 <= 1000 - lastEmit Samples.layer_B)%Z) by (simpl; lia).
  assert (Hne : "obj-2" <> "") by discriminate.
  split; [exact Hopen|].
  destruct (drag_gesture Samples.env_B "obj-2" 510 310 500 300 1000 700 400
              Samples.state_A_owns_obj1 Samples.layer_B
              (Server.mkObject "obj-2" (Js.Number 500) (Js.Number 300) 40 40
                               None "#4ECDC4")
              (mkDraggable "obj-2" (Js.Number 500) (Js.Number 300) 40 40
                           None "#4ECDC4")
              eq_refl Hne eq_refl eq_refl eq_refl eq_refl eq_refl Hopen)
    as (Hgranted & _).
  destruct (Hgranted _ (or_introl eq_refl)) as (_ & Hsent).
  exact Hsent.
Defined.

Section RefusedDrag.
Variables (env : Env) (oid : string) (px py left top : float)
          (now : Z) (mvx mvy : float)
          (st : Server.State) (l : Layer)
          (o : Server.SharedObject) (d : DraggableObject) (other : string).
Hypothesis Hsock : socket env = true.
Hypothesis Hne : oid <> "".
Hypothesis Hlive : has (userId env) (Server.users st) = true.
Hypothesis Ho : get oid (Server.objects st) = Some o.
Hypothesis Hown : Server.o_ownerId o = Some other.
Hypothesis Hother : other <> "".
Hypothesis Hdiff : other <> userId env.
Hypothesis Hd : get oid (objects l) = Some d.
Hypothesis Hdnull : ownerId d = None.

Let held (ui : option string) : Layer :=
  mkLayer (objects l) (mkDrag (Some oid) ((px - left)%float, (py - top)%float))
          ui (lastEmit l).
Let let_go : Layer :=
  mkLayer (objects l) (mkDrag None ((px - left)%float, (py - top)%float))
          None (lastEmit l).
Let refusal : Server.Msg := Server.object_reject oid Server.reason_owned.
Let the_drop : Emit := emit_drop oid (x d) (y d).

Lemma serve_refused lay ups dn snt :
  act env serve (mkNet st lay (emit_pickup oid :: ups) dn snt) =
  mkNet st lay ups (dn ++ [refusal]) snt.
Proof.
  apply in_keys_has in Hlive.
  cbn [act up server as_event Server.step layer down sent].
  rewrite (ServerFacts.on_pickup_refused (userId env) oid st o Ho).
  - cbn [filter fst snd map].
    unfold Server.connected. now rewrite (receives_own _ _ Hlive).
  - rewrite Hown. simpl. apply String.eqb_neq in Hother, Hdiff.
    now rewrite Hother, Hdiff.
Qed.


Lemma serve_ignored lay vx vy ups dn snt :
  act env serve (mkNet st lay (emit_drop oid vx vy :: ups) dn snt) =
  mkNet st lay ups dn snt.
Proof.
  cbn [act up server as_event Server.step layer down sent].
  unfold Server.on_drop. rewrite Ho.
  rewrite (ServerFacts.owner_is_false (Server.o_ownerId o) (userId env))
    by congruence.
  cbn [negb filter map]. now rewrite app_nil_r.
Qed.

Lemma move_while_held ui ups dn snt :
  act env (mouse_move now mvx mvy) (mkNet st (held ui) ups dn snt) =
  mkNet st (held ui) ups dn snt.
Proof.
  apply String.eqb_neq in Hne.
  cbn [act]. unfold client, handleMoveWithRef, dragging, held.
  cbn [layer dragState draggingId objects]. rewrite Hne, Hsock, Hd, Hdnull.
  cbn [negb not_owner server up down sent]. now rewrite !app_nil_r.
Qed.

Lemma release_while_held ui ups dn snt :
  act env mouse_up (mkNet st (held ui) ups dn snt) =
  mkNet st let_go (ups ++ [the_drop]) dn (snt ++ [the_drop]).
Proof.
  apply String.eqb_neq in Hne.
  cbn [act]. unfold client, handleUpWithRef, dragging, held.
  cbn [layer dragState draggingId objects]. rewrite Hne, Hsock, Hd.
  reflexivity.
Qed.

Lemma press_stale :
  act env (mouse_down px py left top oid) (idle st l) =
  mkNet st (held (Some oid)) [emit_pickup oid] [] [emit_pickup oid].
Proof.
  cbn [act]. unfold client, handleMouseDown, idle. cbn [layer].
  rewrite Hd, Hdnull, Hsock. reflexivity.
Qed.

(** After the release: whatever is still in flight, the rest of the schedule
    leaves the server and the layer as they are. *)
Lemma after_release : forall s ups dn,
  mouse_events s = [] ->
  In (ups, dn) [ ([emit_pickup oid; the_drop], []); ([the_drop], [refusal]);
                 ([the_drop], []); ([], [refusal]); ([], []) ] ->
  exists ups' dn',
    play env s (mkNet st let_go ups dn [emit_pickup oid; the_drop]) =
    mkNet st let_go ups' dn' [emit_pickup oid; the_drop]
    /\ In (ups', dn') [ ([emit_pickup oid; the_drop], []); ([the_drop], [refusal]);
                        ([the_drop], []); ([], [refusal]); ([], []) ].
Proof.
  induction s as [|a s IH]; intros ups dn Hmouse Hin.
  - exists ups, dn. split; [reflexivity | assumption].
  - unfold mouse_events in Hmouse. cbn [filter] in Hmouse.
    destruct a; try discriminate Hmouse; fold (mouse_events s) in Hmouse;
      unfold play; cbn [fold_left]; fold (play env s).
    + (* serve *)
      cbn [In] in Hin.
      destruct Hin as [H|[H|[H|[H|[H|[]]]]]]; injection H as <- <-.
      * rewrite serve_refused. apply IH; [assumption|]. cbn. tauto.
      * unfold the_drop at 1. rewrite serve_ignored. apply IH; [assumption|]. cbn. tauto.
      * unfold the_drop at 1. rewrite serve_ignored. apply IH; [assumption|]. cbn. tauto.
      * apply IH; [assumption|]. cbn. tauto.
      * apply IH; [assumption|]. cbn. tauto.
    + (* deliver *)
      cbn [In] in Hin.
      destruct Hin as [H|[H|[H|[H|[H|[]]]]]]; injection H as <- <-;
        cbn [act down]; apply IH; try assumption; cbn; tauto.
Qed.

(** Between the press and the release. *)
Lemma while_held : forall s ups dn ui,
  (mouse_events s = [mouse_move now mvx mvy; mouse_up] \/ mouse_events s = [mouse_up]) ->
  In (ups, dn, ui) [ ([emit_pickup oid], [], Some oid); ([], [refusal], Some oid);
                     ([], [], None) ] ->
  exists ups' dn',
    play env s (mkNet st (held ui) ups dn [emit_pickup oid]) =
    mkNet st let_go ups' dn' [emit_pickup oid; the_drop].
Proof.
  induction s as [|a s IH]; intros ups dn ui Hmouse Hin.
  - destruct Hmouse; discriminate.
  - unfold mouse_events in Hmouse. cbn [filter] in Hmouse.
    fold (mouse_events s) in Hmouse.
    unfold play; cbn [fold_left]; fold (play env s).
    destruct a.
    + destruct Hmouse; discriminate.
    + (* move *)
      destruct Hmouse as [Hm|Hm]; [|discriminate].
      injection Hm as -> -> -> Hm.
      rewrite move_while_held. apply IH; [now right | assumption].
    + (* up *)
      destruct Hmouse as [Hm|Hm]; [discriminate|].
      injection Hm as Hm.
      rewrite release_while_held.
      cbn [In] in Hin.
      destruct Hin as [H|[H|[H|[]]]]; injection H as <- <- <-; cbn [app];
        match goal with
        | |- exists _ _, fold_left _ s (mkNet _ _ ?u ?dd _) = _ =>
            destruct (after_release s u dd Hm) as (ups' & dn' & Hplay & _);
            [ cbn; tauto | exists ups', dn'; exact Hplay ]
        end.
    + (* serve *)
      cbn [In] in Hin.
      destruct Hin as [H|[H|[H|[]]]]; injection H as <- <- <-.
      * rewrite serve_refused. apply IH; [assumption|]. cbn. tauto.
      * apply IH; [assumption|]. cbn. tauto.
      * apply IH; [assumption|]. cbn. tauto.
    + (* deliver *)
      cbn [In] in Hin.
      destruct Hin as [H|[H|[H|[]]]]; injection H as <- <- <-;
        cbn [act down]; apply IH; try assumption; cbn; tauto.
Qed.

Lemma before_press : forall s,
  mouse_events s = [mouse_down px py left top oid; mouse_move now mvx mvy; mouse_up] ->
  exists ups' dn',
    play env s (idle st l) =
    mkNet st let_go ups' dn' [emit_pickup oid; the_drop].
Proof.
  induction s as [|a s IH]; intros Hmouse; [discriminate|].
  unfold mouse_events in Hmouse. cbn [filter] in Hmouse.
  fold (mouse_events s) in Hmouse.
  unfold play; cbn [fold_left]; fold (play env s).
  destruct a; try discriminate Hmouse.
  - injection Hmouse as -> -> -> -> -> Hm.
    rewrite press_stale. apply while_held; [now left | cbn; tauto].
  - now apply IH.
  - now apply IH.
Qed.

End RefusedDrag.

(** X26: a drag on an object that another connection owns, started from a
    stale local view that still shows it unowned, changes nothing, whenever
    the server handles the requests and whenever its answer arrives: in
    every schedule whose mouse events are the press, the move and the
    release, the client sends [pickup] and [drop] and no [object_move], the
    server's state is as before, and the client's objects are as before
    with no drag on. *)
Theorem refused_drag env oid px py left top now mvx mvy st l o d other schedule :
  socket env = true ->
  oid <> "" ->
  has (userId env) (Server.users st) = true ->
  get oid (Server.objects st) = Some o ->
  Server.o_ownerId o = Some other -> other <> "" -> other <> userId env ->
  get oid (objects l) = Some d -> ownerId d = None ->
  mouse_events schedule =
    [ mouse_down px py left top oid; mouse_move now mvx mvy; mouse_up ] ->
  server (play env schedule (idle st l)) = st
  /\ layer (play env schedule (idle st l)) =
     mkLayer (objects l) (mkDrag None ((px - left)%float, (py - top)%float))
             None (lastEmit l)
  /\ sent (play env schedule (idle st l)) =
     [ emit_pickup oid; emit_drop oid (x d) (y d) ].
Proof.
  intros Hsock Hne Hlive Ho Hown Hother Hdiff Hd Hdnull Hmouse.
  destruct (before_press env oid px py left top now mvx mvy st l o d other
              Hsock Hne Hlive Ho Hown Hother Hdiff Hd Hdnull schedule Hmouse)
    as (ups & dn & ->).
  repeat split.
Qed.

Lemma refused_drag_witness :
  sent (play Samples.env_B
          [ mouse_down 210 215 200 200 "obj-1"; serve; mouse_move 1000 700 400;
            mouse_up; deliver; serve ]
          (idle Samples.state_A_owns_obj1
                (on_object_update "obj-1" (Js.Number 200) (Js.Number 200) None
                   Samples.layer_B))) =
  [ emit_pickup "obj-1"; emit_drop "obj-1" (Js.Number 200) (Js.Number 200) ].
Proof.
  apply (refused_drag Samples.env_B "obj-1" 210 215 200 200 1000 700 400
           Samples.state_A_owns_obj1
           (on_object_update "obj-1" (Js.Number 200) (Js.Number 200) None
              Samples.layer_B)
           (Server.mkObject "obj-1" (Js.Number 200) (Js.Number 200) 40 40
                            (Some Samples.sockA) "#FF6B6B")
           (mkDraggable "obj-1" (Js.Number 200) (Js.Number 200) 40 40
                        None "#FF6B6B")
           Samples.sockA);
    try reflexivity; discriminate.
Defined.




(** *** The snapshot *)




End ObjectLayerFacts.
